(** * AlignedVector: a shallow embedding of deal.II's aligned_vector.h

    The container of [include/deal.II/base/aligned_vector.h] is modelled
    here together with the four bulk primitives of namespace [internal]
    (AlignedVectorCopy, AlignedVectorMove, AlignedVectorSet and
    AlignedVectorDefaultInitialize).

    Modelling conventions.
    - [std::size_t] is [N] with the 64-bit wrap-around written out
      ([wrap64]); [unsigned int] wraps at 32 bits ([wrap32]).
    - A [T*] is a pair of a block identifier and an element offset inside
      that block, the null pointer being block 0 at offset 0.  Pointer
      arithmetic that leaves the block, and loads or stores outside of
      it, are undefined behaviour and abort the run.
    - A memory block owned through [std::unique_ptr<T[]>] is stored by
      value inside its owner; a slot of the block either holds a value of
      [T] or is raw (never written, or destroyed), in which case it is
      absent from the finite map of the block.
    - Methods are computations in a state monad whose state holds the
      allocator and the object the method is called on; a C++ exception keeps the state
      ([Throw]), a failed [Assert] or undefined behaviour does not
      ([Abort]). *)

From Stdlib Require Import NArith ZArith Strings.Byte Lia.
From stdpp Require Import base decidable option list gmap.

Local Open Scope N_scope.

(** ** Machine integers *)

Definition wrap64 (x : N) : N := x mod 2 ^ 64.
Definition wrap32 (x : N) : N := x mod 2 ^ 32.

(** Conversion of a [std::ptrdiff_t] to [std::size_t]. *)
Definition to_size_t (z : Z) : N := Z.to_N (z mod 2 ^ 64).

(** ** Element types

    What the container needs to know about its template argument [T]:
    [sizeof(T)], [std::is_trivial<T>], [std::is_same<T, long double>],
    the value of [T()], and, for the raw-byte paths, the object
    representation of a value.  For trivial types reading back the bytes
    of a value gives the value. *)

Class ElementType (T : Type) := {
  sizeof : N;
  is_trivial : bool;
  is_long_double : bool;
  default_value : T;
  to_bytes : T → list byte;
  from_bytes : list byte → T;
  sizeof_pos : 0 < sizeof;
  to_bytes_length : ∀ v, length (to_bytes v) = N.to_nat sizeof;
  from_to_bytes : ∀ v, is_trivial = true → from_bytes (to_bytes v) = v
}.
Global Arguments sizeof T {_}.
Global Arguments is_trivial T {_}.
Global Arguments is_long_double T {_}.
Global Arguments default_value T {_}.

(** [std::memcmp] on the first [n] bytes of two buffers. *)
Fixpoint memcmp (a b : list byte) (n : nat) : Z :=
  match n, a, b with
  | S n', x :: a', y :: b' =>
      if Byte.eqb x y then memcmp a' b' n'
      else (Z.of_N (Byte.to_N x) - Z.of_N (Byte.to_N y))%Z
  | _, _, _ => 0%Z
  end.

(** ** Pointers *)

Record ptr := Ptr { blk : N; off : N }.

Global Instance ptr_eq_dec : EqDecision ptr.
Proof. solve_decision. Defined.

Definition nullptr : ptr := Ptr 0 0.

(** [p - q], a [std::ptrdiff_t] counted in elements. *)
Definition ptr_diff (p q : ptr) : Z := (Z.of_N (off p) - Z.of_N (off q))%Z.

(** [p <= q] on pointers into one array. *)
Definition ptr_le (p q : ptr) : bool := (blk p =? blk q) && (off p <=? off q).

(** ** Outcomes and the state monad *)

Inductive exn :=
  | ExcOutOfMemory (bytes : N)
  | archive_exception.

Inductive fault :=
  | ExcInternalError
  | ExcIndexRange
  | UndefinedBehaviour.

Inductive outcome (S A : Type) :=
  | Ok (a : A) (s : S)
  | Throw (e : exn) (s : S)
  | Abort (f : fault).
Global Arguments Ok {S A} a s.
Global Arguments Throw {S A} e s.
Global Arguments Abort {S A} f.

Definition M (S A : Type) : Type := S → outcome S A.

Definition ret {S A} (a : A) : M S A := λ s, Ok a s.

Definition bind {S A B} (m : M S A) (k : A → M S B) : M S B :=
  λ s, match m s with
       | Ok a s' => k a s'
       | Throw e s' => Throw e s'
       | Abort f => Abort f
       end.

Definition throw {S A} (e : exn) : M S A := λ s, Throw e s.
Definition abort {S A} (f : fault) : M S A := λ _, Abort f.
Definition get_state {S} : M S S := λ s, Ok s s.
Definition put_state {S} (s : S) : M S unit := λ _, Ok tt s.

(** A step that can only fail by a fault. *)
Definition lift {S A} (r : fault + A) : M S A :=
  match r with inl f => abort f | inr a => ret a end.

(** deal.II's [Assert(cond, ExcInternalError())], in debug mode. *)
Definition Assert {S} (cond : bool) : M S unit :=
  if cond then ret tt else abort ExcInternalError.

Definition when {S} (cond : bool) (m : M S unit) : M S unit :=
  if cond then m else ret tt.

Declare Scope cxx_scope.
Delimit Scope cxx_scope with cxx.
Notation "x <- m ;; k" := (bind m (λ x, k))
  (at level 100, m at next level, k at level 200, right associativity) : cxx_scope.
Notation "m ;;; k" := (bind m (λ _, k))
  (at level 100, k at level 200, right associativity) : cxx_scope.
Local Open Scope cxx_scope.

(** ** Loops over index ranges *)

(** [for (i = begin; i < end; ++i) body(i)] on a state of type [S]. *)
Fixpoint for_loop {S} (k : nat) (i : N) (body : N → S → S) (s : S) : S :=
  match k with
  | O => s
  | S k' => for_loop k' (N.succ i) body (body i s)
  end.

Definition for_range {S} (begin end_ : N) (body : N → S → S) (s : S) : S :=
  for_loop (N.to_nat (end_ - begin)) begin body s.

(** Modelled from the spec: [parallel::ParallelForInteger::apply_parallel]
    of deal.II/base/parallel.h, which is not among the sources.  The spec
    gives it fork-join semantics: the range is cut into index-disjoint
    subranges, every index is processed exactly once before the call
    returns, and the order between subranges is unspecified.  The
    schedule below cuts [begin, end) into consecutive pieces of at most
    [grain] indices and runs [apply_to_subrange] on them from left to
    right. *)
Fixpoint apply_parallel_from {S} (pieces : nat) (begin end_ grain : N)
    (apply_to_subrange : N → N → S → S) (s : S) : S :=
  match pieces with
  | O => s
  | S pieces' =>
      if end_ <=? begin then s
      else
        let cut := N.min end_ (begin + grain) in
        apply_parallel_from pieces' cut end_ grain apply_to_subrange
          (apply_to_subrange begin cut s)
  end.

Definition apply_parallel {S} (begin end_ grain : N)
    (apply_to_subrange : N → N → S → S) (s : S) : S :=
  apply_parallel_from (N.to_nat (end_ - begin)) begin end_ grain
    apply_to_subrange s.

(** ** Memory blocks, the container record and the allocator *)

Section Container.
Context {T : Type} `{ET : ElementType T}.

(** A block obtained from the allocator: its identity, the number of
    whole elements that fit in it, and the slots that hold a value. *)
Record block := Block { bid : N; extent : N; cells : gmap N T }.

(** [get()] of the [std::unique_ptr] member; [None] is the null
    handle. *)
Definition get (p : option block) : ptr :=
  match p with
  | Some b => Ptr (bid b) 0
  | None => nullptr
  end.

Record AlignedVector := mkAlignedVector {
  elements : option block;
  used_elements_end : ptr;
  allocated_elements_end : ptr
}.

Definition cells_of (mem : option block) : gmap N T :=
  match mem with
  | Some b => cells b
  | None => ∅
  end.

Definition with_cells (mem : option block) (c : gmap N T) : option block :=
  match mem with
  | Some b => Some (Block (bid b) (extent b) c)
  | None => None
  end.

(** [p] points into [mem] or one past its end (for the null handle: [p]
    is null). *)
Definition valid (mem : option block) (p : ptr) : bool :=
  match mem with
  | Some b => (blk p =? bid b) && (off p <=? extent b)
  | None => bool_decide (p = nullptr)
  end.

(** The [n] elements starting at [p] lie inside [mem]. *)
Definition accessible (mem : option block) (p : ptr) (n : N) : bool :=
  match mem with
  | Some b => (blk p =? bid b) && (off p + n <=? extent b)
  | None => false
  end.

(** [p + n] *)
Definition ptr_add (mem : option block) (p : ptr) (n : N) : fault + ptr :=
  let q := Ptr (blk p) (off p + n) in
  if valid mem p && valid mem q then inr q else inl UndefinedBehaviour.

(** [const unsigned char zero[sizeof(T)] = {}] *)
Definition zero : list byte := repeat x00 (N.to_nat (sizeof T)).

(** The value read from a slot whose bytes are all zero. *)
Definition zero_value : T := from_bytes zero.

Definition minimum_parallel_grain_size : N := 160000 / sizeof T + 1.

(** The constructors of the four primitives run the range inline below
    the grain size and through [apply_parallel] from it on. *)
Definition dispatch {S} (size : N) (apply_to_subrange : N → N → S → S)
    (s : S) : S :=
  if size <? minimum_parallel_grain_size
  then apply_to_subrange 0 size s
  else apply_parallel 0 size minimum_parallel_grain_size apply_to_subrange s.

(** Writing a slot: a value, or nothing when the source slot was raw. *)
Definition put_slot (j : N) (o : option T) (c : gmap N T) : gmap N T :=
  match o with
  | Some x => <[j := x]> c
  | None => delete j c
  end.

(** [std::memcpy(dst + d, src + s, count * sizeof(T))] *)
Definition memcpy (src : gmap N T) (s d count : N) (dst : gmap N T)
    : gmap N T :=
  for_range 0 count (λ i c, put_slot (d + i) (src !! (s + i)) c) dst.

(** [std::memset(dst + d, 0, count * sizeof(T))] *)
Definition memset_zero (d count : N) (dst : gmap N T) : gmap N T :=
  for_range 0 count (λ i c, <[d + i := zero_value]> c) dst.

(** *** internal::AlignedVectorCopy *)

Definition AlignedVectorCopy_apply_to_subrange (source_ destination_ : ptr)
    (src : gmap N T) (begin end_ : N) (dst : gmap N T) : gmap N T :=
  if end_ =? begin then dst
  else if is_trivial T
  then memcpy src (off source_ + begin) (off destination_ + begin)
         (end_ - begin) dst
  else for_range begin end_
         (λ i c, put_slot (off destination_ + i) (src !! (off source_ + i)) c)
         dst.

Definition AlignedVectorCopy (source_begin source_end destination : ptr)
    (src dst : option block) : fault + option block :=
  if negb (ptr_le source_begin source_end) then inl ExcInternalError
  else if negb (bool_decide (source_end = source_begin)
                || negb (bool_decide (destination = nullptr)))
  then inl ExcInternalError
  else
    let size := to_size_t (ptr_diff source_end source_begin) in
    if (size =? 0)
       || (accessible src source_begin size && accessible dst destination size)
    then inr (with_cells dst
                (dispatch size
                   (AlignedVectorCopy_apply_to_subrange source_begin
                      destination (cells_of src))
                   (cells_of dst)))
    else inl UndefinedBehaviour.

(** *** internal::AlignedVectorMove

    The state of the loop is the pair of the source and destination
    slots: the generic path destroys each source slot after moving
    from it. *)

Definition AlignedVectorMove_apply_to_subrange (source_ destination_ : ptr)
    (begin end_ : N) (m : gmap N T * gmap N T) : gmap N T * gmap N T :=
  if end_ =? begin then m
  else if is_trivial T
  then (m.1, memcpy m.1 (off source_ + begin) (off destination_ + begin)
               (end_ - begin) m.2)
  else for_range begin end_
         (λ i m, (delete (off source_ + i) m.1,
                  put_slot (off destination_ + i) (m.1 !! (off source_ + i)) m.2))
         m.

Definition AlignedVectorMove (source_begin source_end destination : ptr)
    (src dst : option block) : fault + (option block * option block) :=
  if negb (ptr_le source_begin source_end) then inl ExcInternalError
  else if negb (bool_decide (source_end = source_begin)
                || negb (bool_decide (destination = nullptr)))
  then inl ExcInternalError
  else
    let size := to_size_t (ptr_diff source_end source_begin) in
    if (size =? 0)
       || (accessible src source_begin size && accessible dst destination size)
    then
      let m := dispatch size
                 (AlignedVectorMove_apply_to_subrange source_begin destination)
                 (cells_of src, cells_of dst) in
      inr (with_cells src m.1, with_cells dst m.2)
    else inl UndefinedBehaviour.

(** *** internal::AlignedVectorSet *)

Definition copy_construct_or_assign (element_ : T) (destination_ : ptr)
    (initialize_memory : bool) (begin end_ : N) (dst : gmap N T) : gmap N T :=
  if initialize_memory
  then (* new (&destination_[i]) T(element_) *)
    for_range begin end_ (λ i c, <[off destination_ + i := element_]> c) dst
  else (* destination_[i] = element_ *)
    for_range begin end_ (λ i c, <[off destination_ + i := element_]> c) dst.

Definition AlignedVectorSet_apply_to_subrange (initialize_memory : bool)
    (element_ : T) (destination_ : ptr) (trivial_element : bool)
    (begin end_ : N) (dst : gmap N T) : gmap N T :=
  if is_trivial T && trivial_element
  then memset_zero (off destination_ + begin) (end_ - begin) dst
  else copy_construct_or_assign element_ destination_ initialize_memory
         begin end_ dst.

(** The value of [trivial_element] after the constructor's test. *)
Definition detect_trivial_element (element : T) : bool :=
  if is_trivial T && negb (is_long_double T)
  then (memcmp zero (to_bytes element) (N.to_nat (sizeof T)) =? 0)%Z
  else false.

Definition AlignedVectorSet (initialize_memory : bool) (size : N)
    (element : T) (destination : ptr) (dst : option block)
    : fault + option block :=
  if size =? 0 then inr dst
  else if bool_decide (destination = nullptr) then inl ExcInternalError
  else
    let trivial_element := detect_trivial_element element in
    if accessible dst destination size
    then inr (with_cells dst
                (dispatch size
                   (AlignedVectorSet_apply_to_subrange initialize_memory
                      element destination trivial_element)
                   (cells_of dst)))
    else inl UndefinedBehaviour.

(** *** internal::AlignedVectorDefaultInitialize *)

Definition default_construct_or_assign (destination_ : ptr)
    (initialize_memory : bool) (begin end_ : N) (dst : gmap N T) : gmap N T :=
  if initialize_memory
  then (* new (&destination_[i]) T *)
    for_range begin end_
      (λ i c, <[off destination_ + i := default_value T]> c) dst
  else (* destination_[i] = std::move(T()) *)
    for_range begin end_
      (λ i c, <[off destination_ + i := default_value T]> c) dst.

Definition AlignedVectorDefaultInitialize_apply_to_subrange
    (initialize_memory : bool) (destination_ : ptr)
    (begin end_ : N) (dst : gmap N T) : gmap N T :=
  if is_trivial T
  then memset_zero (off destination_ + begin) (end_ - begin) dst
  else default_construct_or_assign destination_ initialize_memory
         begin end_ dst.

Definition AlignedVectorDefaultInitialize (initialize_memory : bool)
    (size : N) (destination : ptr) (dst : option block)
    : fault + option block :=
  if size =? 0 then inr dst
  else if bool_decide (destination = nullptr) then inl ExcInternalError
  else
    if accessible dst destination size
    then inr (with_cells dst
                (dispatch size
                   (AlignedVectorDefaultInitialize_apply_to_subrange
                      initialize_memory destination)
                   (cells_of dst)))
    else inl UndefinedBehaviour.

(** ** The allocator *)

(** The allocator counts the blocks it has handed out, grants a request
    exactly when its byte count is within [limit], and keeps the list
    of requests (alignment, bytes) it has received. *)
Record allocator := mkAllocator {
  allocated : N;
  limit : N;
  requests : list (N * N)
}.

(** The state a method runs in: the allocator and the object the
    method is called on. *)
Record machine := mkMachine { heap : allocator; this : AlignedVector }.

(** Modelled from the spec: [Utilities::System::posix_memalign] of
    deal.II/base/utilities.h is not among the sources.  The spec's
    allocation unit "obtains an aligned raw memory block" and, when it
    "cannot satisfy the requested size/alignment", raises an
    AllocationFailure.  A granted block is new, holds [size / sizeof(T)]
    whole elements and has no initialised slot. *)
Definition posix_memalign (alignment size : N) : M machine (option block) :=
  λ s,
    let a := heap s in
    let log := requests a ++ [(alignment, size)] in
    if size <=? limit a
    then Ok (Some (Block (N.succ (allocated a)) (size / sizeof T) ∅))
            (mkMachine (mkAllocator (N.succ (allocated a)) (limit a) log)
               (this s))
    else Throw (ExcOutOfMemory size)
            (mkMachine (mkAllocator (allocated a) (limit a) log) (this s)).

Definition get_this : M machine AlignedVector := λ s, Ok (this s) s.

Definition set_this (v : AlignedVector) : M machine unit :=
  λ s, Ok tt (mkMachine (heap s) v).

Definition set_used_elements_end (p : ptr) : M machine unit :=
  v <- get_this ;;
  set_this (mkAlignedVector (elements v) p (allocated_elements_end v)).

Definition set_elements (e : option block) : M machine unit :=
  v <- get_this ;;
  set_this (mkAlignedVector e (used_elements_end v) (allocated_elements_end v)).

(** ** Observers *)

Definition size (v : AlignedVector) : N :=
  to_size_t (ptr_diff (used_elements_end v) (get (elements v))).

Definition capacity (v : AlignedVector) : N :=
  to_size_t (ptr_diff (allocated_elements_end v) (get (elements v))).

Definition empty (v : AlignedVector) : bool :=
  bool_decide (used_elements_end v = get (elements v)).

(** [operator[]]: the content of slot [index], [None] when the slot
    holds no value yet. *)
Definition index (v : AlignedVector) (i : N) : fault + option T :=
  if i <? size v
  then if accessible (elements v) (get (elements v)) (i + 1)
       then inr (cells_of (elements v) !! i)
       else inl UndefinedBehaviour
  else inl ExcIndexRange.

(** ** AlignedVector::AlignedVector() *)
Definition AlignedVector_default : AlignedVector :=
  mkAlignedVector None nullptr nullptr.

(** ** The destructor loop
    [while (used_elements_end != target) (--used_elements_end)->~T();]
    Each round moves [used_elements_end] one slot down; with as many
    rounds as its offset the pointer reaches the start of the block, and
    one more decrement would leave the block. *)
Fixpoint destroy_back (rounds : nat) (target : ptr) (v : AlignedVector)
    : fault + AlignedVector :=
  if bool_decide (used_elements_end v = target) then inr v
  else
    match rounds with
    | O => inl UndefinedBehaviour
    | S rounds' =>
        let p := used_elements_end v in
        let q := Ptr (blk p) (off p - 1) in
        if (0 <? off p) && accessible (elements v) q 1
        then destroy_back rounds' target
               (mkAlignedVector
                  (with_cells (elements v) (delete (off q) (cells_of (elements v))))
                  q (allocated_elements_end v))
        else inl UndefinedBehaviour
    end.

Definition destroy_down_to (target : ptr) : M machine unit :=
  v <- get_this ;;
  v' <- lift (destroy_back (N.to_nat (off (used_elements_end v))) target v) ;;
  set_this v'.

(** ** AlignedVector::clear *)
Definition clear : M machine unit :=
  v <- get_this ;;
  match elements v with
  | Some _ => when (negb (is_trivial T)) (destroy_down_to (get (elements v)))
  | None => ret tt
  end ;;;
  set_this (mkAlignedVector None nullptr nullptr).

(** ** AlignedVector::reserve
    The byte count [new_size * sizeof(T)] is a product of
    [std::size_t]s and may wrap around.  When a wrapped count is
    granted the block holds fewer than [new_size] elements, and
    [elements.get() + new_size] then leaves the block, which ends the
    run like all pointer arithmetic out of a block. *)
Definition reserve (new_allocated_size : N) : M machine unit :=
  v <- get_this ;;
  let old_size := to_size_t (ptr_diff (used_elements_end v) (get (elements v))) in
  let old_allocated_size :=
    to_size_t (ptr_diff (allocated_elements_end v) (get (elements v))) in
  if old_allocated_size <? new_allocated_size
  then
    let new_size := N.max new_allocated_size (wrap64 (2 * old_allocated_size)) in
    new_data <- posix_memalign 64 (wrap64 (new_size * sizeof T)) ;;
    moved <-
      (if 0 <? new_allocated_size
       then source_end <- lift (ptr_add (elements v) (get (elements v)) old_size) ;;
            lift (AlignedVectorMove (get (elements v)) source_end (get new_data)
                    (elements v) new_data)
       else ret (elements v, new_data)) ;;
    (* elements = std::move(new_data) releases the old block *)
    let elements' := moved.2 in
    used <- lift (ptr_add elements' (get elements') old_size) ;;
    alloc <- lift (ptr_add elements' (get elements') new_size) ;;
    set_this (mkAlignedVector elements' used alloc)
  else if new_allocated_size =? 0
  then clear
  else ret tt.

(** The shrink step shared by the resize family. *)
Definition destroy_released (new_size old_size : N) : M machine unit :=
  when (negb (is_trivial T) && (new_size <? old_size))
    (v <- get_this ;;
     target <- lift (ptr_add (elements v) (get (elements v)) new_size) ;;
     destroy_down_to target).

(** [used_elements_end = elements.get() + new_size] *)
Definition set_used_to (new_size : N) : M machine unit :=
  v <- get_this ;;
  p <- lift (ptr_add (elements v) (get (elements v)) new_size) ;;
  set_used_elements_end p.

(** ** AlignedVector::resize_fast *)
Definition resize_fast (new_size : N) : M machine unit :=
  v <- get_this ;;
  let old_size := size v in
  destroy_released new_size old_size ;;;
  reserve new_size ;;;
  set_used_to new_size ;;;
  when (negb (is_trivial T) && (old_size <? new_size))
    (v <- get_this ;;
     dest <- lift (ptr_add (elements v) (get (elements v)) old_size) ;;
     e <- lift (AlignedVectorDefaultInitialize true (wrap64 (new_size - old_size))
                  dest (elements v)) ;;
     set_elements e).

(** ** AlignedVector::resize(new_size) *)
Definition resize (new_size : N) : M machine unit :=
  v <- get_this ;;
  let old_size := size v in
  destroy_released new_size old_size ;;;
  reserve new_size ;;;
  set_used_to new_size ;;;
  when (old_size <? new_size)
    (v <- get_this ;;
     dest <- lift (ptr_add (elements v) (get (elements v)) old_size) ;;
     e <- lift (AlignedVectorDefaultInitialize true (wrap64 (new_size - old_size))
                  dest (elements v)) ;;
     set_elements e).

(** ** AlignedVector::resize(new_size, init) *)
Definition resize_init (new_size : N) (init : T) : M machine unit :=
  v <- get_this ;;
  let old_size := size v in
  destroy_released new_size old_size ;;;
  reserve new_size ;;;
  set_used_to new_size ;;;
  when (old_size <? new_size)
    (v <- get_this ;;
     dest <- lift (ptr_add (elements v) (get (elements v)) old_size) ;;
     e <- lift (AlignedVectorSet true (wrap64 (new_size - old_size)) init
                  dest (elements v)) ;;
     set_elements e).

(** A store through [p], which must point at a slot of the block of
    the object. *)
Definition store (p : ptr) (x : T) : M machine unit :=
  v <- get_this ;;
  if accessible (elements v) p 1
  then set_elements (with_cells (elements v) (<[off p := x]> (cells_of (elements v))))
  else abort UndefinedBehaviour.

(** [used_elements_end++] / [++used_elements_end] *)
Definition advance_used_elements_end : M machine unit :=
  v <- get_this ;;
  p <- lift (ptr_add (elements v) (used_elements_end v) 1) ;;
  set_used_elements_end p.

(** ** AlignedVector::push_back *)
Definition push_back (in_data : T) : M machine unit :=
  v <- get_this ;;
  Assert (ptr_le (used_elements_end v) (allocated_elements_end v)) ;;;
  when (bool_decide (used_elements_end v = allocated_elements_end v))
    (reserve (N.max (wrap64 (2 * capacity v)) 16)) ;;;
  v <- get_this ;;
  (if negb (is_trivial T)
   then (* new (used_elements_end++) T(in_data) *)
     store (used_elements_end v) in_data
   else (* *used_elements_end++ = in_data *)
     store (used_elements_end v) in_data) ;;;
  advance_used_elements_end.

(** ** AlignedVector::back *)
Definition back (v : AlignedVector) : fault + option T :=
  if 0 <? size v
  then if (0 <? off (used_elements_end v))
          && accessible (elements v)
               (Ptr (blk (used_elements_end v)) (off (used_elements_end v) - 1)) 1
       then inr (cells_of (elements v) !! (off (used_elements_end v) - 1))
       else inl UndefinedBehaviour
  else inl ExcIndexRange.

(** ** AlignedVector::insert_back
    The iterator range is the list of the values it yields;
    [end - begin] is its length. *)
Fixpoint insert_back_loop (range : list T) : M machine unit :=
  match range with
  | [] => ret tt
  | x :: range' =>
      v <- get_this ;;
      when (negb (is_trivial T)) (store (used_elements_end v) (default_value T)) ;;;
      store (used_elements_end v) x ;;;
      advance_used_elements_end ;;;
      insert_back_loop range'
  end.

Definition insert_back (range : list T) : M machine unit :=
  v <- get_this ;;
  let old_size := wrap32 (size v) in
  reserve (wrap64 (old_size + N.of_nat (length range))) ;;;
  insert_back_loop range.

(** ** AlignedVector::fill() and fill(value) *)
Definition fill : M machine unit :=
  v <- get_this ;;
  e <- lift (AlignedVectorDefaultInitialize false (size v) (get (elements v))
               (elements v)) ;;
  set_elements e.

Definition fill_value (value : T) : M machine unit :=
  v <- get_this ;;
  e <- lift (AlignedVectorSet false (size v) value (get (elements v))
               (elements v)) ;;
  set_elements e.

(** ** AlignedVector(size, init) *)
Definition AlignedVector_sized (size_ : N) (init : T) : M machine unit :=
  set_this (mkAlignedVector None nullptr nullptr) ;;;
  when (0 <? size_) (resize_init size_ init).

(** ** AlignedVector(const AlignedVector &vec) *)
Definition AlignedVector_copy (vec : AlignedVector) : M machine unit :=
  set_this (mkAlignedVector None nullptr nullptr) ;;;
  reserve (size vec) ;;;
  v <- get_this ;;
  set_used_elements_end (allocated_elements_end v) ;;;
  v <- get_this ;;
  e <- lift (AlignedVectorCopy (get (elements vec)) (used_elements_end vec)
               (get (elements v)) (elements vec) (elements v)) ;;
  set_elements e.

(** ** AlignedVector(AlignedVector &&vec)
    Returns the new object and what is left of [vec]. *)
Definition AlignedVector_move (vec : AlignedVector)
    : AlignedVector * AlignedVector :=
  (* elements(std::move(vec.elements)) leaves vec.elements null *)
  let new := mkAlignedVector (elements vec) (used_elements_end vec)
               (allocated_elements_end vec) in
  let vec := mkAlignedVector None (used_elements_end vec)
               (allocated_elements_end vec) in
  let vec := mkAlignedVector None (used_elements_end vec)
               (allocated_elements_end vec) in
  let vec := mkAlignedVector (elements vec) nullptr (allocated_elements_end vec) in
  let vec := mkAlignedVector (elements vec) (used_elements_end vec) nullptr in
  (new, vec).

(** ** Serialization

    An archive is the sequence of primitive items written to it: a
    [std::size_t], or the raw content of one element slot.
    [boost::serialization::make_array(p, n)] stands for the [n] slots
    from [p] on; it writes no length of its own.  A slot travels as
    what it holds, a value or nothing, where the code copies its bytes:
    for a trivial type the two agree. *)
Inductive item :=
  | ISize (n : N)
  | ISlot (x : option T).

(** [ar & make_array(p, n)] on an output archive. *)
Definition write_array (c : gmap N T) (p : N) (n : N) : list item :=
  (λ i, ISlot (c !! (p + N.of_nat i))) <$> seq 0 (N.to_nat n).

(** [ar & make_array(p, n)] on an input archive: the slots filled so
    far, and the rest of the archive unless it ended early or held
    something else than a slot. *)
Fixpoint read_array (ar : list item) (p n : N) (c : gmap N T)
    : gmap N T * option (list item) :=
  if n =? 0 then (c, Some ar)
  else
    match ar with
    | ISlot x :: ar' => read_array ar' (p + 1) (n - 1) (put_slot p x c)
    | _ => (c, None)
    end.

(** ** AlignedVector::save: the archive after the call. *)
Definition save (ar : list item) (v : AlignedVector) : fault + list item :=
  let vec_size := size v in
  let ar := ar ++ [ISize vec_size] in
  if 0 <? vec_size
  then if accessible (elements v) (get (elements v)) vec_size
       then inr (ar ++ write_array (cells_of (elements v))
                         (off (get (elements v))) vec_size)
       else inl UndefinedBehaviour
  else inr ar.

(** ** AlignedVector::load: returns the rest of the archive. *)
Definition load (ar : list item) : M machine (list item) :=
  match ar with
  | ISize vec_size :: ar =>
      if 0 <? vec_size
      then
        reserve vec_size ;;;
        v <- get_this ;;
        if accessible (elements v) (get (elements v)) vec_size
        then
          let r := read_array ar (off (get (elements v))) vec_size
                     (cells_of (elements v)) in
          set_elements (with_cells (elements v) r.1) ;;;
          match r.2 with
          | Some ar' => set_used_to vec_size ;;; ret ar'
          | None => throw archive_exception
          end
        else abort UndefinedBehaviour
      else ret ar
  | _ => throw archive_exception
  end.

(** ** Several objects

    Operations that take another AlignedVector by reference run on a
    store of objects, so that the argument may be the object itself. *)
Record world := mkWorld { mem : allocator; objs : gmap N AlignedVector }.

(** [x.m(...)] *)
Definition call {A} (x : N) (m : M machine A) : M world A :=
  λ w,
    match objs w !! x with
    | Some v =>
        match m (mkMachine (mem w) v) with
        | Ok a s => Ok a (mkWorld (heap s) (<[x := this s]> (objs w)))
        | Throw e s => Throw e (mkWorld (heap s) (<[x := this s]> (objs w)))
        | Abort f => Abort f
        end
    | None => Abort UndefinedBehaviour
    end.

(** Running a constructor for a new object [x]; an exception leaves no
    object behind. *)
Definition construct (x : N) (m : M machine unit) : M world unit :=
  λ w,
    match objs w !! x with
    | Some _ => Abort UndefinedBehaviour
    | None =>
        match m (mkMachine (mem w) (mkAlignedVector None nullptr nullptr)) with
        | Ok _ s => Ok tt (mkWorld (heap s) (<[x := this s]> (objs w)))
        | Throw e s => Throw e (mkWorld (heap s) (objs w))
        | Abort f => Abort f
        end
    end.

(** Reading the object behind a reference. *)
Definition deref (x : N) : M world AlignedVector :=
  λ w,
    match objs w !! x with
    | Some v => Ok v w
    | None => Abort UndefinedBehaviour
    end.

Definition assign (x : N) (v : AlignedVector) : M world unit :=
  λ w, Ok tt (mkWorld (mem w) (<[x := v]> (objs w))).

(** ** AlignedVector::operator=(const AlignedVector &vec) *)
Definition copy_assign (this_ vec : N) : M world unit :=
  call this_ (resize 0) ;;;
  v <- deref vec ;;
  call this_
    (resize_fast (to_size_t (ptr_diff (used_elements_end v) (get (elements v))))) ;;;
  v <- deref vec ;;
  call this_
    (t <- get_this ;;
     e <- lift (AlignedVectorCopy (get (elements v)) (used_elements_end v)
                  (get (elements t)) (elements v) (elements t)) ;;
     set_elements e).

(** ** AlignedVector::operator=(AlignedVector &&vec) *)
Definition move_assign (this_ vec : N) : M world unit :=
  call this_ clear ;;;
  (* elements = std::move(vec.elements): vec releases, this takes over *)
  v <- deref vec ;;
  assign vec (mkAlignedVector None (used_elements_end v) (allocated_elements_end v)) ;;;
  t <- deref this_ ;;
  assign this_ (mkAlignedVector (elements v) (used_elements_end t)
                  (allocated_elements_end t)) ;;;
  (* used_elements_end = vec.used_elements_end *)
  v <- deref vec ;;
  t <- deref this_ ;;
  assign this_ (mkAlignedVector (elements t) (used_elements_end v)
                  (allocated_elements_end t)) ;;;
  (* allocated_elements_end = vec.allocated_elements_end *)
  v <- deref vec ;;
  t <- deref this_ ;;
  assign this_ (mkAlignedVector (elements t) (used_elements_end t)
                  (allocated_elements_end v)) ;;;
  (* vec.used_elements_end = nullptr; vec.allocated_elements_end = nullptr *)
  v <- deref vec ;;
  assign vec (mkAlignedVector (elements v) nullptr (allocated_elements_end v)) ;;;
  v <- deref vec ;;
  assign vec (mkAlignedVector (elements v) (used_elements_end v) nullptr).

(** ** AlignedVector::swap: three [std::swap]s, each through a
    temporary. *)
Definition swap (this_ vec : N) : M world unit :=
  (* std::swap(elements, vec.elements) *)
  t <- deref this_ ;;
  let tmp := elements t in
  assign this_ (mkAlignedVector None (used_elements_end t) (allocated_elements_end t)) ;;;
  v <- deref vec ;;
  let moved := elements v in
  assign vec (mkAlignedVector None (used_elements_end v) (allocated_elements_end v)) ;;;
  t <- deref this_ ;;
  assign this_ (mkAlignedVector moved (used_elements_end t) (allocated_elements_end t)) ;;;
  v <- deref vec ;;
  assign vec (mkAlignedVector tmp (used_elements_end v) (allocated_elements_end v)) ;;;
  (* std::swap(used_elements_end, vec.used_elements_end) *)
  t <- deref this_ ;;
  let tmp := used_elements_end t in
  v <- deref vec ;;
  assign this_ (mkAlignedVector (elements t) (used_elements_end v) (allocated_elements_end t)) ;;;
  v <- deref vec ;;
  assign vec (mkAlignedVector (elements v) tmp (allocated_elements_end v)) ;;;
  (* std::swap(allocated_elements_end, vec.allocated_elements_end) *)
  t <- deref this_ ;;
  let tmp := allocated_elements_end t in
  v <- deref vec ;;
  assign this_ (mkAlignedVector (elements t) (used_elements_end t) (allocated_elements_end v)) ;;;
  v <- deref vec ;;
  assign vec (mkAlignedVector (elements v) (used_elements_end v) tmp).

(** Assignment to the element at [index] through the reference
    returned by [operator[]]. *)
Definition set_index (i : N) (x : T) : M machine unit :=
  v <- get_this ;;
  if i <? size v
  then p <- lift (ptr_add (elements v) (get (elements v)) i) ;; store p x
  else abort ExcIndexRange.

(** ** Sequences of public operations *)
Inductive op :=
  | OpDefault (x : N)
  | OpSized (x : N) (size_ : N) (init : T)
  | OpCopyConstruct (x vec : N)
  | OpMoveConstruct (x vec : N)
  | OpCopyAssign (x vec : N)
  | OpMoveAssign (x vec : N)
  | OpResizeFast (x : N) (new_size : N)
  | OpResize (x : N) (new_size : N)
  | OpResizeInit (x : N) (new_size : N) (init : T)
  | OpReserve (x : N) (new_allocated_size : N)
  | OpClear (x : N)
  | OpPushBack (x : N) (in_data : T)
  | OpInsertBack (x : N) (range : list T)
  | OpFill (x : N)
  | OpFillValue (x : N) (value : T)
  | OpSetIndex (x : N) (i : N) (value : T)
  | OpSwap (x vec : N)
  | OpLoad (x : N) (ar : list item).

Definition exec (o : op) : M world unit :=
  match o with
  | OpDefault x => construct x (ret tt)
  | OpSized x n init => construct x (AlignedVector_sized n init)
  | OpCopyConstruct x vec => v <- deref vec ;; construct x (AlignedVector_copy v)
  | OpMoveConstruct x vec =>
      v <- deref vec ;;
      construct x (ret tt) ;;;
      assign x (AlignedVector_move v).1 ;;;
      assign vec (AlignedVector_move v).2
  | OpCopyAssign x vec => copy_assign x vec
  | OpMoveAssign x vec => move_assign x vec
  | OpResizeFast x n => call x (resize_fast n)
  | OpResize x n => call x (resize n)
  | OpResizeInit x n init => call x (resize_init n init)
  | OpReserve x n => call x (reserve n)
  | OpClear x => call x clear
  | OpPushBack x d => call x (push_back d)
  | OpInsertBack x range => call x (insert_back range)
  | OpFill x => call x fill
  | OpFillValue x value => call x (fill_value value)
  | OpSetIndex x i value => call x (set_index i value)
  | OpSwap x vec => swap x vec
  | OpLoad x ar => call x (load ar) ;;; ret tt
  end.

(** The states a program can observe: those reached from a store
    without objects by operations that return or throw. *)
Inductive reachable : world → Prop :=
  | reachable_start a : reachable (mkWorld a ∅)
  | reachable_return w o w' :
      reachable w → exec o w = Ok tt w' → reachable w'
  | reachable_throw w o e w' :
      reachable w → exec o w = Throw e w' → reachable w'.

(** ** Well-formed containers

    Either the three pointers are null and no block is owned, or all
    three point into the owned block: its start, the end of the live
    elements, and its end. *)
Definition owning (b : block) (u : N) : AlignedVector :=
  mkAlignedVector (Some b) (Ptr (bid b) u) (Ptr (bid b) (extent b)).

Inductive wf : AlignedVector → Prop :=
  | wf_null : wf (mkAlignedVector None nullptr nullptr)
  | wf_block b u :
      bid b ≠ 0 → u ≤ extent b → extent b < 2 ^ 64 → wf (owning b u).

(** The allocator can grant a block of [n] elements: the byte count
    fits in a [std::size_t] and is within the limit. *)
Definition grantable (a : allocator) (n : N) : Prop :=
  n * sizeof T < 2 ^ 64 ∧ n * sizeof T ≤ limit a.

(** The capacity [reserve(n)] leaves behind when it returns, from the
    capacity [c] before the call. *)
Definition reserve_capacity (c n : N) : N :=
  if c <? n then N.max n (2 * c) else if n =? 0 then 0 else c.


(** ** Notions used in the statements *)

(** [fills f d g]: on every subrange, [f] writes [g (j - d)] to the
    slots [j] of the subrange shifted by [d] and leaves the others. *)
Definition fills (f : N → N → gmap N T → gmap N T) (d : N)
    (g : N → option T) : Prop :=
  ∀ b e c j, b ≤ e →
    f b e c !! j = if decide (d + b ≤ j < d + e) then g (j - d) else c !! j.

(** The same for the loop of AlignedVectorMove, whose state is the pair
    of the source and the destination slots. *)
Definition moves (f : N → N → gmap N T * gmap N T → gmap N T * gmap N T)
    (s d : N) : Prop :=
  ∀ b e m j, b ≤ e →
    (¬ (s + b ≤ j < s + e) → (f b e m).1 !! j = m.1 !! j)
    ∧ (f b e m).2 !! j
      = if decide (d + b ≤ j < d + e) then m.1 !! (s + (j - d)) else m.2 !! j.

(** What AlignedVectorSet stores in each slot. *)
Definition set_content (element : T) (trivial_element : bool) : T :=
  if is_trivial T && trivial_element then zero_value else element.

(** The generic path of the Set primitive in the words of the spec, to
    compare AlignedVectorSet with: each of the [n] slots from [first]
    on is copy-constructed or copy-assigned from [element], one slot
    after the other, and nothing else is done. *)
Fixpoint set_each_slot (element : T) (first : N) (n : nat) (c : gmap N T)
    : gmap N T :=
  match n with
  | O => c
  | S n' => set_each_slot element (N.succ first) n' (<[first := element]> c)
  end.

Definition AlignedVectorSet_generic (size : N) (element : T)
    (destination : ptr) (dst : option block) : option block :=
  with_cells dst
    (set_each_slot element (off destination) (N.to_nat size) (cells_of dst)).

(** Byte [i] of the [sizeof(T)] bytes of storage is padding: no value
    of [T] depends on it, so the bit pattern of a value does not span
    the full storage width. *)
Definition padding_byte (i : nat) : Prop :=
  (i < N.to_nat (sizeof T))%nat
  ∧ ∀ (l : list byte) (x : byte), from_bytes (<[i := x]> l) = from_bytes l.

(** What AlignedVectorDefaultInitialize stores in each slot. *)
Definition default_content : T :=
  if is_trivial T then zero_value else default_value T.


(** The number of elements that fit in the block behind a handle. *)
Definition extent_of (e : option block) : N :=
  match e with
  | Some b => extent b
  | None => 0
  end.

(** The container that owns [e] and has [u] live elements. *)
Definition holding (e : option block) (u : N) : AlignedVector :=
  mkAlignedVector e (Ptr (blk (get e)) u) (Ptr (blk (get e)) (extent_of e)).

(** A handle as the allocator hands it out: null, or a block with a
    non-null identity. *)
Definition handle_ok (e : option block) : Prop :=
  match e with
  | Some b => bid b ≠ 0
  | None => True
  end.

(** The allocator after a granted request for [n] elements. *)
Definition granted (a : allocator) (n : N) : allocator :=
  mkAllocator (N.succ (allocated a)) (limit a)
    (requests a ++ [(64, n * sizeof T)]).


(** What a successful resize leaves: [variant] is one of the three
    functions and [fresh] what it guarantees about the content of a new
    slot. *)
Definition resize_result (variant : N → M machine unit)
    (fresh : option T → Prop) (a : allocator) (e : option block)
    (u n : N) : Prop :=
  ∃ a' e',
    variant n (mkMachine a (holding e u)) = Ok tt (mkMachine a' (holding e' n))
    ∧ limit a' = limit a
    ∧ handle_ok e'
    ∧ extent_of e' = reserve_capacity (extent_of e) n
    ∧ extent_of e' < 2 ^ 64
    ∧ n ≤ extent_of e'
    ∧ (∀ j, j < N.min u n → cells_of e' !! j = cells_of e !! j)
    ∧ (∀ j, u ≤ j < n → fresh (cells_of e' !! j)).

(** The state [v2] after [resize(n)] took [v] to [v1] and a second
    resize to [m] took [v1] to [v2]; [fresh] is what the second call
    guarantees about the content of a new slot. *)
Definition resize_pair_post (v v1 v2 : AlignedVector) (n m : N)
    (fresh : option T → Prop) : Prop :=
  size v2 = m ∧ m ≤ capacity v2
  ∧ (∀ i, i < n → index v2 i = index v1 i)
  ∧ (∀ i, i < n → i < size v → index v2 i = index v i)
  ∧ (∀ i, n ≤ i < m → ∃ o, index v2 i = inr o ∧ fresh o).

(** The requests the allocator has received when a run is over; a run
    that aborted leaves nothing to observe. *)
Definition requests_after {A} (r : outcome machine A) : option (list (N * N)) :=
  match r with
  | Ok _ s => Some (requests (heap s))
  | Throw _ s => Some (requests (heap s))
  | Abort _ => None
  end.

(** [load] validates the count it reads: there is a bound, which may
    depend on what follows the count in the archive and is below the
    largest [std::size_t], such that a declared count above the bound
    leads to no request to the allocator. *)
Definition load_validates_count : Prop :=
  ∃ bound : list item → N,
    (∀ rest, bound rest < 2 ^ 64 - 1)
    ∧ ∀ a v count rest,
        wf v → bound rest < count → count < 2 ^ 64 →
        requests_after (load (ISize count :: rest) (mkMachine a v))
        = Some (requests a).

(** A method keeps containers well formed: from a well-formed object
    it returns or throws with a well-formed object. *)
Definition keeps_wf {A} (m : M machine A) : Prop :=
  ∀ a v, wf v →
    match m (mkMachine a v) with
    | Ok _ s => wf (this s)
    | Throw _ s => wf (this s)
    | Abort _ => True
    end.

(** Every object of the store is well formed. *)
Definition store_wf (w : world) : Prop :=
  ∀ x v, objs w !! x = Some v → wf v.

Definition keeps_store_wf {A} (m : M world A) : Prop :=
  ∀ w, store_wf w →
    match m w with
    | Ok _ w' => store_wf w'
    | Throw _ w' => store_wf w'
    | Abort _ => True
    end.

(** The invariant of the pointer triple: the three pointers point into
    one array in the order begin, used end, allocated end, and [size()]
    and [capacity()] are the two distances from the beginning. *)
Definition pointer_triple (v : AlignedVector) : Prop :=
  blk (used_elements_end v) = blk (get (elements v))
  ∧ blk (allocated_elements_end v) = blk (get (elements v))
  ∧ off (get (elements v)) ≤ off (used_elements_end v)
  ∧ off (used_elements_end v) ≤ off (allocated_elements_end v)
  ∧ Z.of_N (size v) = ptr_diff (used_elements_end v) (get (elements v))
  ∧ Z.of_N (capacity v)
    = ptr_diff (allocated_elements_end v) (get (elements v)).

(** The empty state: the three pointers are equal, size and capacity
    are 0. *)
Definition all_equal (v : AlignedVector) : Prop :=
  used_elements_end v = get (elements v)
  ∧ allocated_elements_end v = get (elements v)
  ∧ size v = 0 ∧ capacity v = 0.

End Container.

Global Arguments block T : clear implicits.
Global Arguments AlignedVector T : clear implicits.
Global Arguments item T : clear implicits.
Global Arguments machine T : clear implicits.
Global Arguments world T : clear implicits.
Global Arguments op T : clear implicits.

(** ** Three element types

    [bool], the trivial type of the container's regression test, a class
    with a user-provided default constructor, and [long double]. *)

#[global] Instance bool_element : ElementType bool.
Proof.
  refine {| sizeof := 1;
            is_trivial := true;
            is_long_double := false;
            default_value := false;
            to_bytes := λ b : bool, [if b then x01 else x00];
            from_bytes := λ l, match l with [x00] => false | _ => true end |}.
  - reflexivity.
  - intros []; reflexivity.
  - intros [] _; reflexivity.
Defined.

(** [struct Counter { std::size_t n; Counter() : n(7) {} };] *)
Record Counter := mkCounter { counter_n : N }.

#[global] Instance Counter_element : ElementType Counter.
Proof.
  refine {| sizeof := 8;
            is_trivial := false;
            is_long_double := false;
            default_value := mkCounter 7;
            to_bytes := λ _, repeat x00 8;
            from_bytes := λ _, mkCounter 0 |}.
  - reflexivity.
  - intros; reflexivity.
  - intros ? [=].
Defined.

(** An allocator that has not handed out anything yet. *)
Definition fresh_allocator (limit_ : N) : allocator :=
  mkAllocator 0 limit_ [].

(** Running a method on a default-constructed container. *)
Definition run_fresh {T} `{ElementType T} {A} (limit_ : N)
    (m : M (machine T) A) : outcome (machine T) A :=
  m (mkMachine (fresh_allocator limit_) AlignedVector_default).

(** [long double] on x86-64: sixteen bytes of storage of which the value
    occupies ten; the other six are padding. *)
Record long_double := mkLongDouble {
  ld0 : byte; ld1 : byte; ld2 : byte; ld3 : byte; ld4 : byte;
  ld5 : byte; ld6 : byte; ld7 : byte; ld8 : byte; ld9 : byte
}.

Definition long_double_zero : long_double :=
  mkLongDouble x00 x00 x00 x00 x00 x00 x00 x00 x00 x00.

#[global] Instance long_double_element : ElementType long_double.
Proof.
  refine {| sizeof := 16;
            is_trivial := true;
            is_long_double := true;
            default_value := long_double_zero;
            to_bytes := λ v,
              [ld0 v; ld1 v; ld2 v; ld3 v; ld4 v; ld5 v; ld6 v; ld7 v;
               ld8 v; ld9 v] ++ repeat x00 6;
            from_bytes := λ l,
              match l with
              | b0 :: b1 :: b2 :: b3 :: b4 :: b5 :: b6 :: b7 :: b8 :: b9 :: _ =>
                  mkLongDouble b0 b1 b2 b3 b4 b5 b6 b7 b8 b9
              | _ => long_double_zero
              end |}.
  - reflexivity.
  - intros; reflexivity.
  - intros [] _; reflexivity.
Defined.

(** [struct Extended { long double x; };]: a trivial class that is not
    [long double] and has the storage of one, padding included. *)
Record Extended := mkExtended { extended_x : long_double }.

#[global] Instance Extended_element : ElementType Extended | 100.
Proof.
  refine {| sizeof := 16;
            is_trivial := true;
            is_long_double := false;
            default_value := mkExtended long_double_zero;
            to_bytes := λ v, to_bytes (extended_x v);
            from_bytes := λ l, mkExtended (from_bytes l) |}.
  - reflexivity.
  - intros; reflexivity.
  - intros [[]] _; reflexivity.
Defined.

(** ** Sample states *)

(** Three [bool]s in a block of four. *)
Definition three_bools : AlignedVector bool :=
  owning (Block 1 4 (<[0 := true]> (<[1 := false]> (<[2 := true]> ∅)))) 3.

(** Four [bool]s in a block of four: a full container. *)
Definition four_bools : AlignedVector bool :=
  owning (Block 1 4 (<[0 := true]> (<[1 := false]> (<[2 := true]>
                       (<[3 := true]> ∅))))) 4.

(** Two [Counter]s in a block of two. *)
Definition two_counters : AlignedVector Counter :=
  owning (Block 1 2 (<[0 := mkCounter 5]> (<[1 := mkCounter 6]> ∅))) 2.

(** Two [Extended] in a block of two, neither of them zero. *)
Definition extended (b : byte) : Extended :=
  mkExtended (mkLongDouble b x00 x00 x00 x00 x00 x00 x00 x00 x00).

Definition two_extended : AlignedVector Extended :=
  owning (Block 1 2 (<[0 := extended x01]> (<[1 := extended x02]> ∅))) 2.

(** An allocator that has handed out one block and grants up to 1000
    bytes. *)
Definition small_allocator : allocator := mkAllocator 1 1000 [(64, 4)].

(** 2^32 [bool]s in a block of 2^32, none of them written yet: the state
    that [resize_fast(4294967296)] leaves in a default-constructed
    container. *)
Definition bools_4Gi : AlignedVector bool :=
  owning (Block 1 (2 ^ 32) ∅) (2 ^ 32).

Definition allocator_4Gi : allocator := mkAllocator 1 (2 ^ 32) [(64, 2 ^ 32)].

(** A store with one container, and the store a short program leaves. *)
Definition one_object : world bool :=
  mkWorld small_allocator (<[1 := three_bools]> ∅).

Definition sample_program : list (op bool) :=
  [OpDefault 1; OpResize 1 4; OpSetIndex 1 2 true; OpPushBack 1 true;
   OpCopyConstruct 2 1; OpInsertBack 1 [true; false]; OpSwap 1 2;
   OpMoveAssign 2 1; OpReserve 2 100; OpClear 1].

(** Running a program, stopping at the first operation that does not
    return. *)
Fixpoint run_program {T} `{ElementType T} (p : list (op T)) (w : world T)
    : world T :=
  match p with
  | [] => w
  | o :: p' =>
      match exec o w with
      | Ok _ w' => run_program p' w'
      | _ => w
      end
  end.

(** The elements of a container in index order, as a program that prints
    [a[0]] to [a[size() - 1]] sees them. *)
Definition contents {T} (v : AlignedVector T) : list (option T) :=
  (λ i, cells_of (elements v) !! N.of_nat i) <$> seq 0 (N.to_nat (size v)).

(** The first part of tests/base/aligned_vector_03.cc, the test of
    [AlignedVector<bool>], up to the assignment [a = b]; object 1 is [a],
    object 2 is [b], and the range [b.begin(), b.end()) of the call to
    [insert_back] is given by the values it yields. *)
Definition aligned_vector_03 : list (op bool) :=
  [OpSized 1 4 false;
   OpSetIndex 1 2 true; OpPushBack 1 true; OpPushBack 1 false;
   OpCopyConstruct 2 1; OpPushBack 2 true;
   OpInsertBack 1 [false; false; true; false; true; false; true];
   OpResize 1 4;
   OpReserve 1 100;
   OpCopyAssign 1 2].

(** The container [a] after the first [k] operations of the test. *)
Definition aligned_vector_03_a (k : nat) : option (AlignedVector bool) :=
  objs (run_program (take k aligned_vector_03)
          (mkWorld (fresh_allocator (2 ^ 40)) ∅)) !! 1.

(** ** The remaining members: pointers to the data, comparison and
    memory consumption *)

(** What [operator==] asks of the element type: its [operator!=]. *)
Class Comparable (T : Type) := { ne : T → T → bool }.

(** What [memory_consumption] asks of the environment:
    [sizeof(AlignedVector<T>)], which the ABI fixes, and
    [MemoryConsumption::memory_consumption(const T &)] of
    deal.II/base/memory_consumption.h, which is not among the sources
    and is kept as a parameter.  It receives a reference to the slot, so
    its argument is the content of the slot, [None] when the slot holds
    no value. *)
Class Measured (T : Type) := {
  sizeof_this : N;
  element_memory_consumption : option T → N
}.
Global Arguments sizeof_this T {_}.

(** A function on subranges that may be run piece by piece, the
    pieces in either order, with the result of one run over the whole
    range. *)
Definition piecewise {S} (f : N → N → S → S) : Prop :=
  ∀ b m e s, b ≤ m → m ≤ e →
    f m e (f b m s) = f b e s ∧ f b m (f m e s) = f b e s.

Section Members.
Context {T : Type} `{ET : ElementType T}.

(** AlignedVector::data, begin and end (both the mutable and the
    read-only overloads). *)
Definition data (v : AlignedVector T) : ptr := get (elements v).
Definition begin (v : AlignedVector T) : ptr := get (elements v).
Definition end_ (v : AlignedVector T) : ptr := used_elements_end v.

(** AlignedVector::~AlignedVector *)
Definition AlignedVector_destructor : M (machine T) unit := clear.

(** ** operator==

    The loop of [operator==] walks [lit] from [lhs.begin()] until it
    meets [lhs.end()], with [rit] alongside in [rhs].  Reading a slot
    that holds no value is undefined behaviour.  Each round moves [lit]
    one slot up, so one round more than the block has slots is enough:
    before the rounds run out either [lit] has met [lhs.end()] or it
    has left the block. *)
Fixpoint equal_loop `{Comparable T} (rounds : nat) (lit rit : ptr)
    (lhs rhs : AlignedVector T) : fault + bool :=
  if bool_decide (lit = end_ lhs) then inr true
  else
    match rounds with
    | O => inl UndefinedBehaviour
    | S rounds' =>
        if accessible (elements lhs) lit 1 && accessible (elements rhs) rit 1
        then
          match cells_of (elements lhs) !! off lit,
                cells_of (elements rhs) !! off rit with
          | Some x, Some y =>
              if ne x y then inr false
              else equal_loop rounds' (Ptr (blk lit) (off lit + 1))
                     (Ptr (blk rit) (off rit + 1)) lhs rhs
          | _, _ => inl UndefinedBehaviour
          end
        else inl UndefinedBehaviour
    end.

Definition operator_eq `{Comparable T} (lhs rhs : AlignedVector T)
    : fault + bool :=
  if negb (size lhs =? size rhs) then inr false
  else equal_loop (S (N.to_nat (extent_of (elements lhs))))
         (begin lhs) (begin rhs) lhs rhs.

(** operator!= *)
Definition operator_ne `{Comparable T} (lhs rhs : AlignedVector T)
    : fault + bool :=
  match operator_eq lhs rhs with
  | inr r => inr (negb r)
  | inl f => inl f
  end.

(** ** AlignedVector::memory_consumption

    The loop [for (t = elements.get(); t != used_elements_end; ++t)]
    adds the consumption of the element behind [t] to [memory]. *)
Fixpoint consumption_loop `{Measured T} (rounds : nat) (t : ptr)
    (v : AlignedVector T) (memory : N) : fault + N :=
  if bool_decide (t = used_elements_end v) then inr memory
  else
    match rounds with
    | O => inl UndefinedBehaviour
    | S rounds' =>
        if accessible (elements v) t 1
        then consumption_loop rounds' (Ptr (blk t) (off t + 1)) v
               (wrap64 (memory
                        + element_memory_consumption
                            (cells_of (elements v) !! off t)))
        else inl UndefinedBehaviour
    end.

Definition memory_consumption `{Measured T} (v : AlignedVector T)
    : fault + N :=
  let memory := sizeof_this T in
  match consumption_loop (S (N.to_nat (extent_of (elements v))))
          (get (elements v)) v memory with
  | inr memory =>
      inr (wrap64 (memory
                   + wrap64 (sizeof T
                             * to_size_t (ptr_diff (allocated_elements_end v)
                                            (used_elements_end v)))))
  | inl f => inl f
  end.

(** ** Notions used in the statements about these members *)

(** Every element of the container holds a value. *)
Definition initialized (v : AlignedVector T) : Prop :=
  ∀ i, i < size v → is_Some (cells_of (elements v) !! i).

(** The elements [lo], ..., [lo + k - 1] of a block. *)
Definition slots (c : gmap N T) (lo : N) (k : nat) : list (option T) :=
  (λ i, c !! (lo + N.of_nat i)) <$> seq 0 k.

(** What the elements of [v] consume, by the measure of the element
    type. *)
Definition elements_consumption `{Measured T} (v : AlignedVector T) : N :=
  foldr N.add 0
    (element_memory_consumption
       <$> slots (cells_of (elements v)) 0 (N.to_nat (size v))).

(** [for (const T &x : l) v.push_back(x);] *)
Fixpoint push_back_all (l : list T) : M (machine T) unit :=
  match l with
  | [] => ret tt
  | x :: l' => push_back x ;;; push_back_all l'
  end.

(** The capacities that [push_back] alone leads to: none before the
    first element, and from then on at least 16 and at most twice the
    number of elements that were there when it last grew. *)
Definition doubling_range (u cap : N) : Prop :=
  (u = 0 ∧ cap = 0) ∨ (0 < u ∧ 16 ≤ cap ∧ cap ≤ N.max 16 (2 * (u - 1))).

(** The allocator after a request that it refused. *)
Definition refused (a : allocator) (bytes : N) : allocator :=
  mkAllocator (allocated a) (limit a) (requests a ++ [(64, bytes)]).

(** [e'] holds a copy of the first [u] slots of [e] in a
    block of its own of [u] slots. *)
Definition copy_of (e e' : option (block T)) (u : N) : Prop :=
  handle_ok e' ∧ extent_of e' = u
  ∧ ∀ j, j < u → cells_of e' !! j = cells_of e !! j.

(** The block a container owns, by its identity; 0 for none. *)
Definition owned (v : AlignedVector T) : N := blk (get (elements v)).

(** ** Ownership of blocks *)

(** What a method may do to the ownership of blocks: the allocator
    only hands out further blocks, and afterwards the object owns no
    block, or the block it owned before, or a block handed out during
    the call. *)
Definition hands_over (s s' : machine T) : Prop :=
  allocated (heap s) ≤ allocated (heap s')
  ∧ (owned (this s') = 0
     ∨ owned (this s') = owned (this s)
     ∨ allocated (heap s) < owned (this s') ≤ allocated (heap s')).

Definition tracks_blocks {A} (m : M (machine T) A) : Prop :=
  ∀ s,
    match m s with
    | Ok _ s' => hands_over s s'
    | Throw _ s' => hands_over s s'
    | Abort _ => True
    end.

(** The block that object [x] of a store owns; 0 when there is no such
    object or it owns none. *)
Definition owned_at (w : world T) (x : N) : N :=
  match objs w !! x with
  | Some v => owned v
  | None => 0
  end.

(** Exclusive ownership: every block owned by an object of the store
    was handed out by the allocator, and no two objects own the same
    block. *)
Definition exclusive (w : world T) : Prop :=
  (∀ x, owned_at w x ≤ allocated (mem w))
  ∧ (∀ x y, x ≠ y → owned_at w x ≠ 0 → owned_at w x ≠ owned_at w y).

Definition keeps_exclusive {A} (m : M (world T) A) : Prop :=
  ∀ w, exclusive w →
    match m w with
    | Ok _ w' => exclusive w'
    | Throw _ w' => exclusive w'
    | Abort _ => True
    end.

End Members.

(** [operator!=] of [bool] and of [Counter]. *)
#[global] Instance bool_comparable : Comparable bool := {| ne := xorb |}.

#[global] Instance Counter_comparable : Comparable Counter :=
  {| ne := λ x y, negb (counter_n x =? counter_n y) |}.

(** A fundamental type consumes [sizeof(T)]; the container itself is a
    [std::unique_ptr] with a function pointer as deleter and two
    pointers, 32 bytes on x86-64. *)
#[global] Instance bool_measured : Measured bool :=
  {| sizeof_this := 32; element_memory_consumption := λ _, 1 |}.

(** Two [bool]s in a second block, of two. *)
Definition two_bools : AlignedVector bool :=
  owning (Block 2 2 (<[0 := false]> (<[1 := true]> ∅))) 2.

(** An allocator that has handed out one block and grants no more than
    four bytes. *)
Definition tight_allocator : allocator := mkAllocator 1 4 [(64, 4)].

(** A store with two containers, each with a block of its own. *)
Definition two_objects : world bool :=
  mkWorld (mkAllocator 2 1000 [(64, 4); (64, 2)])
    (<[2 := two_bools]> (<[1 := three_bools]> ∅)).

(** * Properties *)

Local Open Scope N_scope.
Local Open Scope cxx_scope.

(** ** Machine integers and pointers *)

Lemma wrap64_small n : n < 2 ^ 64 → wrap64 n = n.
Proof. intros. unfold wrap64. by apply N.mod_small. Qed.

Lemma wrap64_lt n : wrap64 n < 2 ^ 64.
Proof. unfold wrap64. by apply N.mod_lt. Qed.

Lemma wrap64_le n : wrap64 n ≤ n.
Proof. unfold wrap64. by apply N.Div0.mod_le. Qed.

Lemma to_size_t_offset n : n < 2 ^ 64 → to_size_t (Z.of_N n - Z.of_N 0) = n.
Proof.
  intros Hn. unfold to_size_t.
  rewrite Z.sub_0_r, Z.mod_small, N2Z.id; [done|].
  split; [lia|]. change (2 ^ 64)%Z with (Z.of_N (2 ^ 64)). lia.
Qed.

Lemma memcmp_eq a b n :
  length a = n → length b = n → (memcmp a b n = 0%Z ↔ a = b).
Proof.
  revert a b. induction n as [|n IH]; intros [|x a] [|y b] Ha Hb;
    simplify_eq/=; try done.
  destruct (Byte.eqb x y) eqn:E.
  - apply Byte.byte_dec_bl in E as ->. rewrite IH by done.
    split; [by intros ->|by intros [=]].
  - split.
    + intros Hxy. assert (Byte.to_N x = Byte.to_N y) as Hn by lia.
      apply (f_equal Byte.of_N) in Hn. rewrite !Byte.of_to_N in Hn.
      simplify_eq. by apply Byte.eqb_false in E.
    + intros [= -> _]. by apply Byte.eqb_false in E.
Qed.

(** ** Loops *)

Section Loops.
Context {T : Type} `{ET : ElementType T}.

Lemma lookup_put_slot (j j' : N) (o : option T) (c : gmap N T) :
  put_slot j o c !! j' = if decide (j = j') then o else c !! j'.
Proof.
  destruct o; simpl.
  - rewrite lookup_insert. by repeat case_decide.
  - rewrite lookup_delete. by repeat case_decide.
Qed.

(** A loop that writes slot [d + i] in round [i] with a content that
    depends on [i] only. *)
Lemma lookup_for_loop (g : N → option T) (d : N) k i (c : gmap N T) j :
  for_loop k i (λ i c, put_slot (d + i) (g i) c) c !! j
  = if decide (d + i ≤ j < d + i + N.of_nat k) then g (j - d) else c !! j.
Proof.
  revert i c. induction k as [|k IH]; intros i c; simpl.
  - case_decide; [lia|done].
  - rewrite IH, lookup_put_slot.
    repeat case_decide; try lia; try done.
    f_equal. lia.
Qed.

Lemma lookup_for_range (g : N → option T) (d : N) b e (c : gmap N T) j :
  b ≤ e →
  for_range b e (λ i c, put_slot (d + i) (g i) c) c !! j
  = if decide (d + b ≤ j < d + e) then g (j - d) else c !! j.
Proof.
  intros Hbe. unfold for_range. rewrite lookup_for_loop.
  rewrite N2Nat.id. repeat case_decide; try lia; done.
Qed.

Lemma lookup_for_range_insert (x : T) (d : N) b e (c : gmap N T) j :
  b ≤ e →
  for_range b e (λ i c, <[d + i := x]> c) c !! j
  = if decide (d + b ≤ j < d + e) then Some x else c !! j.
Proof. intros Hbe. exact (lookup_for_range (λ _, Some x) d b e c j Hbe). Qed.

Lemma apply_parallel_from_fills (f : N → N → gmap N T → gmap N T) d g grain e :
  fills f d g → 0 < grain →
  ∀ pieces b c j, b ≤ e → (N.to_nat (e - b) ≤ pieces)%nat →
    apply_parallel_from pieces b e grain f c !! j
    = if decide (d + b ≤ j < d + e) then g (j - d) else c !! j.
Proof.
  intros Hf Hgrain. induction pieces as [|pieces IH]; intros b c j Hbe Hp; simpl.
  - case_decide; [lia|done].
  - destruct (e <=? b) eqn:E.
    + apply N.leb_le in E. case_decide; [lia|done].
    + apply N.leb_gt in E.
      set (cut := N.min e (b + grain)).
      assert (b < cut ∧ cut ≤ e) as [??] by (unfold cut; lia).
      clearbody cut.
      rewrite IH by lia. rewrite Hf. 2:{ lia. }
      repeat case_decide; try lia; done.
Qed.

(** The order in which subranges run does not matter for such a loop. *)
Lemma fills_any_order (f : N → N → gmap N T → gmap N T) d g b1 e1 b2 e2 c :
  fills f d g → b1 ≤ e1 → b2 ≤ e2 →
  f b1 e1 (f b2 e2 c) = f b2 e2 (f b1 e1 c).
Proof.
  intros Hf H1 H2. apply map_eq. intros j. rewrite !Hf by done.
  by repeat case_decide.
Qed.

Lemma grain_pos : 0 < minimum_parallel_grain_size.
Proof.
  unfold minimum_parallel_grain_size. rewrite N.add_1_r. apply N.lt_0_succ.
Qed.

Lemma dispatch_fills (f : N → N → gmap N T → gmap N T) d g size_ c j :
  fills f d g →
  dispatch size_ f c !! j
  = if decide (d ≤ j < d + size_) then g (j - d) else c !! j.
Proof.
  intros Hf. unfold dispatch.
  pose proof grain_pos.
  destruct (_ <? _).
  - rewrite Hf by lia. repeat case_decide; try lia; done.
  - unfold apply_parallel.
    rewrite (apply_parallel_from_fills f d g) by (done || lia).
    repeat case_decide; try lia; done.
Qed.

Lemma apply_parallel_from_moves
    (f : N → N → gmap N T * gmap N T → gmap N T * gmap N T) s d grain e :
  moves f s d → 0 < grain →
  ∀ pieces b m j, b ≤ e → (N.to_nat (e - b) ≤ pieces)%nat →
    (¬ (s + b ≤ j < s + e) →
       (apply_parallel_from pieces b e grain f m).1 !! j = m.1 !! j)
    ∧ (apply_parallel_from pieces b e grain f m).2 !! j
      = if decide (d + b ≤ j < d + e) then m.1 !! (s + (j - d)) else m.2 !! j.
Proof.
  intros Hf Hgrain. induction pieces as [|pieces IH]; intros b m j Hbe Hp; simpl.
  - split; [done|]. case_decide; [lia|done].
  - destruct (e <=? b) eqn:E.
    + apply N.leb_le in E. split; [done|]. case_decide; [lia|done].
    + apply N.leb_gt in E.
      set (cut := N.min e (b + grain)).
      assert (b < cut ∧ cut ≤ e) as [Hc1 Hc2] by (unfold cut; lia).
      clearbody cut.
      destruct (IH cut (f b cut m) j) as [IH1 IH2]; [lia..|].
      destruct (Hf b cut m j) as [H1 H2]; [lia|].
      split.
      * intros Hj. rewrite IH1 by lia. apply H1. lia.
      * rewrite IH2, H2. repeat case_decide; try lia; try done.
        destruct (Hf b cut m (s + (j - d))) as [Hs _]; [lia|].
        apply Hs. lia.
Qed.

Lemma dispatch_moves
    (f : N → N → gmap N T * gmap N T → gmap N T * gmap N T) s d size_ m j :
  moves f s d →
  (dispatch size_ f m).2 !! j
  = if decide (d ≤ j < d + size_) then m.1 !! (s + (j - d)) else m.2 !! j.
Proof.
  intros Hf. unfold dispatch.
  pose proof grain_pos.
  destruct (_ <? _).
  - destruct (Hf 0 size_ m j) as [_ ->]; [lia|].
    repeat case_decide; try lia; done.
  - unfold apply_parallel.
    destruct (apply_parallel_from_moves f s d minimum_parallel_grain_size
                size_ Hf grain_pos (N.to_nat (size_ - 0)) 0 m j)
      as [_ ->]; [lia..|].
    repeat case_decide; try lia; done.
Qed.

End Loops.

(** ** The bulk primitives *)

Section Primitives.
Context {T : Type} `{ET : ElementType T}.

Lemma AlignedVectorCopy_apply_to_subrange_fills source_ destination_
    (src : gmap N T) :
  fills (AlignedVectorCopy_apply_to_subrange source_ destination_ src)
    (off destination_) (λ i, src !! (off source_ + i)).
Proof.
  intros b e c j Hbe. unfold AlignedVectorCopy_apply_to_subrange.
  destruct (e =? b) eqn:E.
  - apply N.eqb_eq in E as ->. case_decide; [lia|done].
  - destruct (is_trivial T).
    + unfold memcpy.
      rewrite (lookup_for_range (λ i, src !! (off source_ + b + i))) by lia.
      repeat case_decide; try lia; try done. f_equal. lia.
    + rewrite (lookup_for_range (λ i, src !! (off source_ + i))) by lia.
      done.
Qed.

Lemma lookup_move_loop (s d : N) k i (m : gmap N T * gmap N T) j :
  let r := for_loop k i
             (λ i m, (delete (s + i) m.1,
                      put_slot (d + i) (m.1 !! (s + i)) m.2)) m in
  (¬ (s + i ≤ j < s + i + N.of_nat k) → r.1 !! j = m.1 !! j)
  ∧ r.2 !! j
    = if decide (d + i ≤ j < d + i + N.of_nat k)
      then m.1 !! (s + (j - d)) else m.2 !! j.
Proof.
  revert i m. induction k as [|k IH]; intros i m; simpl.
  - split; [done|]. case_decide; [lia|done].
  - destruct (IH (N.succ i)
                (delete (s + i) m.1, put_slot (d + i) (m.1 !! (s + i)) m.2))
      as [IH1 IH2].
    simpl in *. split.
    + intros Hj. rewrite IH1 by lia. apply lookup_delete_ne. lia.
    + rewrite IH2, lookup_put_slot.
      repeat case_decide; try lia; try done.
      * apply lookup_delete_ne. lia.
      * f_equal. lia.
Qed.

Lemma AlignedVectorMove_apply_to_subrange_moves source_ destination_ :
  moves (AlignedVectorMove_apply_to_subrange source_ destination_)
    (off source_) (off destination_).
Proof.
  intros b e m j Hbe. unfold AlignedVectorMove_apply_to_subrange.
  destruct (e =? b) eqn:E.
  - apply N.eqb_eq in E as ->. split; [done|]. case_decide; [lia|done].
  - destruct (is_trivial T); simpl.
    + split; [done|]. unfold memcpy.
      rewrite (lookup_for_range (λ i, m.1 !! (off source_ + b + i))) by lia.
      repeat case_decide; try lia; try done. f_equal. lia.
    + unfold for_range.
      destruct (lookup_move_loop (off source_) (off destination_)
                  (N.to_nat (e - b)) b m j) as [H1 H2].
      simpl in *. rewrite N2Nat.id in *. split.
      * intros Hj. apply H1. lia.
      * rewrite H2. repeat case_decide; try lia; done.
Qed.

Lemma AlignedVectorSet_apply_to_subrange_fills initialize_memory element
    destination_ trivial_element :
  fills (AlignedVectorSet_apply_to_subrange initialize_memory element
           destination_ trivial_element)
    (off destination_) (λ _, Some (set_content element trivial_element)).
Proof.
  intros b e c j Hbe.
  unfold AlignedVectorSet_apply_to_subrange, set_content.
  destruct (is_trivial T && trivial_element).
  - unfold memset_zero.
    rewrite (lookup_for_range_insert zero_value
               (off destination_ + b) 0 (e - b)) by lia.
    repeat case_decide; try lia; done.
  - unfold copy_construct_or_assign.
    destruct initialize_memory;
      by rewrite (lookup_for_range_insert element (off destination_)).
Qed.

Lemma AlignedVectorDefaultInitialize_apply_to_subrange_fills
    initialize_memory destination_ :
  fills (AlignedVectorDefaultInitialize_apply_to_subrange initialize_memory
           destination_)
    (off destination_) (λ _, Some default_content).
Proof.
  intros b e c j Hbe.
  unfold AlignedVectorDefaultInitialize_apply_to_subrange, default_content.
  destruct (is_trivial T).
  - unfold memset_zero.
    rewrite (lookup_for_range_insert zero_value
               (off destination_ + b) 0 (e - b)) by lia.
    repeat case_decide; try lia; done.
  - unfold default_construct_or_assign.
    destruct initialize_memory;
      by rewrite (lookup_for_range_insert (default_value T)
                    (off destination_)).
Qed.

(** The detection finds exactly the values whose bytes are all zero,
    and such a value is the one a zeroed slot holds. *)
Lemma detect_trivial_element_zero element :
  detect_trivial_element element = true → element = zero_value.
Proof.
  unfold detect_trivial_element.
  destruct (is_trivial T) eqn:Htriv; [|done].
  destruct (is_long_double T); [done|]. simpl.
  intros Hcmp%Z.eqb_eq. apply memcmp_eq in Hcmp.
  - unfold zero_value. rewrite Hcmp. by rewrite from_to_bytes.
  - unfold zero. by rewrite repeat_length.
  - apply to_bytes_length.
Qed.

Lemma set_content_detect element :
  set_content element (detect_trivial_element element) = element.
Proof.
  unfold set_content. destruct (detect_trivial_element element) eqn:E.
  - apply detect_trivial_element_zero in E. by destruct (is_trivial T).
  - by rewrite andb_false_r.
Qed.

End Primitives.

(** ** Well-formed containers and single steps *)

Section Steps.
Context {T : Type} `{ET : ElementType T}.
Implicit Types (b : block T) (e : option (block T)) (v : AlignedVector T).
Implicit Types (a : allocator) (c : gmap N T).

Lemma wf_holding v :
  wf v ↔ ∃ e u, v = holding e u ∧ handle_ok e ∧ u ≤ extent_of e
                ∧ extent_of e < 2 ^ 64.
Proof.
  split.
  - intros [|b u Hb Hu He].
    + exists None, 0. repeat split; simpl; try done; lia.
    + exists (Some b), u. done.
  - intros (e & u & -> & He & Hu & Hext). destruct e as [b|]; simpl in *.
    + by apply wf_block.
    + assert (u = 0) as -> by lia. apply wf_null.
Qed.

Lemma off_get e : off (get e) = 0.
Proof. by destruct e. Qed.

Lemma get_blk e : get e = Ptr (blk (get e)) 0.
Proof. by destruct e. Qed.

Lemma size_holding e u : u < 2 ^ 64 → size (holding e u) = u.
Proof.
  intros. unfold size, holding, ptr_diff; simpl. rewrite off_get.
  by apply to_size_t_offset.
Qed.

Lemma capacity_holding e u :
  extent_of e < 2 ^ 64 → capacity (holding e u) = extent_of e.
Proof.
  intros. unfold capacity, holding, ptr_diff; simpl. rewrite off_get.
  by apply to_size_t_offset.
Qed.

Lemma wf_size_le_capacity v : wf v → size v ≤ capacity v ∧ capacity v < 2 ^ 64.
Proof.
  intros (e & u & -> & _ & Hu & He)%wf_holding.
  rewrite size_holding, capacity_holding by lia. done.
Qed.

Lemma handle_ok_not_null e k :
  handle_ok e → e ≠ None → Ptr (blk (get e)) k ≠ nullptr.
Proof. destruct e as [b|]; simpl; [|done]. intros Hb _ [= Hz _]. done. Qed.

Lemma valid_holding e k : valid e (Ptr (blk (get e)) k) = bool_decide (k ≤ extent_of e).
Proof.
  destruct e as [b|]; simpl.
  - rewrite N.eqb_refl. simpl.
    destruct (N.leb_spec k (extent b));
      [by rewrite bool_decide_eq_true_2|by rewrite bool_decide_eq_false_2 by lia].
  - unfold nullptr. case_bool_decide as H1; case_bool_decide as H2; try done.
    + injection H1 as ->. lia.
    + assert (k = 0) as -> by lia. done.
Qed.

Lemma ptr_add_holding e u k :
  u + k ≤ extent_of e →
  ptr_add e (Ptr (blk (get e)) u) k = inr (Ptr (blk (get e)) (u + k)).
Proof.
  intros. unfold ptr_add. simpl. rewrite !valid_holding.
  by rewrite !bool_decide_eq_true_2 by lia.
Qed.

Lemma ptr_add_get e k :
  k ≤ extent_of e → ptr_add e (get e) k = inr (Ptr (blk (get e)) k).
Proof.
  intros. rewrite (get_blk e) at 1. rewrite ptr_add_holding by lia. done.
Qed.

Lemma ptr_add_holding_fail e u k :
  extent_of e < u + k → ptr_add e (Ptr (blk (get e)) u) k = inl UndefinedBehaviour.
Proof.
  intros. unfold ptr_add. simpl. rewrite !valid_holding.
  rewrite (bool_decide_eq_false_2 (u + k ≤ _)) by lia.
  by rewrite andb_false_r.
Qed.

Lemma accessible_holding e u k :
  e ≠ None →
  accessible e (Ptr (blk (get e)) u) k = bool_decide (u + k ≤ extent_of e).
Proof.
  destruct e as [b|]; [|done]. intros _. simpl. rewrite N.eqb_refl. simpl.
  destruct (N.leb_spec (u + k) (extent b));
    [by rewrite bool_decide_eq_true_2|by rewrite bool_decide_eq_false_2 by lia].
Qed.

Lemma with_cells_cells_of e : with_cells e (cells_of e) = e.
Proof. by destruct e as [[]|]. Qed.

Lemma cells_of_with_cells e c : e ≠ None → cells_of (with_cells e c) = c.
Proof. by destruct e. Qed.

Lemma get_with_cells e c : get (with_cells e c) = get e.
Proof. by destruct e. Qed.

Lemma extent_of_with_cells e c : extent_of (with_cells e c) = extent_of e.
Proof. by destruct e. Qed.

Lemma handle_ok_with_cells e c : handle_ok e → handle_ok (with_cells e c).
Proof. by destruct e. Qed.

Lemma holding_with_cells e c u :
  mkAlignedVector (with_cells e c) (Ptr (blk (get e)) u)
    (Ptr (blk (get e)) (extent_of e))
  = holding (with_cells e c) u.
Proof. unfold holding. by rewrite get_with_cells, extent_of_with_cells. Qed.

(** *** The destructor loop *)

Lemma destroy_back_holding rounds e u t :
  t ≤ u → u ≤ extent_of e → (N.to_nat (u - t) ≤ rounds)%nat →
  ∃ c', destroy_back rounds (Ptr (blk (get e)) t) (holding e u)
        = inr (holding (with_cells e c') t)
      ∧ ∀ j, c' !! j = if decide (t ≤ j < u) then None else cells_of e !! j.
Proof.
  revert e u. induction rounds as [|rounds IH]; intros e u Htu Hu Hr; simpl.
  - assert (u = t) as -> by lia. rewrite bool_decide_eq_true_2 by done.
    exists (cells_of e). rewrite with_cells_cells_of. split; [done|].
    intros j. case_decide; [lia|done].
  - case_bool_decide as Heq.
    + injection Heq as ->. exists (cells_of e).
      rewrite with_cells_cells_of. split; [done|].
      intros j. case_decide; [lia|done].
    + assert (t < u) by (destruct (decide (t = u)); [by subst|lia]).
      destruct e as [b|]; simpl in *; [|lia].
      rewrite (proj2 (N.ltb_lt 0 u)) by lia. rewrite N.eqb_refl. simpl.
      rewrite (proj2 (N.leb_le (u - 1 + 1) (extent b))) by lia. simpl.
      destruct (IH (Some (Block (bid b) (extent b) (delete (u - 1) (cells b))))
                  (u - 1)) as (c' & Hrun & Hc'); simpl; [lia..|].
      unfold holding in Hrun. simpl in Hrun. rewrite Hrun.
      exists c'. split; [done|]. intros j. rewrite Hc'. simpl.
      rewrite lookup_delete. repeat case_decide; try lia; done.
Qed.

End Steps.

(** ** The constructors of the primitives *)

Section PrimitiveCalls.
Context {T : Type} `{ET : ElementType T}.
Implicit Types (b : block T) (e : option (block T)) (v : AlignedVector T).
Implicit Types (a : allocator) (c : gmap N T).

Lemma ptr_diff_holding e u :
  u < 2 ^ 64 → to_size_t (ptr_diff (Ptr (blk (get e)) u) (get e)) = u.
Proof.
  intros. unfold ptr_diff. simpl. rewrite off_get. by apply to_size_t_offset.
Qed.

Lemma ptr_le_holding e u : ptr_le (get e) (Ptr (blk (get e)) u) = true.
Proof.
  unfold ptr_le. simpl. rewrite N.eqb_refl, off_get. simpl.
  apply N.leb_le. lia.
Qed.

Lemma AlignedVectorMove_holding e u d :
  u ≤ extent_of e → u < 2 ^ 64 → bid d ≠ 0 → u ≤ extent d →
  ∃ e' c',
    AlignedVectorMove (get e) (Ptr (blk (get e)) u) (get (Some d)) e (Some d)
    = inr (e', Some (Block (bid d) (extent d) c'))
    ∧ ∀ j, c' !! j = if decide (j < u) then cells_of e !! j else cells d !! j.
Proof.
  intros Hu Hu64 Hd Hud. unfold AlignedVectorMove.
  rewrite ptr_le_holding, ptr_diff_holding by done. simpl.
  rewrite (bool_decide_eq_false_2 (Ptr (bid d) 0 = nullptr)) by (by intros [=]).
  rewrite orb_true_r. simpl.
  assert ((u =? 0)
          || (accessible e (get e) u
              && ((bid d =? bid d) && (0 + u <=? extent d))) = true) as ->.
  { destruct e as [b|]; simpl in *.
    - rewrite !N.eqb_refl. simpl.
      rewrite !(proj2 (N.leb_le _ _)) by lia. by rewrite orb_true_r.
    - assert (u = 0) as -> by lia. done. }
  eexists _, _. split; [done|]. intros j. simpl.
  pose proof (AlignedVectorMove_apply_to_subrange_moves (get e)
                (Ptr (bid d) 0)) as Hm.
  rewrite off_get in Hm. simpl in Hm.
  rewrite (dispatch_moves _ 0 0 _ _ _ Hm). simpl.
  repeat case_decide; try lia; try done. f_equal. lia.
Qed.

Lemma AlignedVectorCopy_holding esrc u e :
  u ≤ extent_of esrc → u < 2 ^ 64 →
  u = 0 ∨ (e ≠ None ∧ handle_ok e ∧ u ≤ extent_of e) →
  ∃ c',
    AlignedVectorCopy (get esrc) (Ptr (blk (get esrc)) u) (get e) esrc e
    = inr (with_cells e c')
    ∧ ∀ j, c' !! j = if decide (j < u) then cells_of esrc !! j
                     else cells_of e !! j.
Proof.
  intros Hu Hu64 Hcase. unfold AlignedVectorCopy.
  rewrite ptr_le_holding, ptr_diff_holding by done. simpl.
  assert (bool_decide (Ptr (blk (get esrc)) u = get esrc)
          || negb (bool_decide (get e = nullptr)) = true) as ->.
  { destruct Hcase as [->|(He & Hok & _)].
    - rewrite <-get_blk. by rewrite bool_decide_eq_true_2.
    - rewrite (bool_decide_eq_false_2 (get e = nullptr)).
      + by rewrite orb_true_r.
      + rewrite get_blk. by apply handle_ok_not_null. }
  simpl.
  assert ((u =? 0) || (accessible esrc (get esrc) u && accessible e (get e) u)
          = true) as ->.
  { destruct Hcase as [->|(He & Hok & Hue)]; [done|].
    destruct (N.eqb_spec u 0); [done|]. simpl.
    assert (esrc ≠ None) by (destruct esrc; [done|simpl in *; lia]).
    rewrite (get_blk esrc), (get_blk e), !accessible_holding by done.
    by rewrite !bool_decide_eq_true_2 by lia. }
  eexists. split; [done|]. intros j.
  pose proof (AlignedVectorCopy_apply_to_subrange_fills (get esrc) (get e)
                (cells_of esrc)) as Hf.
  rewrite !off_get in Hf.
  rewrite (dispatch_fills _ 0 _ _ _ _ Hf).
  repeat case_decide; try lia; try done. f_equal. lia.
Qed.

Lemma AlignedVectorSet_holding initialize_memory n x e d :
  n = 0 ∨ (e ≠ None ∧ handle_ok e ∧ d + n ≤ extent_of e) →
  ∃ c',
    AlignedVectorSet initialize_memory n x (Ptr (blk (get e)) d) e
    = inr (with_cells e c')
    ∧ ∀ j, c' !! j = if decide (d ≤ j < d + n) then Some x
                     else cells_of e !! j.
Proof.
  intros Hcase. unfold AlignedVectorSet.
  destruct (N.eqb_spec n 0) as [->|Hn].
  - exists (cells_of e). rewrite with_cells_cells_of. split; [done|].
    intros j. case_decide; [lia|done].
  - destruct Hcase as [?|(He & Hok & Hdn)]; [done|].
    rewrite bool_decide_eq_false_2 by (by apply handle_ok_not_null).
    rewrite accessible_holding, bool_decide_eq_true_2 by done.
    eexists. split; [done|]. intros j.
    rewrite (dispatch_fills _ d (λ _, Some (set_content x (detect_trivial_element x)))).
    + by rewrite set_content_detect.
    + apply (AlignedVectorSet_apply_to_subrange_fills _ _ (Ptr (blk (get e)) d)).
Qed.

Lemma AlignedVectorDefaultInitialize_holding initialize_memory n e d :
  n = 0 ∨ (e ≠ None ∧ handle_ok e ∧ d + n ≤ extent_of e) →
  ∃ c',
    AlignedVectorDefaultInitialize initialize_memory n (Ptr (blk (get e)) d) e
    = inr (with_cells e c')
    ∧ ∀ j, c' !! j = if decide (d ≤ j < d + n) then Some default_content
                     else cells_of e !! j.
Proof.
  intros Hcase. unfold AlignedVectorDefaultInitialize.
  destruct (N.eqb_spec n 0) as [->|Hn].
  - exists (cells_of e). rewrite with_cells_cells_of. split; [done|].
    intros j. case_decide; [lia|done].
  - destruct Hcase as [?|(He & Hok & Hdn)]; [done|].
    rewrite bool_decide_eq_false_2 by (by apply handle_ok_not_null).
    rewrite accessible_holding, bool_decide_eq_true_2 by done.
    eexists. split; [done|]. intros j.
    rewrite (dispatch_fills _ d (λ _, Some default_content)); [done|].
    apply (AlignedVectorDefaultInitialize_apply_to_subrange_fills _
             (Ptr (blk (get e)) d)).
Qed.

End PrimitiveCalls.

(** ** clear and reserve *)

Section Reserve.
Context {T : Type} `{ET : ElementType T}.
Implicit Types (b : block T) (e : option (block T)) (v : AlignedVector T).
Implicit Types (a : allocator) (c : gmap N T).

Local Arguments to_size_t : simpl never.
Local Arguments ptr_diff : simpl never.
Local Arguments wrap64 : simpl never.
Local Arguments N.mul : simpl never.
Local Arguments N.max : simpl never.
Local Arguments N.div : simpl never.
Local Arguments N.ltb : simpl never.
Local Arguments N.leb : simpl never.
Local Arguments N.eqb : simpl never.
Local Arguments ptr_add : simpl never.
Local Arguments get : simpl never.
Local Arguments extent_of : simpl never.
Local Arguments AlignedVectorMove : simpl never.

Lemma clear_holding a e u :
  u ≤ extent_of e →
  clear (mkMachine a (holding e u)) = Ok tt (mkMachine a AlignedVector_default).
Proof.
  intros Hu. unfold clear, bind, get_this. simpl.
  destruct e as [b|]; [|done].
  destruct (is_trivial T); simpl; [done|].
  unfold destroy_down_to, bind, get_this. simpl.
  destruct (destroy_back_holding (N.to_nat u) (Some b) u 0)
    as (c' & Hrun & _); [lia..|].
  rewrite (get_blk (Some b)), Hrun. done.
Qed.

Lemma reserve_noop a e u n :
  extent_of e < 2 ^ 64 → 0 < n → n ≤ extent_of e →
  reserve n (mkMachine a (holding e u)) = Ok tt (mkMachine a (holding e u)).
Proof.
  intros He Hn Hne. unfold reserve, bind, get_this. simpl.
  rewrite ptr_diff_holding by done.
  rewrite (proj2 (N.ltb_ge _ _)) by lia.
  rewrite (proj2 (N.eqb_neq _ _)) by lia. done.
Qed.

Lemma reserve_zero a e u :
  u ≤ extent_of e → extent_of e < 2 ^ 64 →
  reserve 0 (mkMachine a (holding e u))
  = Ok tt (mkMachine a AlignedVector_default).
Proof.
  intros Hu He. unfold reserve, bind, get_this. simpl.
  rewrite ptr_diff_holding by done.
  rewrite (proj2 (N.ltb_ge _ _)) by lia.
  by apply clear_holding.
Qed.

Lemma reserve_grow a e u n :
  u ≤ extent_of e → extent_of e < 2 ^ 64 → extent_of e < n →
  grantable a (N.max n (2 * extent_of e)) →
  ∃ c',
    reserve n (mkMachine a (holding e u))
    = Ok tt (mkMachine (granted a (N.max n (2 * extent_of e)))
               (holding (Some (Block (N.succ (allocated a))
                                 (N.max n (2 * extent_of e)) c')) u))
    ∧ ∀ j, c' !! j = if decide (j < u) then cells_of e !! j else None.
Proof.
  intros Hu He Hn [Hfit Hlim].
  set (k := N.max n (2 * extent_of e)) in *.
  assert (0 < sizeof T) as Hs by apply sizeof_pos.
  assert (k < 2 ^ 64) as Hk by nia.
  assert (wrap64 (2 * extent_of e) = 2 * extent_of e) as Hw2
    by (apply wrap64_small; lia).
  unfold reserve, bind, get_this. simpl.
  rewrite !ptr_diff_holding by lia.
  rewrite (proj2 (N.ltb_lt _ _)) by lia.
  rewrite Hw2. fold k. rewrite (wrap64_small (k * sizeof T)) by done.
  unfold posix_memalign. simpl.
  rewrite (proj2 (N.leb_le _ _)) by done.
  rewrite N.div_mul by lia.
  rewrite (proj2 (N.ltb_lt 0 n)) by lia.
  rewrite ptr_add_get by lia. simpl.
  set (d := Block (N.succ (allocated a)) k ∅).
  destruct (AlignedVectorMove_holding e u d) as (e' & c' & Hrun & Hc');
    [lia|lia|simpl; lia|simpl; lia|].
  rewrite Hrun. simpl.
  set (d' := Block (N.succ (allocated a)) k c').
  rewrite (ptr_add_get (Some d')) by (simpl; unfold extent_of; simpl; lia).
  simpl.
  rewrite (ptr_add_get (Some d')) by (simpl; unfold extent_of; simpl; lia).
  simpl. exists c'. split; [done|].
  intros j. rewrite Hc'. simpl. by rewrite lookup_empty.
Qed.


Lemma AlignedVectorMove_shape p q r src dst e1 e2 :
  AlignedVectorMove p q r src dst = inr (e1, e2) →
  ∃ c1 c2, e1 = with_cells src c1 ∧ e2 = with_cells dst c2.
Proof.
  unfold AlignedVectorMove. repeat case_match; try done.
  intros [= <- <-]. eauto.
Qed.

(** Every way [reserve] can end when it has to grow. *)
Lemma reserve_grow_outcome a e u n :
  u ≤ extent_of e → extent_of e < 2 ^ 64 → extent_of e < n →
  let k := N.max n (wrap64 (2 * extent_of e)) in
  match reserve n (mkMachine a (holding e u)) with
  | Ok _ s' =>
      k < 2 ^ 64 ∧
      ∃ c', this s' = holding (Some (Block (N.succ (allocated a)) k c')) u
  | Throw _ s' => this s' = holding e u
  | Abort _ => True
  end.
Proof.
  intros Hu He Hn k.
  unfold reserve, bind, get_this. simpl.
  rewrite !ptr_diff_holding by lia.
  rewrite (proj2 (N.ltb_lt _ _)) by lia. fold k.
  unfold posix_memalign. simpl.
  destruct (_ <=? limit a); [|done].
  rewrite (proj2 (N.ltb_lt 0 n)) by lia.
  rewrite ptr_add_get by lia. simpl.
  set (x := wrap64 (k * sizeof T) / sizeof T).
  assert (x < 2 ^ 64) as Hx.
  { pose proof (wrap64_lt (k * sizeof T)). pose proof sizeof_pos.
    unfold x. eapply N.le_lt_trans; [|done]. apply N.Div0.div_le_upper_bound.
    nia. }
  destruct (AlignedVectorMove _ _ _ _ _) as [f|[e1 e2]] eqn:Hmove; [done|].
  apply AlignedVectorMove_shape in Hmove as (c1 & c2 & -> & ->). simpl.
  set (d' := Block (N.succ (allocated a)) x c2).
  destruct (N.le_gt_cases k x) as [Hkx|Hkx].
  - assert (x ≤ k) as Hxk.
    { unfold x. apply N.Div0.div_le_upper_bound.
      pose proof (wrap64_le (k * sizeof T)). lia. }
    assert (x = k) as Hxeq by lia.
    rewrite (ptr_add_get (Some d')) by (unfold extent_of; simpl; lia). simpl.
    rewrite (ptr_add_get (Some d')) by (unfold extent_of; simpl; lia). simpl.
    split; [lia|]. exists c2. unfold holding, d'. simpl.
    unfold extent_of, get. simpl. by rewrite Hxeq.
  - destruct (ptr_add (Some d') (get (Some d')) u); simpl; [done|].
    rewrite (get_blk (Some d')).
    rewrite (ptr_add_holding_fail (Some d') 0 k) by (unfold extent_of; simpl; lia).
    done.
Qed.

End Reserve.

(** ** reserve: the capacity policy *)

Section ReserveSpec.
Context {T : Type} `{ET : ElementType T}.
Implicit Types (b : block T) (e : option (block T)) (v : AlignedVector T).
Implicit Types (a : allocator) (c : gmap N T).

Lemma index_holding e u i :
  u ≤ extent_of e → extent_of e < 2 ^ 64 →
  index (holding e u) i
  = if i <? u then inr (cells_of e !! i) else inl ExcIndexRange.
Proof.
  intros Hu He. unfold index. rewrite size_holding by lia.
  destruct (N.ltb_spec i u); [|done]. simpl.
  assert (e ≠ None) by (destruct e; [done|simpl in *; lia]).
  rewrite (get_blk e), accessible_holding by done.
  by rewrite bool_decide_eq_true_2 by lia.
Qed.

Lemma size_default : size (T:=T) AlignedVector_default = 0.
Proof. by apply (size_holding None 0). Qed.



End ReserveSpec.

(** ** The resize family *)

Section Resize.
Context {T : Type} `{ET : ElementType T}.
Implicit Types (b : block T) (e : option (block T)) (v : AlignedVector T).
Implicit Types (a : allocator) (c : gmap N T).

Local Arguments to_size_t : simpl never.
Local Arguments ptr_diff : simpl never.
Local Arguments wrap64 : simpl never.
Local Arguments N.mul : simpl never.
Local Arguments N.max : simpl never.
Local Arguments N.sub : simpl never.
Local Arguments N.ltb : simpl never.
Local Arguments N.leb : simpl never.
Local Arguments N.eqb : simpl never.
Local Arguments ptr_add : simpl never.
Local Arguments get : simpl never.
Local Arguments extent_of : simpl never.
Local Arguments reserve : simpl never.
Local Arguments AlignedVectorSet : simpl never.
Local Arguments AlignedVectorDefaultInitialize : simpl never.

Lemma bind_ok {S A B} (m : M S A) (k : A → M S B) s x s' :
  m s = Ok x s' → bind m k s = k x s'.
Proof. unfold bind. by intros ->. Qed.

Lemma holding_default : AlignedVector_default = holding (T:=T) None 0.
Proof. done. Qed.

(** [reserve] from a well-formed state when the allocator can serve it. *)
Lemma reserve_holding a e u n :
  handle_ok e → u ≤ extent_of e → extent_of e < 2 ^ 64 →
  (extent_of e < n → grantable a (N.max n (2 * extent_of e))) →
  ∃ a' e',
    reserve n (mkMachine a (holding e u))
    = Ok tt (mkMachine a' (holding e' (if n =? 0 then 0 else u)))
    ∧ limit a' = limit a
    ∧ handle_ok e'
    ∧ extent_of e' = reserve_capacity (extent_of e) n
    ∧ extent_of e' < 2 ^ 64
    ∧ (n ≠ 0 → ∀ j, j < u → cells_of e' !! j = cells_of e !! j).
Proof.
  intros Hok Hu He Hgrant. unfold reserve_capacity.
  destruct (N.ltb_spec (extent_of e) n) as [Hlt|Hge].
  - destruct (reserve_grow a e u n) as (c' & Hrun & Hc'); [auto..|].
    destruct (Hgrant Hlt) as [Hfit _]. pose proof sizeof_pos.
    rewrite (proj2 (N.eqb_neq n 0)) by lia.
    eexists _, _. split; [exact Hrun|]. simpl.
    assert (N.max n (2 * extent_of e) < 2 ^ 64) by nia.
    repeat split; try done.
    + unfold handle_ok. simpl. lia.
    + intros _ j Hj. rewrite Hc'. by rewrite decide_True.
  - destruct (N.eqb_spec n 0) as [->|Hn0].
    + exists a, None. rewrite reserve_zero by done. done.
    + exists a, e. rewrite reserve_noop by (done || lia). done.
Qed.

Lemma set_used_to_holding a e u n :
  n ≤ extent_of e →
  set_used_to n (mkMachine a (holding e u)) = Ok tt (mkMachine a (holding e n)).
Proof.
  intros Hn. unfold set_used_to, set_used_elements_end, bind, get_this. simpl.
  by rewrite ptr_add_get.
Qed.

Lemma destroy_released_holding a e u n :
  handle_ok e → u ≤ extent_of e →
  ∃ e1 u1,
    destroy_released n u (mkMachine a (holding e u))
    = Ok tt (mkMachine a (holding e1 u1))
    ∧ handle_ok e1 ∧ extent_of e1 = extent_of e
    ∧ u1 ≤ u ∧ N.min u n ≤ u1
    ∧ ∀ j, j < N.min u n → cells_of e1 !! j = cells_of e !! j.
Proof.
  intros Hok Hu. unfold destroy_released.
  destruct (negb (is_trivial T) && (n <? u)) eqn:Hcond; simpl.
  - apply andb_true_iff in Hcond as [_ Hnu%N.ltb_lt].
    unfold bind, get_this. simpl. rewrite ptr_add_get by lia. simpl.
    unfold destroy_down_to, bind, get_this. simpl.
    destruct (destroy_back_holding (N.to_nat u) e u n)
      as (c' & Hrun & Hc'); [lia..|].
    rewrite Hrun. simpl.
    assert (e ≠ None) by (destruct e; [done|unfold extent_of in *; simpl in *; lia]).
    exists (with_cells e c'), n. split; [done|].
    rewrite extent_of_with_cells, cells_of_with_cells by done.
    repeat split; [by apply handle_ok_with_cells|lia..|].
    intros j Hj. rewrite Hc'. by rewrite decide_False by lia.
  - exists e, u. repeat split; try done; lia.
Qed.

(** The part shared by the three resize functions: release the tail,
    reserve, move [used_elements_end]. *)
Lemma resize_prefix a e u n (k : M (machine T) unit) :
  handle_ok e → u ≤ extent_of e → extent_of e < 2 ^ 64 →
  (extent_of e < n → grantable a (N.max n (2 * extent_of e))) →
  ∃ a' e',
    (destroy_released n u ;;; reserve n ;;; set_used_to n ;;; k)
      (mkMachine a (holding e u))
    = k (mkMachine a' (holding e' n))
    ∧ limit a' = limit a
    ∧ handle_ok e'
    ∧ extent_of e' = reserve_capacity (extent_of e) n
    ∧ extent_of e' < 2 ^ 64
    ∧ n ≤ extent_of e'
    ∧ ∀ j, j < N.min u n → cells_of e' !! j = cells_of e !! j.
Proof.
  intros Hok Hu He Hgrant.
  destruct (destroy_released_holding a e u n Hok Hu)
    as (e1 & u1 & Hrun1 & Hok1 & Hext1 & Hu1 & Hmin & Hc1).
  destruct (reserve_holding a e1 u1 n)
    as (a' & e2 & Hrun2 & Hlim & Hok2 & Hext2 & He2 & Hc2);
    [done|lia|lia|by rewrite Hext1|].
  assert (n ≤ extent_of e2) as Hn2.
  { rewrite Hext2, Hext1. unfold reserve_capacity.
    destruct (N.ltb_spec (extent_of e) n); [lia|].
    destruct (N.eqb_spec n 0); lia. }
  exists a', e2.
  rewrite (bind_ok _ _ _ _ _ Hrun1), (bind_ok _ _ _ _ _ Hrun2).
  rewrite (bind_ok _ _ _ _ _ (set_used_to_holding _ _ _ _ Hn2)).
  rewrite Hext2, Hext1 in *.
  repeat split; try done.
  intros j Hj. destruct (N.eq_dec n 0) as [->|Hn0]; [lia|].
  rewrite Hc2 by lia. by apply Hc1.
Qed.

Lemma resize_holding a e u n :
  handle_ok e → u ≤ extent_of e → extent_of e < 2 ^ 64 → n < 2 ^ 64 →
  (extent_of e < n → grantable a (N.max n (2 * extent_of e))) →
  resize_result resize (λ o, o = Some default_content) a e u n.
Proof.
  intros Hok Hu He Hn Hgrant. unfold resize_result, resize.
  unfold bind at 1, get_this at 1. simpl. rewrite size_holding by lia.
  destruct (resize_prefix a e u n
              (when (u <? n)
                 (v <- get_this ;;
                  dest <- lift (ptr_add (elements v) (get (elements v)) u) ;;
                  e0 <- lift (AlignedVectorDefaultInitialize true
                                (wrap64 (n - u)) dest (elements v)) ;;
                  set_elements e0)))
    as (a' & e' & -> & Hlim & Hok' & Hext & He' & Hn' & Hc'); [done..|].
  destruct (N.ltb_spec u n) as [Hlt|Hge]; simpl.
  - unfold bind, get_this. simpl. rewrite ptr_add_get by lia. simpl.
    rewrite wrap64_small by lia.
    assert (e' ≠ None) by (destruct e'; [done|unfold extent_of in *; simpl in *; lia]).
    destruct (AlignedVectorDefaultInitialize_holding true (n - u) e' u)
      as (c' & -> & Hfill); [right; repeat split; [done..|lia]|].
    simpl. unfold set_elements, bind, get_this. simpl.
    rewrite holding_with_cells.
    eexists _, _. split; [done|].
    rewrite extent_of_with_cells, cells_of_with_cells by done.
    repeat split; [done|by apply handle_ok_with_cells|done..| |].
    + intros j Hj. rewrite Hfill, decide_False by lia. by apply Hc'.
    + intros j Hj. rewrite Hfill, decide_True by lia. done.
  - eexists _, _. split; [done|]. repeat split; try done.
    intros j Hj. lia.
Qed.

Lemma resize_init_holding a e u n init :
  handle_ok e → u ≤ extent_of e → extent_of e < 2 ^ 64 → n < 2 ^ 64 →
  (extent_of e < n → grantable a (N.max n (2 * extent_of e))) →
  resize_result (λ n, resize_init n init) (λ o, o = Some init) a e u n.
Proof.
  intros Hok Hu He Hn Hgrant. unfold resize_result, resize_init.
  unfold bind at 1, get_this at 1. simpl. rewrite size_holding by lia.
  destruct (resize_prefix a e u n
              (when (u <? n)
                 (v <- get_this ;;
                  dest <- lift (ptr_add (elements v) (get (elements v)) u) ;;
                  e0 <- lift (AlignedVectorSet true (wrap64 (n - u)) init
                                dest (elements v)) ;;
                  set_elements e0)))
    as (a' & e' & -> & Hlim & Hok' & Hext & He' & Hn' & Hc'); [done..|].
  destruct (N.ltb_spec u n) as [Hlt|Hge]; simpl.
  - unfold bind, get_this. simpl. rewrite ptr_add_get by lia. simpl.
    rewrite wrap64_small by lia.
    assert (e' ≠ None) by (destruct e'; [done|unfold extent_of in *; simpl in *; lia]).
    destruct (AlignedVectorSet_holding true (n - u) init e' u)
      as (c' & -> & Hfill); [right; repeat split; [done..|lia]|].
    simpl. unfold set_elements, bind, get_this. simpl.
    rewrite holding_with_cells.
    eexists _, _. split; [done|].
    rewrite extent_of_with_cells, cells_of_with_cells by done.
    repeat split; [done|by apply handle_ok_with_cells|done..| |].
    + intros j Hj. rewrite Hfill, decide_False by lia. by apply Hc'.
    + intros j Hj. rewrite Hfill, decide_True by lia. done.
  - eexists _, _. split; [done|]. repeat split; try done.
    intros j Hj. lia.
Qed.

Lemma resize_fast_holding a e u n :
  handle_ok e → u ≤ extent_of e → extent_of e < 2 ^ 64 → n < 2 ^ 64 →
  (extent_of e < n → grantable a (N.max n (2 * extent_of e))) →
  resize_result resize_fast
    (λ o, is_trivial T = false → o = Some (default_value T)) a e u n.
Proof.
  intros Hok Hu He Hn Hgrant. unfold resize_result, resize_fast.
  unfold bind at 1, get_this at 1. simpl. rewrite size_holding by lia.
  destruct (resize_prefix a e u n
              (when (negb (is_trivial T) && (u <? n))
                 (v <- get_this ;;
                  dest <- lift (ptr_add (elements v) (get (elements v)) u) ;;
                  e0 <- lift (AlignedVectorDefaultInitialize true
                                (wrap64 (n - u)) dest (elements v)) ;;
                  set_elements e0)))
    as (a' & e' & -> & Hlim & Hok' & Hext & He' & Hn' & Hc'); [done..|].
  destruct (is_trivial T) eqn:Htriv; simpl.
  { eexists _, _. split; [done|]. repeat split; try done. }
  destruct (N.ltb_spec u n) as [Hlt|Hge]; simpl.
  - unfold bind, get_this. simpl. rewrite ptr_add_get by lia. simpl.
    rewrite wrap64_small by lia.
    assert (e' ≠ None) by (destruct e'; [done|unfold extent_of in *; simpl in *; lia]).
    destruct (AlignedVectorDefaultInitialize_holding true (n - u) e' u)
      as (c' & -> & Hfill); [right; repeat split; [done..|lia]|].
    simpl. unfold set_elements, bind, get_this. simpl.
    rewrite holding_with_cells.
    eexists _, _. split; [done|].
    rewrite extent_of_with_cells, cells_of_with_cells by done.
    repeat split; [done|by apply handle_ok_with_cells|done..| |].
    + intros j Hj. rewrite Hfill, decide_False by lia. by apply Hc'.
    + intros j Hj _. rewrite Hfill, decide_True by lia.
      unfold default_content. by rewrite Htriv.
  - eexists _, _. split; [done|]. repeat split; try done.
    intros j Hj. lia.
Qed.


Lemma grantable_limit a a' k : limit a' = limit a → grantable a k → grantable a' k.
Proof. unfold grantable. by intros ->. Qed.

Lemma second_resize variant fresh a1 e e1 u n m :
  u ≤ extent_of e → extent_of e < 2 ^ 64 →
  n ≤ extent_of e1 → extent_of e1 < 2 ^ 64 → n < m → m < 2 ^ 64 →
  (∀ j, j < N.min u n → cells_of e1 !! j = cells_of e !! j) →
  resize_result variant fresh a1 e1 n m →
  ∃ a2 v2,
    variant m (mkMachine a1 (holding e1 n)) = Ok tt (mkMachine a2 v2)
    ∧ resize_pair_post (holding e u) (holding e1 n) v2 n m fresh.
Proof.
  intros Hu He Hn1 He1 Hnm Hm Hc1
    (a2 & e2 & Hrun & _ & Hok2 & Hext2 & He2 & Hm2 & Hc2 & Hfresh).
  exists a2, (holding e2 m). split; [done|]. unfold resize_pair_post.
  rewrite !size_holding, capacity_holding by lia.
  repeat split; [done|..].
  - intros i Hi. rewrite !index_holding by lia.
    rewrite (proj2 (N.ltb_lt i m)), (proj2 (N.ltb_lt i n)) by lia.
    rewrite Hc2 by lia. done.
  - intros i Hi Hiu. rewrite !index_holding by lia.
    rewrite (proj2 (N.ltb_lt i m)), (proj2 (N.ltb_lt i u)) by lia.
    rewrite Hc2, Hc1 by lia. done.
  - intros i Hi. rewrite index_holding by lia.
    rewrite (proj2 (N.ltb_lt i m)) by lia. eexists. split; [done|].
    apply Hfresh. lia.
Qed.

(** C2. For [n < m], [resize(n)] followed by a second resize to [m]
    keeps the elements below [n] as the first call left them, and, where
    they were elements before the two calls, as they were then; the
    slots from [n] to [m] hold zero bytes (trivial [T]) or [T()]
    (otherwise) after [resize(m)], [init] after [resize(m, init)], and
    after [resize_fast(m)] are only known for a non-trivial [T], where
    they hold [T()]; in each case the size is [m] and the capacity at
    least [m].  Both calls return when the allocator can grant the
    blocks they ask for. *)
Theorem resize_then_resize a v n m init :
  wf v → n < m → m < 2 ^ 64 →
  (capacity v < n → grantable a (N.max n (2 * capacity v))) →
  (reserve_capacity (capacity v) n < m →
   grantable a (N.max m (2 * reserve_capacity (capacity v) n))) →
  ∃ a1 v1,
    resize n (mkMachine a v) = Ok tt (mkMachine a1 v1)
    ∧ (∃ a2 v2,
         resize m (mkMachine a1 v1) = Ok tt (mkMachine a2 v2)
         ∧ resize_pair_post v v1 v2 n m (λ o, o = Some default_content))
    ∧ (∃ a2 v2,
         resize_init m init (mkMachine a1 v1) = Ok tt (mkMachine a2 v2)
         ∧ resize_pair_post v v1 v2 n m (λ o, o = Some init))
    ∧ (∃ a2 v2,
         resize_fast m (mkMachine a1 v1) = Ok tt (mkMachine a2 v2)
         ∧ resize_pair_post v v1 v2 n m
             (λ o, is_trivial T = false → o = Some (default_value T))).
Proof.
  intros (e & u & -> & Hok & Hu & He)%wf_holding Hnm Hm.
  rewrite capacity_holding by lia. intros Hg1 Hg2.
  destruct (resize_holding a e u n)
    as (a1 & e1 & Hrun1 & Hlim1 & Hok1 & Hext1 & He1 & Hn1 & Hc1 & _);
    [done|done|done|lia|done|].
  exists a1, (holding e1 n). split; [done|].
  assert (extent_of e1 < m → grantable a1 (N.max m (2 * extent_of e1))) as Hg.
  { rewrite Hext1. intros Hlt. eapply grantable_limit; [done|]. by apply Hg2. }
  split; [|split].
  - apply (second_resize resize _ a1 e e1 u n m); try done.
    apply resize_holding; try done.
  - apply (second_resize (λ k, resize_init k init) _ a1 e e1 u n m); try done.
    apply resize_init_holding; try done.
  - apply (second_resize resize_fast _ a1 e e1 u n m); try done.
    apply resize_fast_holding; try done.
Qed.

End Resize.

(** ** push_back *)

Section PushBack.
Context {T : Type} `{ET : ElementType T}.
Implicit Types (b : block T) (e : option (block T)) (v : AlignedVector T).
Implicit Types (a : allocator) (c : gmap N T).

Local Arguments to_size_t : simpl never.
Local Arguments ptr_diff : simpl never.
Local Arguments wrap64 : simpl never.
Local Arguments N.mul : simpl never.
Local Arguments N.add : simpl never.
Local Arguments N.max : simpl never.
Local Arguments N.sub : simpl never.
Local Arguments N.ltb : simpl never.
Local Arguments N.leb : simpl never.
Local Arguments N.eqb : simpl never.
Local Arguments ptr_add : simpl never.
Local Arguments accessible : simpl never.
Local Arguments get : simpl never.
Local Arguments extent_of : simpl never.
Local Arguments reserve : simpl never.

Lemma store_holding a e u p x :
  e ≠ None → p < extent_of e →
  store (Ptr (blk (get e)) p) x (mkMachine a (holding e u))
  = Ok tt (mkMachine a (holding (with_cells e (<[p := x]> (cells_of e))) u)).
Proof.
  intros He Hp. unfold store, set_elements, bind, get_this. simpl.
  rewrite accessible_holding, bool_decide_eq_true_2 by (done || lia).
  simpl. by rewrite holding_with_cells.
Qed.

Lemma advance_holding a e u :
  u + 1 ≤ extent_of e →
  advance_used_elements_end (mkMachine a (holding e u))
  = Ok tt (mkMachine a (holding e (u + 1))).
Proof.
  intros Hu.
  unfold advance_used_elements_end, set_used_elements_end, bind, get_this.
  simpl. by rewrite ptr_add_holding.
Qed.

Lemma back_holding e u :
  0 < u → u ≤ extent_of e → extent_of e < 2 ^ 64 →
  back (holding e u) = inr (cells_of e !! (u - 1)).
Proof.
  intros H0 Hu He. unfold back. rewrite size_holding by lia. simpl.
  rewrite !(proj2 (N.ltb_lt 0 u)) by done. simpl.
  assert (e ≠ None) by (destruct e; [done|unfold extent_of in *; simpl in *; lia]).
  rewrite accessible_holding, bool_decide_eq_true_2 by (done || lia). done.
Qed.

(** C8. [push_back(x)] on a container of size [s] and capacity [c]
    leaves size [s + 1], [x] as the last element and the first [s]
    elements as they were; the capacity becomes [max(2c, 16)] when the
    container was full (and the allocator can grant that many elements)
    and stays [c] otherwise. *)
Theorem push_back_spec a v x :
  wf v →
  (size v = capacity v → grantable a (N.max (2 * capacity v) 16)) →
  ∃ a' v',
    push_back x (mkMachine a v) = Ok tt (mkMachine a' v')
    ∧ size v' = size v + 1
    ∧ back v' = inr (Some x)
    ∧ index v' (size v) = inr (Some x)
    ∧ (∀ i, i < size v → index v' i = index v i)
    ∧ capacity v' = if decide (size v = capacity v)
                    then N.max (2 * capacity v) 16 else capacity v.
Proof.
  intros (e & u & -> & Hok & Hu & He)%wf_holding.
  rewrite capacity_holding, size_holding by lia. intros Hgrant.
  set (n := N.max (wrap64 (2 * extent_of e)) 16).
  (* the state after the optional reserve *)
  assert (∃ a' e',
    when (bool_decide (Ptr (blk (get e)) u = Ptr (blk (get e)) (extent_of e)))
      (reserve n) (mkMachine a (holding e u))
    = Ok tt (mkMachine a' (holding e' u))
    ∧ handle_ok e' ∧ u < extent_of e' ∧ extent_of e' < 2 ^ 64
    ∧ extent_of e' = (if decide (u = extent_of e)
                      then N.max (2 * extent_of e) 16 else extent_of e)
    ∧ ∀ j, j < u → cells_of e' !! j = cells_of e !! j)
    as (a' & e' & Hrun & Hok' & Hu' & He' & Hext' & Hc').
  { case_bool_decide as Hfull.
    - injection Hfull as Hfull. rewrite decide_True by done.
      destruct (Hgrant Hfull) as [Hfit Hlim]. pose proof sizeof_pos.
      assert (2 * extent_of e < 2 ^ 64) by nia.
      assert (n = N.max (2 * extent_of e) 16) as Hn
        by (unfold n; by rewrite wrap64_small).
      destruct (reserve_holding a e u n)
        as (a' & e' & Hrun & _ & Hok' & Hext' & He' & Hc'); [done..| |].
      { intros _. rewrite Hn.
        replace (N.max (N.max (2 * extent_of e) 16) (2 * extent_of e))
          with (N.max (2 * extent_of e) 16) by lia.
        by apply Hgrant. }
      assert (extent_of e' = N.max (2 * extent_of e) 16) as Hext.
      { rewrite Hext'. unfold reserve_capacity.
        destruct (N.ltb_spec (extent_of e) n); lia. }
      rewrite (proj2 (N.eqb_neq n 0)) in Hrun by lia.
      exists a', e'. simpl. repeat split; try done; try lia.
      apply Hc'. lia.
    - rewrite decide_False by (by intros ->).
      assert (u ≠ extent_of e) by (by intros ->).
      exists a, e. repeat split; try done. lia. }
  assert (e' ≠ None) by (destruct e'; [done|unfold extent_of in *; simpl in *; lia]).
  unfold push_back. unfold bind at 1, get_this at 1. simpl.
  unfold ptr_le. simpl. rewrite N.eqb_refl, (proj2 (N.leb_le u _)) by done.
  simpl. unfold bind at 1. simpl.
  rewrite capacity_holding by done. fold n.
  rewrite (bind_ok _ _ _ _ _ Hrun).
  unfold bind at 1, get_this at 1. simpl.
  assert ((if negb (is_trivial T)
           then store (Ptr (blk (get e')) u) x
           else store (Ptr (blk (get e')) u) x)
          = store (Ptr (blk (get e')) u) x) as -> by (by destruct (is_trivial T)).
  rewrite (bind_ok _ _ _ _ _ (store_holding _ _ _ _ _ H Hu')).
  rewrite advance_holding by (by rewrite extent_of_with_cells; lia).
  eexists _, _. split; [done|].
  rewrite size_holding, capacity_holding
    by (rewrite ?extent_of_with_cells; lia).
  rewrite back_holding by (rewrite ?extent_of_with_cells; lia).
  rewrite !index_holding by (rewrite ?extent_of_with_cells; lia).
  rewrite extent_of_with_cells, cells_of_with_cells by done.
  rewrite (proj2 (N.ltb_lt u (u + 1))) by lia.
  replace (u + 1 - 1) with u by lia.
  rewrite lookup_insert_eq.
  repeat split; try done.
  intros i Hi.
  rewrite !index_holding by (rewrite ?extent_of_with_cells; lia).
  rewrite cells_of_with_cells by done.
  rewrite (proj2 (N.ltb_lt i (u + 1))), (proj2 (N.ltb_lt i u)) by lia.
  rewrite lookup_insert_ne by lia. by rewrite Hc'.
Qed.

End PushBack.

(** ** Move construction and self-assignment *)

Section TwoObjects.
Context {T : Type} `{ET : ElementType T}.
Implicit Types (b : block T) (e : option (block T)) (v : AlignedVector T).
Implicit Types (a : allocator) (c : gmap N T) (w : world T).

(** C7. Move-constructing [B] from [A] gives [B] the size, the block
    and so the elements of [A], and leaves [A] without a block, with
    size 0 and capacity 0; the allocator is not involved. *)
Theorem move_construct_spec w A B v :
  objs w !! A = Some v → objs w !! B = None →
  ∃ w' vB vA,
    exec (OpMoveConstruct B A) w = Ok tt w'
    ∧ objs w' !! B = Some vB ∧ objs w' !! A = Some vA
    ∧ mem w' = mem w
    ∧ size vB = size v
    ∧ (∀ i, index vB i = index v i)
    ∧ elements vB = elements v
    ∧ elements vA = None ∧ size vA = 0 ∧ capacity vA = 0.
Proof.
  intros HA HB.
  assert (A ≠ B) as Hne by (intros ->; congruence).
  unfold exec, bind, deref, construct, assign, ret. simpl.
  rewrite HA, HB. simpl.
  eexists _, v, AlignedVector_default. split; [done|]. simpl.
  rewrite lookup_insert_eq.
  rewrite (lookup_insert_ne _ A B) by done.
  rewrite lookup_insert_eq.
  by destruct v.
Qed.

Local Arguments to_size_t : simpl never.
Local Arguments ptr_diff : simpl never.
Local Arguments N.ltb : simpl never.
Local Arguments N.leb : simpl never.
Local Arguments N.eqb : simpl never.
Local Arguments ptr_add : simpl never.
Local Arguments get : simpl never.
Local Arguments extent_of : simpl never.
Local Arguments reserve : simpl never.
Local Arguments AlignedVectorCopy : simpl never.

Lemma resize_zero a e u :
  handle_ok e → u ≤ extent_of e → extent_of e < 2 ^ 64 →
  resize 0 (mkMachine a (holding e u)) = Ok tt (mkMachine a AlignedVector_default).
Proof.
  intros Hok Hu He. unfold resize.
  unfold bind at 1, get_this at 1. simpl. rewrite size_holding by lia.
  destruct (destroy_released_holding a e u 0 Hok Hu)
    as (e1 & u1 & Hrun1 & Hok1 & Hext1 & Hu1 & _ & _).
  rewrite (bind_ok _ _ _ _ _ Hrun1).
  rewrite (bind_ok _ _ _ _ _ (reserve_zero a e1 u1 ltac:(lia) ltac:(lia))).
  rewrite holding_default.
  rewrite (bind_ok _ _ _ _ _ (set_used_to_holding a None 0 0 ltac:(done))).
  destruct (N.ltb_spec u 0); [lia|]. done.
Qed.

Lemma resize_fast_zero_default a :
  resize_fast 0 (mkMachine a AlignedVector_default)
  = Ok tt (mkMachine a (AlignedVector_default (T:=T))).
Proof.
  unfold resize_fast. unfold bind at 1, get_this at 1. simpl.
  unfold destroy_released.
  rewrite andb_false_r. simpl. unfold bind at 1. simpl.
  rewrite holding_default.
  rewrite (bind_ok _ _ _ _ _ (reserve_zero a None 0 ltac:(done) ltac:(done))).
  rewrite holding_default.
  rewrite (bind_ok _ _ _ _ _ (set_used_to_holding a None 0 0 ltac:(done))).
  by rewrite andb_false_r.
Qed.



End TwoObjects.

(** ** save and load *)

Section Serialization.
Context {T : Type} `{ET : ElementType T}.
Implicit Types (b : block T) (e : option (block T)) (v : AlignedVector T).
Implicit Types (a : allocator) (c : gmap N T) (ar : list (item T)).

Lemma accessible_get e k :
  e ≠ None → accessible e (get e) k = bool_decide (k ≤ extent_of e).
Proof.
  intros He. pose proof (accessible_holding e 0 k He) as Hacc.
  by rewrite <-get_blk in Hacc.
Qed.

Lemma read_array_zero ar p c : read_array ar p 0 c = (c, Some ar).
Proof. by destruct ar. Qed.

Lemma read_write_array c k : ∀ p q c0 rest,
  ∃ c1,
    read_array (((λ i, ISlot (c !! (p + N.of_nat i))) <$> seq 0 k) ++ rest)
      q (N.of_nat k) c0
    = (c1, Some rest)
    ∧ ∀ j, c1 !! j = if decide (q ≤ j < q + N.of_nat k)
                     then c !! (p + (j - q)) else c0 !! j.
Proof.
  induction k as [|k IH]; intros p q c0 rest.
  - simpl. rewrite read_array_zero. exists c0. split; [done|].
    intros j. case_decide; [lia|done].
  - cbn [seq]. rewrite <-fmap_S_seq, fmap_cons, <-list_fmap_compose.
    cbn [app read_array]. rewrite (proj2 (N.eqb_neq (N.of_nat (S k)) 0)) by lia.
    replace (N.of_nat (S k) - 1) with (N.of_nat k) by lia.
    destruct (IH (p + 1) (q + 1) (put_slot q (c !! (p + N.of_nat 0)) c0) rest)
      as (c1 & Hrun & Hc1).
    exists c1. split.
    + rewrite <-Hrun. f_equal. f_equal. apply list_fmap_ext.
      intros i x _. simpl. do 2 f_equal. lia.
    + intros j. rewrite Hc1, lookup_put_slot.
      repeat case_decide; try lia; try done; f_equal; lia.
Qed.

Lemma read_written ar c p n q c0 rest :
  ar = write_array c p n ++ rest →
  ∃ c1,
    read_array ar q n c0 = (c1, Some rest)
    ∧ ∀ j, c1 !! j = if decide (q ≤ j < q + n)
                     then c !! (p + (j - q)) else c0 !! j.
Proof.
  intros ->. unfold write_array.
  destruct (read_write_array c (N.to_nat n) p q c0 rest) as (c1 & Hrun & Hc1).
  rewrite N2Nat.id in *. eauto.
Qed.


Local Arguments to_size_t : simpl never.
Local Arguments ptr_diff : simpl never.
Local Arguments wrap64 : simpl never.
Local Arguments N.mul : simpl never.
Local Arguments N.add : simpl never.
Local Arguments N.max : simpl never.
Local Arguments N.sub : simpl never.
Local Arguments N.ltb : simpl never.
Local Arguments N.leb : simpl never.
Local Arguments N.eqb : simpl never.
Local Arguments ptr_add : simpl never.
Local Arguments accessible : simpl never.
Local Arguments get : simpl never.
Local Arguments extent_of : simpl never.
Local Arguments reserve : simpl never.
Local Arguments read_array : simpl never.

(** [load] on a count above the capacity, when the allocator grants the
    block: the reservation comes first, then the payload is read, and
    [used_elements_end] moves only if the payload was complete. *)
Lemma load_grow a e u count rest :
  u ≤ extent_of e → extent_of e < 2 ^ 64 → extent_of e < count →
  let k := N.max count (2 * extent_of e) in
  grantable a k →
  ∃ c',
    (∀ j, c' !! j = if decide (j < u) then cells_of e !! j else None)
    ∧ load (ISize count :: rest) (mkMachine a (holding e u))
      = let r := read_array rest 0 count c' in
        let d := Some (Block (N.succ (allocated a)) k r.1) in
        match r.2 with
        | Some ar' => Ok ar' (mkMachine (granted a k) (holding d count))
        | None => Throw archive_exception (mkMachine (granted a k) (holding d u))
        end.
Proof.
  intros Hu He Hcount k Hgrant.
  destruct (reserve_grow a e u count Hu He Hcount Hgrant) as (c' & Hrun & Hc').
  exists c'. split; [done|].
  unfold load. rewrite (proj2 (N.ltb_lt 0 count)) by lia.
  rewrite (bind_ok _ _ _ _ _ Hrun). fold k.
  unfold bind at 1, get_this at 1. simpl.
  set (d := Some (Block (N.succ (allocated a)) k c')).
  assert (extent_of d = k) as Hd by done.
  rewrite (get_blk d), accessible_holding by done.
  rewrite bool_decide_eq_true_2 by lia. simpl.
  change (cells_of d) with c'.
  destruct (read_array rest 0 count c') as [c1 [ar'|]] eqn:Hread; simpl.
  - unfold set_elements. unfold bind at 1 2, get_this at 1. simpl.
    erewrite bind_ok;
      [|exact (set_used_to_holding (granted a k)
                 (Some (Block (N.succ (allocated a)) k c1)) u count
                 ltac:(unfold extent_of; simpl; lia))].
    done.
  - unfold set_elements, bind, get_this. simpl. done.
Qed.

Local Arguments load : simpl never.

(** C6. For a trivial element type, the archive that [save] produces
    from a container [A], loaded into a default-constructed container
    [B], gives [B] the size of [A] and, at every index below that size,
    the element of [A]; what followed in the archive is left unread. *)
Theorem save_load_roundtrip a vA rest :
  is_trivial T = true → wf vA → grantable a (size vA) →
  ∃ ar,
    save [] vA = inr ar
    ∧ ∃ a' vB,
        load (ar ++ rest) (mkMachine a AlignedVector_default)
        = Ok rest (mkMachine a' vB)
        ∧ size vB = size vA
        ∧ ∀ i, i < size vA → index vB i = index vA i.
Proof.
  intros _ (e & u & -> & Hok & Hu & He)%wf_holding.
  rewrite size_holding by lia. intros Hgrant.
  unfold save. rewrite size_holding by lia.
  destruct (N.ltb_spec 0 u) as [Hpos|Hzero].
  - assert (e ≠ None) by (destruct e; [done|unfold extent_of in *; simpl in *; lia]).
    simpl. rewrite accessible_get by done.
    rewrite bool_decide_eq_true_2 by lia. rewrite off_get.
    eexists. split; [done|]. simpl.
    destruct (load_grow a None 0 u (write_array (cells_of e) 0 u ++ rest))
      as (c' & Hc' & Hrun); [done|done|done| |].
    { by replace (N.max u (2 * extent_of None)) with u
        by (unfold extent_of; lia). }
    replace (N.max u (2 * extent_of None)) with u in Hrun
      by (unfold extent_of; lia).
    destruct (read_written (write_array (cells_of e) 0 u ++ rest)
                (cells_of e) 0 u 0 c' rest eq_refl) as (c1 & Hread & Hc1).
    rewrite holding_default, Hrun, Hread. simpl.
    pose proof sizeof_pos. destruct Hgrant as [Hfit _].
    eexists _, _. split; [done|].
    rewrite size_holding by nia. split; [done|].
    intros i Hi. rewrite (index_holding e) by done.
    rewrite index_holding by (unfold extent_of; simpl; lia).
    rewrite (proj2 (N.ltb_lt i u)) by done. simpl.
    rewrite Hc1, decide_True by lia.
    by replace (0 + (i - 0)) with i by lia.
  - assert (u = 0) as -> by lia.
    eexists. split; [done|]. simpl.
    eexists _, _. split; [done|]. rewrite size_default. split; [done|].
    intros i Hi. lia.
Qed.

End Serialization.
(** ** The zero-fill detection of AlignedVectorSet *)

Section ZeroFill.
Context {T : Type} `{ET : ElementType T}.
Implicit Types (c : gmap N T).

Lemma detect_trivial_element_complete (v : T) :
  is_trivial T = true → is_long_double T = false → to_bytes v = zero →
  detect_trivial_element v = true.
Proof.
  intros Htriv Hld Hz. unfold detect_trivial_element.
  rewrite Htriv, Hld. simpl. apply Z.eqb_eq. rewrite Hz.
  assert (length zero = N.to_nat (sizeof T)) as Hlen
    by (unfold zero; by rewrite repeat_length).
  by apply (memcmp_eq zero zero _ Hlen Hlen).
Qed.

Lemma lookup_set_each_slot (x : T) n : ∀ first c j,
  set_each_slot x first n c !! j
  = if decide (first ≤ j < first + N.of_nat n) then Some x else c !! j.
Proof.
  induction n as [|n IH]; intros first c j; simpl.
  - case_decide; [lia|done].
  - rewrite IH. repeat case_decide; try lia; try done.
    + assert (j = first) as -> by lia. by rewrite lookup_insert_eq.
    + by rewrite lookup_insert_ne by lia.
Qed.

(** C9, as the code has it.  AlignedVectorSet, with its detection of
    an all-zero value and its raw zero-fill, leaves in the destination
    exactly what the generic loop leaves that sets one slot after the
    other from the value: the detection is not observable, for any
    element type, count, value and destination.  The zero-fill is what
    runs for every all-zero value of a trivial type other than
    [long double], padding or not; [long double] is the one type for
    which the detection is skipped. *)
Theorem zero_fill_detection_unobservable
    (v : T) initialize_memory n destination dst :
  (0 < n → destination ≠ nullptr ∧ accessible dst destination n = true) →
  AlignedVectorSet initialize_memory n v destination dst
  = inr (AlignedVectorSet_generic n v destination dst)
  ∧ (is_trivial T = true → is_long_double T = false → to_bytes v = zero →
     detect_trivial_element v = true
     ∧ ∀ b e c,
         AlignedVectorSet_apply_to_subrange initialize_memory v destination
           (detect_trivial_element v) b e c
         = memset_zero (off destination + b) (e - b) c)
  ∧ (is_long_double T = true → detect_trivial_element v = false).
Proof.
  intros Hdest. split; [|split].
  - unfold AlignedVectorSet, AlignedVectorSet_generic.
    destruct (N.eqb_spec n 0) as [->|Hn].
    + simpl. by rewrite with_cells_cells_of.
    + destruct Hdest as [Hnull Hacc]; [lia|].
      rewrite bool_decide_eq_false_2, Hacc by done.
      do 2 f_equal. apply map_eq. intros j.
      rewrite (dispatch_fills _ (off destination) _ _ _ _
                 (AlignedVectorSet_apply_to_subrange_fills _ _ _ _)).
      rewrite set_content_detect, lookup_set_each_slot, N2Nat.id.
      by repeat case_decide.
  - intros Htriv Hld Hz.
    rewrite (detect_trivial_element_complete v Htriv Hld Hz).
    split; [done|]. intros b e c.
    unfold AlignedVectorSet_apply_to_subrange. by rewrite Htriv.
  - intros Hld. unfold detect_trivial_element. rewrite Hld.
    by rewrite andb_false_r.
Qed.

End ZeroFill.

(** ** insert_back *)

Section InsertBack.
Context {T : Type} `{ET : ElementType T}.
Implicit Types (b : block T) (e : option (block T)) (v : AlignedVector T).
Implicit Types (a : allocator) (c : gmap N T) (range : list T).

Local Arguments to_size_t : simpl never.
Local Arguments ptr_diff : simpl never.
Local Arguments wrap64 : simpl never.
Local Arguments wrap32 : simpl never.
Local Arguments N.mul : simpl never.
Local Arguments N.add : simpl never.
Local Arguments N.max : simpl never.
Local Arguments N.sub : simpl never.
Local Arguments N.ltb : simpl never.
Local Arguments N.leb : simpl never.
Local Arguments N.eqb : simpl never.
Local Arguments N.of_nat : simpl never.
Local Arguments ptr_add : simpl never.
Local Arguments accessible : simpl never.
Local Arguments get : simpl never.
Local Arguments extent_of : simpl never.
Local Arguments reserve : simpl never.
Local Arguments store : simpl never.
Local Arguments advance_used_elements_end : simpl never.

Lemma insert_back_loop_holding a range : ∀ e u,
  e ≠ None → u + N.of_nat (length range) ≤ extent_of e →
  ∃ c',
    insert_back_loop range (mkMachine a (holding e u))
    = Ok tt (mkMachine a (holding (with_cells e c')
                            (u + N.of_nat (length range))))
    ∧ ∀ j, c' !! j = if decide (u ≤ j < u + N.of_nat (length range))
                     then range !! N.to_nat (j - u) else cells_of e !! j.
Proof.
  induction range as [|x range IH]; intros e u He Hu.
  - exists (cells_of e). simpl. rewrite with_cells_cells_of.
    replace (u + N.of_nat 0) with u by lia. split; [done|].
    intros j. case_decide; [lia|done].
  - simpl length in *.
    (* the slot after the optional default construction *)
    assert (∃ c1,
      when (negb (is_trivial T))
        (store (Ptr (blk (get e)) u) (default_value T))
        (mkMachine a (holding e u))
      = Ok tt (mkMachine a (holding (with_cells e c1) u))
      ∧ ∀ j, j ≠ u → c1 !! j = cells_of e !! j) as (c1 & Hrun1 & Hc1).
    { destruct (is_trivial T); simpl.
      - exists (cells_of e). by rewrite with_cells_cells_of.
      - eexists. rewrite store_holding by (done || lia). split; [done|].
        intros j Hj. by rewrite lookup_insert_ne. }
    set (e1 := with_cells e c1).
    assert (e1 ≠ None) as He1 by (by destruct e).
    assert (extent_of e1 = extent_of e) as Hext1
      by apply extent_of_with_cells.
    assert (get e1 = get e) as Hget1 by apply get_with_cells.
    set (e2 := with_cells e1 (<[u := x]> (cells_of e1))).
    assert (e2 ≠ None) as He2 by (by destruct e).
    destruct (IH e2 (u + 1)) as (c' & Hrun & Hc'); [done| |].
    { unfold e2. rewrite extent_of_with_cells. lia. }
    exists c'. split.
    + cbn [insert_back_loop]. unfold bind at 1, get_this at 1. simpl.
      rewrite (bind_ok _ _ _ _ _ Hrun1). fold e1. rewrite <-Hget1.
      rewrite (bind_ok _ _ _ _ _
                 (store_holding a e1 u u x He1 ltac:(lia))).
      fold e2.
      rewrite (bind_ok _ _ _ _ _
                 (advance_holding a e2 u
                    ltac:(unfold e2; rewrite extent_of_with_cells; lia))).
      rewrite Hrun. do 3 f_equal.
      * unfold e2, e1. by destruct e.
      * lia.
    + intros j. rewrite Hc'.
      unfold e2. rewrite cells_of_with_cells by done.
      unfold e1. rewrite cells_of_with_cells by done.
      destruct (decide (j = u)) as [->|Hne].
      * rewrite decide_False, decide_True by lia.
        rewrite lookup_insert_eq. by replace (N.to_nat (u - u)) with 0%nat by lia.
      * rewrite lookup_insert_ne by done.
        repeat case_decide; try lia.
        -- replace (N.to_nat (j - u)) with (S (N.to_nat (j - (u + 1)))) by lia.
           done.
        -- by apply Hc1.
Qed.

(** [insert_back] on a container of fewer than 2^32 elements. *)
Lemma insert_back_small a v range :
  wf v → size v < 2 ^ 32 →
  let s := size v in
  let L := N.of_nat (length range) in
  (capacity v < s + L → grantable a (N.max (s + L) (2 * capacity v))) →
  ∃ a' v',
    insert_back range (mkMachine a v) = Ok tt (mkMachine a' v')
    ∧ size v' = s + L
    ∧ s + L ≤ capacity v'
    ∧ (∀ i, i < s → index v' i = index v i)
    ∧ (∀ i, i < L → index v' (s + i) = inr (range !! N.to_nat i)).
Proof.
  intros (e & u & -> & Hok & Hu & He)%wf_holding.
  rewrite size_holding, capacity_holding by lia.
  intros Hsmall s L Hgrant. subst s.
  assert (wrap32 u = u) as Hw32 by (unfold wrap32; by apply N.mod_small).
  assert (u + L < 2 ^ 64) as Hsum.
  { destruct (N.le_gt_cases (u + L) (extent_of e)); [lia|].
    destruct Hgrant as [Hfit _]; [done|]. pose proof sizeof_pos. nia. }
  unfold insert_back. unfold bind at 1, get_this at 1. simpl.
  rewrite size_holding, Hw32 by lia. fold L.
  rewrite (wrap64_small (u + L)) by done.
  destruct (reserve_holding a e u (u + L))
    as (a' & e' & Hrun & _ & Hok' & Hext' & He' & Hc'); [done..|].
  rewrite (bind_ok _ _ _ _ _ Hrun).
  assert (u + L ≤ extent_of e') as Hfits.
  { rewrite Hext'. unfold reserve_capacity.
    destruct (N.ltb_spec (extent_of e) (u + L)); [lia|].
    destruct (N.eqb_spec (u + L) 0); lia. }
  destruct (N.eqb_spec (u + L) 0) as [Hz|Hnz].
  - assert (u = 0 ∧ L = 0) as [-> HL] by lia.
    assert (range = []) as -> by (destruct range; [done|simpl in *; lia]).
    simpl. exists a', (holding e' 0). split; [done|].
    rewrite size_holding, capacity_holding by lia.
    repeat split; lia.
  - assert (e' ≠ None)
      by (destruct e'; [done|unfold extent_of in *; simpl in *; lia]).
    destruct (insert_back_loop_holding a' range e' u) as (c' & Hloop & Hcells);
      [done|done|].
    rewrite Hloop. fold L.
    exists a', (holding (with_cells e' c') (u + L)). split; [done|].
    rewrite size_holding, capacity_holding
      by (rewrite ?extent_of_with_cells; lia).
    rewrite extent_of_with_cells. repeat split; try done.
    + intros i Hi.
      rewrite !index_holding by (rewrite ?extent_of_with_cells; lia).
      rewrite (proj2 (N.ltb_lt i u)), (proj2 (N.ltb_lt i (u + L))) by lia.
      rewrite cells_of_with_cells, Hcells, decide_False by (done || lia).
      rewrite Hc' by done. done.
    + intros i Hi.
      rewrite !index_holding by (rewrite ?extent_of_with_cells; lia).
      rewrite (proj2 (N.ltb_lt (u + i) (u + L))) by lia.
      rewrite cells_of_with_cells, Hcells, decide_True by (done || lia).
      by replace (u + i - u) with i by lia.
Qed.

End InsertBack.

(** ** Every method keeps the container well formed *)

Section Invariant.
Context {T : Type} `{ET : ElementType T}.
Implicit Types (b : block T) (e : option (block T)) (v : AlignedVector T).
Implicit Types (a : allocator) (c : gmap N T).

Lemma keeps_wf_ret {A} (x : A) : keeps_wf (T:=T) (ret x).
Proof. by intros a v Hv. Qed.

Lemma keeps_wf_bind {A B} (m : M (machine T) A) (k : A → M (machine T) B) :
  keeps_wf m → (∀ x, keeps_wf (k x)) → keeps_wf (bind m k).
Proof.
  intros Hm Hk a v Hv. unfold bind. specialize (Hm a v Hv).
  destruct (m _) as [x [a' v']|ex [a' v']|f]; try done.
  by apply Hk.
Qed.

Lemma keeps_wf_get_this {B} (k : AlignedVector T → M (machine T) B) :
  (∀ v, keeps_wf (k v)) → keeps_wf (bind get_this k).
Proof. intros Hk. apply keeps_wf_bind; [by intros a v Hv|done]. Qed.

Lemma keeps_wf_lift {A} (r : fault + A) : keeps_wf (T:=T) (lift r).
Proof. intros a v Hv. by destruct r. Qed.

Lemma keeps_wf_when (cond : bool) (m : M (machine T) unit) :
  keeps_wf m → keeps_wf (when cond m).
Proof. intros Hm. destruct cond; [done|apply keeps_wf_ret]. Qed.

Lemma keeps_wf_Assert (cond : bool) : keeps_wf (T:=T) (Assert cond).
Proof. intros a v Hv. by destruct cond. Qed.

Lemma keeps_wf_throw {A} ex : keeps_wf (T:=T) (A:=A) (throw ex).
Proof. by intros a v Hv. Qed.

Lemma keeps_wf_abort {A} f : keeps_wf (T:=T) (A:=A) (abort f).
Proof. by intros a v Hv. Qed.

Lemma keeps_wf_set_this v : wf v → keeps_wf (set_this v).
Proof. by intros Hv a v' _. Qed.

Lemma wf_with_cells v c :
  wf v →
  wf (mkAlignedVector (with_cells (elements v) c) (used_elements_end v)
        (allocated_elements_end v)).
Proof.
  intros [|b u Hb Hu He]; simpl; [apply wf_null|].
  by apply (wf_block (Block (bid b) (extent b) c) u).
Qed.

Lemma ptr_add_inv e u k p :
  ptr_add e (Ptr (blk (get e)) u) k = inr p →
  p = Ptr (blk (get e)) (u + k) ∧ u + k ≤ extent_of e.
Proof.
  unfold ptr_add. simpl. rewrite !valid_holding.
  case_bool_decide; simpl; [|done]. case_bool_decide; simpl; [|done].
  by intros [= <-].
Qed.

Lemma wf_holding_intro e u :
  handle_ok e → u ≤ extent_of e → extent_of e < 2 ^ 64 → wf (holding e u).
Proof. intros. apply wf_holding. eauto 10. Qed.

(** The shape of what the primitives return: the destination block with
    other slots. *)
Lemma AlignedVectorSet_shape initialize_memory n (x : T) p dst e' :
  AlignedVectorSet initialize_memory n x p dst = inr e' →
  ∃ c, e' = with_cells dst c.
Proof.
  unfold AlignedVectorSet. repeat case_match; try done; intros [= <-]; eauto.
  exists (cells_of dst). by rewrite with_cells_cells_of.
Qed.

Lemma AlignedVectorDefaultInitialize_shape initialize_memory n p dst e' :
  AlignedVectorDefaultInitialize (T:=T) initialize_memory n p dst = inr e' →
  ∃ c, e' = with_cells dst c.
Proof.
  unfold AlignedVectorDefaultInitialize.
  repeat case_match; try done; intros [= <-]; eauto.
  exists (cells_of dst). by rewrite with_cells_cells_of.
Qed.

Lemma AlignedVectorCopy_shape p q r (src dst : option (block T)) e' :
  AlignedVectorCopy p q r src dst = inr e' → ∃ c, e' = with_cells dst c.
Proof.
  unfold AlignedVectorCopy. repeat case_match; try done; intros [= <-]; eauto.
Qed.

(** A step that replaces the slots of the block keeps the container
    well formed. *)
Lemma keeps_wf_update_cells (f : AlignedVector T → fault + option (block T)) :
  (∀ v e', f v = inr e' → ∃ c, e' = with_cells (elements v) c) →
  keeps_wf (v <- get_this ;; e <- lift (f v) ;; set_elements e).
Proof.
  intros Hf a v Hv. unfold bind, get_this, set_elements. simpl.
  destruct (f v) as [?|e'] eqn:Hfv; simpl; [done|].
  apply Hf in Hfv as [c ->]. by apply wf_with_cells.
Qed.

Lemma keeps_wf_store p (x : T) : keeps_wf (store p x).
Proof.
  intros a v Hv. unfold store, bind, get_this, set_elements. simpl.
  destruct (accessible _ _ _); simpl; [|done]. by apply wf_with_cells.
Qed.

Lemma keeps_wf_advance : keeps_wf (T:=T) advance_used_elements_end.
Proof.
  intros a v (e & u & -> & Hok & Hu & He)%wf_holding.
  unfold advance_used_elements_end, set_used_elements_end, bind, get_this.
  simpl. destruct (ptr_add _ _ _) as [?|p] eqn:Hp; simpl; [done|].
  apply ptr_add_inv in Hp as [-> Hle]. by apply wf_holding_intro.
Qed.

Lemma keeps_wf_set_used_to n : keeps_wf (T:=T) (set_used_to n).
Proof.
  intros a v (e & u & -> & Hok & Hu & He)%wf_holding.
  unfold set_used_to, set_used_elements_end, bind, get_this. simpl.
  rewrite (get_blk e).
  destruct (ptr_add _ _ _) as [?|p] eqn:Hp; simpl; [done|].
  apply ptr_add_inv in Hp as [-> Hle]. by apply wf_holding_intro.
Qed.

Lemma destroy_back_wf rounds target : ∀ v v',
  wf v → destroy_back rounds target v = inr v' → wf v'.
Proof.
  induction rounds as [|rounds IH]; intros v v' Hv; simpl.
  - case_bool_decide; [|done]. by intros [= <-].
  - case_bool_decide; [by intros [= <-]|].
    destruct (_ && _) eqn:Hcond; [|done].
    apply IH. apply andb_true_iff in Hcond as [Hpos%N.ltb_lt Hacc].
    apply wf_holding in Hv as (e & u & -> & Hok & Hu & He). simpl in *.
    rewrite holding_with_cells. apply wf_holding_intro.
    + by apply handle_ok_with_cells.
    + rewrite extent_of_with_cells. lia.
    + by rewrite extent_of_with_cells.
Qed.

Lemma keeps_wf_destroy_down_to target : keeps_wf (T:=T) (destroy_down_to target).
Proof.
  intros a v Hv. unfold destroy_down_to, bind, get_this. simpl.
  destruct (destroy_back _ _ _) as [?|v'] eqn:Hd; simpl; [done|].
  by eapply destroy_back_wf.
Qed.

Lemma keeps_wf_clear : keeps_wf (T:=T) clear.
Proof.
  unfold clear. apply keeps_wf_get_this. intros v.
  apply keeps_wf_bind.
  - destruct (elements v); [|apply keeps_wf_ret].
    apply keeps_wf_when, keeps_wf_destroy_down_to.
  - intros _. apply keeps_wf_set_this, wf_null.
Qed.

Lemma keeps_wf_reserve n : keeps_wf (T:=T) (reserve n).
Proof.
  intros a v (e & u & -> & Hok & Hu & He)%wf_holding.
  destruct (N.le_gt_cases n (extent_of e)) as [Hle|Hgt].
  - destruct (N.eq_dec n 0) as [->|Hn0].
    + rewrite reserve_zero by done. apply wf_null.
    + rewrite reserve_noop by (done || lia). by apply wf_holding_intro.
  - pose proof (reserve_grow_outcome a e u n Hu He Hgt) as Hout.
    simpl in Hout.
    destruct (reserve n _) as [x s|ex s|f]; try done.
    + destruct Hout as (Hk & c' & ->). apply wf_holding_intro; simpl; lia.
    + rewrite Hout. by apply wf_holding_intro.
Qed.

Lemma keeps_wf_destroy_released n old_size :
  keeps_wf (T:=T) (destroy_released n old_size).
Proof.
  unfold destroy_released. apply keeps_wf_when, keeps_wf_get_this.
  intros v. apply keeps_wf_bind; [apply keeps_wf_lift|].
  intros target. apply keeps_wf_destroy_down_to.
Qed.

(** The grow step of the resize functions. *)
Lemma keeps_wf_grow (prim : ptr → option (block T) → fault + option (block T))
    old_size :
  (∀ p dst e', prim p dst = inr e' → ∃ c, e' = with_cells dst c) →
  keeps_wf
    (v <- get_this ;;
     dest <- lift (ptr_add (elements v) (get (elements v)) old_size) ;;
     e <- lift (prim dest (elements v)) ;;
     set_elements e).
Proof.
  intros Hprim a v Hv. unfold bind, get_this, set_elements. simpl.
  destruct (ptr_add _ _ _) as [?|dest]; simpl; [done|].
  destruct (prim dest (elements v)) as [?|e'] eqn:Hp; simpl; [done|].
  apply Hprim in Hp as [c ->]. by apply wf_with_cells.
Qed.

Lemma keeps_wf_resize n : keeps_wf (T:=T) (resize n).
Proof.
  unfold resize. apply keeps_wf_get_this. intros v.
  apply keeps_wf_bind; [apply keeps_wf_destroy_released|intros _].
  apply keeps_wf_bind; [apply keeps_wf_reserve|intros _].
  apply keeps_wf_bind; [apply keeps_wf_set_used_to|intros _].
  apply keeps_wf_when.
  apply (keeps_wf_grow (AlignedVectorDefaultInitialize true _)).
  intros p dst e'. apply AlignedVectorDefaultInitialize_shape.
Qed.

Lemma keeps_wf_resize_fast n : keeps_wf (T:=T) (resize_fast n).
Proof.
  unfold resize_fast. apply keeps_wf_get_this. intros v.
  apply keeps_wf_bind; [apply keeps_wf_destroy_released|intros _].
  apply keeps_wf_bind; [apply keeps_wf_reserve|intros _].
  apply keeps_wf_bind; [apply keeps_wf_set_used_to|intros _].
  apply keeps_wf_when.
  apply (keeps_wf_grow (AlignedVectorDefaultInitialize true _)).
  intros p dst e'. apply AlignedVectorDefaultInitialize_shape.
Qed.

Lemma keeps_wf_resize_init n init : keeps_wf (T:=T) (resize_init n init).
Proof.
  unfold resize_init. apply keeps_wf_get_this. intros v.
  apply keeps_wf_bind; [apply keeps_wf_destroy_released|intros _].
  apply keeps_wf_bind; [apply keeps_wf_reserve|intros _].
  apply keeps_wf_bind; [apply keeps_wf_set_used_to|intros _].
  apply keeps_wf_when.
  apply (keeps_wf_grow (AlignedVectorSet true _ init)).
  intros p dst e'. apply AlignedVectorSet_shape.
Qed.

Lemma keeps_wf_push_back x : keeps_wf (T:=T) (push_back x).
Proof.
  unfold push_back. apply keeps_wf_get_this. intros v.
  apply keeps_wf_bind; [apply keeps_wf_Assert|intros _].
  apply keeps_wf_bind; [apply keeps_wf_when, keeps_wf_reserve|intros _].
  apply keeps_wf_get_this. intros v'.
  apply keeps_wf_bind; [|intros _; apply keeps_wf_advance].
  destruct (negb _); apply keeps_wf_store.
Qed.

Lemma keeps_wf_insert_back_loop range : keeps_wf (T:=T) (insert_back_loop range).
Proof.
  induction range as [|x range IH]; simpl; [apply keeps_wf_ret|].
  apply keeps_wf_get_this. intros v.
  apply keeps_wf_bind; [apply keeps_wf_when, keeps_wf_store|intros _].
  apply keeps_wf_bind; [apply keeps_wf_store|intros _].
  apply keeps_wf_bind; [apply keeps_wf_advance|intros _]. done.
Qed.

Lemma keeps_wf_insert_back range : keeps_wf (T:=T) (insert_back range).
Proof.
  unfold insert_back. apply keeps_wf_get_this. intros v.
  apply keeps_wf_bind; [apply keeps_wf_reserve|intros _].
  apply keeps_wf_insert_back_loop.
Qed.

Lemma keeps_wf_fill : keeps_wf (T:=T) fill.
Proof.
  apply (keeps_wf_update_cells
           (λ v, AlignedVectorDefaultInitialize false (size v)
                   (get (elements v)) (elements v))).
  intros v e'. apply AlignedVectorDefaultInitialize_shape.
Qed.

Lemma keeps_wf_fill_value x : keeps_wf (T:=T) (fill_value x).
Proof.
  apply (keeps_wf_update_cells
           (λ v, AlignedVectorSet false (size v) x
                   (get (elements v)) (elements v))).
  intros v e'. apply AlignedVectorSet_shape.
Qed.

Lemma keeps_wf_set_index i x : keeps_wf (T:=T) (set_index i x).
Proof.
  unfold set_index. apply keeps_wf_get_this. intros v.
  destruct (_ <? _); [|apply keeps_wf_abort].
  apply keeps_wf_bind; [apply keeps_wf_lift|intros p]. apply keeps_wf_store.
Qed.

Lemma keeps_wf_load ar : keeps_wf (T:=T) (load ar).
Proof.
  unfold load. destruct ar as [|[count|x] ar]; try apply keeps_wf_throw.
  destruct (_ <? _); [|apply keeps_wf_ret].
  apply keeps_wf_bind; [apply keeps_wf_reserve|intros _].
  intros a v Hv. unfold bind at 1, get_this at 1. simpl.
  destruct (accessible _ _ _); [|done].
  set (r := read_array _ _ _ _).
  assert (wf (mkAlignedVector (with_cells (elements v) r.1)
                (used_elements_end v) (allocated_elements_end v))) as Hv'
    by (by apply wf_with_cells).
  unfold set_elements. unfold bind at 1 2, get_this at 1. simpl.
  destruct r.2 as [ar'|]; [|done].
  apply (keeps_wf_bind (set_used_to count) (λ _, ret ar')
           (keeps_wf_set_used_to count) (λ _, keeps_wf_ret ar') a _ Hv').
Qed.

Lemma keeps_wf_sized n init : keeps_wf (T:=T) (AlignedVector_sized n init).
Proof.
  unfold AlignedVector_sized.
  apply keeps_wf_bind; [apply keeps_wf_set_this, wf_null|intros _].
  apply keeps_wf_when, keeps_wf_resize_init.
Qed.

Lemma keeps_wf_copy vec : keeps_wf (T:=T) (AlignedVector_copy vec).
Proof.
  unfold AlignedVector_copy.
  apply keeps_wf_bind; [apply keeps_wf_set_this, wf_null|intros _].
  apply keeps_wf_bind; [apply keeps_wf_reserve|intros _].
  intros a v (e & u & -> & Hok & Hu & He)%wf_holding.
  unfold bind, get_this, set_used_elements_end, set_elements, set_this.
  simpl.
  destruct (AlignedVectorCopy _ _ _ _ _) as [?|e'] eqn:Hcopy; simpl; [done|].
  apply AlignedVectorCopy_shape in Hcopy as [c ->].
  rewrite holding_with_cells. apply wf_holding_intro.
  - by apply handle_ok_with_cells.
  - by rewrite extent_of_with_cells.
  - by rewrite extent_of_with_cells.
Qed.

End Invariant.

(** ** Stores of containers *)

Section Reachable.
Context {T : Type} `{ET : ElementType T}.
Implicit Types (b : block T) (e : option (block T)) (v : AlignedVector T).
Implicit Types (a : allocator) (c : gmap N T) (w : world T).

Lemma store_wf_insert a w x v :
  store_wf w → wf v → store_wf (mkWorld a (<[x := v]> (objs w))).
Proof.
  intros Hw Hv y vy. simpl. rewrite lookup_insert.
  case_decide; [by intros [= <-]|]. apply Hw.
Qed.

Lemma keeps_store_ret {A} (x : A) : keeps_store_wf (T:=T) (ret x).
Proof. by intros w Hw. Qed.

Lemma keeps_store_bind {A B} (m : M (world T) A) (k : A → M (world T) B) :
  keeps_store_wf m → (∀ x, keeps_store_wf (k x)) → keeps_store_wf (bind m k).
Proof.
  intros Hm Hk w Hw. unfold bind. specialize (Hm w Hw).
  destruct (m w) as [x w'|ex w'|f]; try done. by apply Hk.
Qed.

Lemma keeps_store_call {A} x (m : M (machine T) A) :
  keeps_wf m → keeps_store_wf (call x m).
Proof.
  intros Hm w Hw. unfold call.
  destruct (objs w !! x) as [v|] eqn:Hx; [|done].
  specialize (Hm (mem w) v (Hw x v Hx)).
  destruct (m _) as [r s|ex s|f]; try done; by apply store_wf_insert.
Qed.

Lemma keeps_store_construct x (m : M (machine T) unit) :
  keeps_wf m → keeps_store_wf (construct x m).
Proof.
  intros Hm w Hw. unfold construct.
  destruct (objs w !! x) as [v|] eqn:Hx; [done|].
  specialize (Hm (mem w) (mkAlignedVector None nullptr nullptr) wf_null).
  destruct (m _) as [r s|ex s|f]; try done. by apply store_wf_insert.
Qed.

Lemma keeps_store_deref {B} x (k : AlignedVector T → M (world T) B) :
  (∀ v, wf v → keeps_store_wf (k v)) → keeps_store_wf (bind (deref x) k).
Proof.
  intros Hk w Hw. unfold bind, deref.
  destruct (objs w !! x) as [v|] eqn:Hx; [|done].
  apply Hk; [by eapply Hw|done].
Qed.

Lemma keeps_store_assign x v : wf v → keeps_store_wf (assign x v).
Proof. intros Hv w Hw. by apply store_wf_insert. Qed.

Lemma keeps_store_copy_assign x vec : keeps_store_wf (T:=T) (copy_assign x vec).
Proof.
  unfold copy_assign.
  apply keeps_store_bind; [apply keeps_store_call, keeps_wf_resize|intros _].
  apply keeps_store_deref. intros v _.
  apply keeps_store_bind; [apply keeps_store_call, keeps_wf_resize_fast|intros _].
  apply keeps_store_deref. intros v' _.
  apply keeps_store_call.
  apply (keeps_wf_update_cells
           (λ t, AlignedVectorCopy (get (elements v'))
                   (used_elements_end v') (get (elements t))
                   (elements v') (elements t))).
  intros t e'. apply AlignedVectorCopy_shape.
Qed.

Lemma wf_eta v :
  wf v →
  wf (mkAlignedVector (elements v) (used_elements_end v)
        (allocated_elements_end v)).
Proof. by destruct v. Qed.

Lemma keeps_store_move_construct x vec :
  keeps_store_wf (T:=T) (exec (OpMoveConstruct x vec)).
Proof.
  unfold exec. apply keeps_store_deref. intros v Hv.
  apply keeps_store_bind;
    [apply keeps_store_construct, keeps_wf_ret|intros _].
  apply keeps_store_bind; [apply keeps_store_assign|intros _].
  - by apply wf_eta.
  - apply keeps_store_assign, wf_null.
Qed.

(** Move assignment and swap pass through states in which an object is
    not well formed; they are followed to their end. *)
Lemma keeps_store_move_assign x vec :
  keeps_store_wf (T:=T) (move_assign x vec).
Proof.
  intros w Hw. unfold move_assign. unfold bind at 1, call at 1.
  destruct (objs w !! x) as [t|] eqn:Hx; [|done].
  pose proof (Hw x t Hx) as (e & u & -> & Hok & Hu & He)%wf_holding.
  rewrite clear_holding by done. simpl.
  destruct (decide (x = vec)) as [->|Hne].
  - unfold bind, deref, assign. simpl.
    repeat (rewrite lookup_insert_eq; simpl).
    intros y vy. simpl. rewrite !lookup_insert.
    case_decide; [intros [= <-]; apply wf_null|]. apply Hw.
  - unfold bind at 1, deref at 1. simpl.
    rewrite lookup_insert_ne by done.
    destruct (objs w !! vec) as [v|] eqn:Hvec; [|done].
    pose proof (Hw vec v Hvec) as Hv.
    unfold bind, deref, assign. simpl.
    repeat (rewrite ?lookup_insert_eq; rewrite ?(lookup_insert_ne _ vec x) by done;
            rewrite ?(lookup_insert_ne _ x vec) by done; simpl).
    intros y vy. simpl. rewrite !lookup_insert.
    repeat case_decide; subst; try done.
    + intros [= <-]. apply wf_null.
    + intros [= <-]. by destruct v.
    + apply Hw.
Qed.

Lemma keeps_store_swap x vec : keeps_store_wf (T:=T) (swap x vec).
Proof.
  intros w Hw. unfold swap. unfold bind at 1, deref at 1.
  destruct (objs w !! x) as [t|] eqn:Hx; [|done].
  pose proof (Hw x t Hx) as Ht.
  destruct (decide (x = vec)) as [->|Hne].
  - unfold bind, deref, assign. simpl.
    repeat (rewrite lookup_insert_eq; simpl).
    intros y vy. simpl. rewrite !lookup_insert.
    case_decide; [intros [= <-]; by destruct t|]. apply Hw.
  - unfold bind at 1, assign at 1. simpl.
    unfold bind at 1, deref at 1. simpl.
    rewrite lookup_insert_ne by done.
    destruct (objs w !! vec) as [v|] eqn:Hvec; [|done].
    pose proof (Hw vec v Hvec) as Hv.
    unfold bind, deref, assign. simpl.
    repeat (rewrite ?lookup_insert_eq; rewrite ?(lookup_insert_ne _ vec x) by done;
            rewrite ?(lookup_insert_ne _ x vec) by done; simpl).
    intros y vy. simpl. rewrite !lookup_insert.
    repeat case_decide; subst; try done.
    + intros [= <-]. by destruct t.
    + intros [= <-]. by destruct v.
    + apply Hw.
Qed.

Lemma keeps_store_exec o : keeps_store_wf (T:=T) (exec o).
Proof.
  destruct o; try apply keeps_store_move_construct; unfold exec.
  - apply keeps_store_construct, keeps_wf_ret.
  - apply keeps_store_construct, keeps_wf_sized.
  - apply keeps_store_deref. intros v _.
    apply keeps_store_construct, keeps_wf_copy.
  - apply keeps_store_copy_assign.
  - apply keeps_store_move_assign.
  - apply keeps_store_call, keeps_wf_resize_fast.
  - apply keeps_store_call, keeps_wf_resize.
  - apply keeps_store_call, keeps_wf_resize_init.
  - apply keeps_store_call, keeps_wf_reserve.
  - apply keeps_store_call, keeps_wf_clear.
  - apply keeps_store_call, keeps_wf_push_back.
  - apply keeps_store_call, keeps_wf_insert_back.
  - apply keeps_store_call, keeps_wf_fill.
  - apply keeps_store_call, keeps_wf_fill_value.
  - apply keeps_store_call, keeps_wf_set_index.
  - apply keeps_store_swap.
  - apply keeps_store_bind; [apply keeps_store_call, keeps_wf_load|].
    intros _. apply keeps_store_ret.
Qed.

Lemma reachable_store_wf w : reachable w → store_wf w.
Proof.
  induction 1 as [a|w o w' _ IH Hrun|w o ex w' _ IH Hrun].
  - intros x v. simpl. by rewrite lookup_empty.
  - pose proof (keeps_store_exec o w IH) as Hk. by rewrite Hrun in Hk.
  - pose proof (keeps_store_exec o w IH) as Hk. by rewrite Hrun in Hk.
Qed.

Lemma wf_pointer_triple v : wf v → pointer_triple v.
Proof.
  intros (e & u & -> & Hok & Hu & He)%wf_holding.
  unfold pointer_triple.
  rewrite size_holding, capacity_holding by lia.
  unfold holding, ptr_diff. simpl. rewrite off_get.
  repeat split; lia.
Qed.

Lemma all_equal_default : all_equal (T:=T) AlignedVector_default.
Proof. done. Qed.

(** X31. In every state reached from a store without objects by
    public operations that returned or threw, every container satisfies
    [begin <= used_end <= allocated_end] inside one block, with
    [size()] and [capacity()] the distances of the two ends from
    [begin]; a default-constructed container has its three pointers
    equal and size and capacity 0, and so has every container after
    [clear()], which always returns.  A call whose behaviour is
    undefined, such as [insert_back] on 2^32 elements, ends the run and
    is not covered. *)
Theorem pointer_triple_invariant w :
  reachable w →
  (∀ x v, objs w !! x = Some v → pointer_triple v)
  ∧ (∀ x w', exec (OpDefault x) w = Ok tt w' →
       ∃ v, objs w' !! x = Some v ∧ all_equal v)
  ∧ (∀ x, is_Some (objs w !! x) →
       ∃ w' v, exec (OpClear x) w = Ok tt w'
               ∧ objs w' !! x = Some v ∧ all_equal v).
Proof.
  intros Hw%reachable_store_wf. split; [|split].
  - intros x v Hx. apply wf_pointer_triple. by eapply Hw.
  - intros x w'. unfold exec, construct, ret. simpl.
    destruct (objs w !! x); [done|]. intros [= <-]. simpl.
    rewrite lookup_insert_eq. eexists. split; [done|]. apply all_equal_default.
  - intros x [v Hx]. unfold exec, call. rewrite Hx.
    pose proof (Hw x v Hx) as (e & u & -> & Hok & Hu & He)%wf_holding.
    rewrite clear_holding by done.
    eexists _, _. split; [done|]. simpl. rewrite lookup_insert_eq.
    split; [done|]. apply all_equal_default.
Qed.

End Reachable.

(** ** The statements at sample states *)


Lemma resize_then_resize_witness :
  ∃ a1 v1,
    resize 2 (mkMachine small_allocator three_bools) = Ok tt (mkMachine a1 v1)
    ∧ (∃ a2 v2,
         resize 6 (mkMachine a1 v1) = Ok tt (mkMachine a2 v2)
         ∧ resize_pair_post three_bools v1 v2 2 6
             (λ o, o = Some default_content))
    ∧ (∃ a2 v2,
         resize_init 6 true (mkMachine a1 v1) = Ok tt (mkMachine a2 v2)
         ∧ resize_pair_post three_bools v1 v2 2 6 (λ o, o = Some true))
    ∧ (∃ a2 v2,
         resize_fast 6 (mkMachine a1 v1) = Ok tt (mkMachine a2 v2)
         ∧ resize_pair_post three_bools v1 v2 2 6
             (λ o, is_trivial bool = false → o = Some (default_value bool))).
Proof.
  apply (resize_then_resize small_allocator three_bools 2 6 true).
  - apply wf_block; simpl; lia.
  - lia.
  - lia.
  - vm_compute. discriminate.
  - intros _. vm_compute. split; [reflexivity|discriminate].
Defined.

Lemma push_back_spec_witness :
  ∃ a' v',
    push_back false (mkMachine small_allocator four_bools)
    = Ok tt (mkMachine a' v')
    ∧ size v' = size four_bools + 1
    ∧ back v' = inr (Some false)
    ∧ index v' (size four_bools) = inr (Some false)
    ∧ (∀ i, i < size four_bools → index v' i = index four_bools i)
    ∧ capacity v' = if decide (size four_bools = capacity four_bools)
                    then N.max (2 * capacity four_bools) 16
                    else capacity four_bools.
Proof.
  apply (push_back_spec small_allocator four_bools false).
  - apply wf_block; simpl; lia.
  - intros _. vm_compute. split; [reflexivity|discriminate].
Defined.

Lemma save_load_roundtrip_witness :
  ∃ ar,
    save [] three_bools = inr ar
    ∧ ∃ a' vB,
        load (ar ++ [ISize 7]) (mkMachine small_allocator AlignedVector_default)
        = Ok [ISize 7] (mkMachine a' vB)
        ∧ size vB = size three_bools
        ∧ ∀ i, i < size three_bools → index vB i = index three_bools i.
Proof.
  apply (save_load_roundtrip small_allocator three_bools [ISize 7]).
  - reflexivity.
  - apply wf_block; simpl; lia.
  - vm_compute. split; [reflexivity|discriminate].
Defined.

Lemma move_construct_spec_witness :
  ∃ w' vB vA,
    exec (OpMoveConstruct 2 1) one_object = Ok tt w'
    ∧ objs w' !! 2 = Some vB ∧ objs w' !! 1 = Some vA
    ∧ mem w' = mem one_object
    ∧ size vB = size three_bools
    ∧ (∀ i, index vB i = index three_bools i)
    ∧ elements vB = elements three_bools
    ∧ elements vA = None ∧ size vA = 0 ∧ capacity vA = 0.
Proof.
  apply (move_construct_spec one_object 1 2 three_bools); reflexivity.
Defined.


(** The same on a trivial element type, for which no destructor
    runs. *)
Example copy_assign_self_bools :
  copy_assign 1 1 one_object
  = Ok tt (mkWorld small_allocator (<[1 := AlignedVector_default]> ∅)).
Proof. vm_compute. reflexivity. Qed.

Lemma zero_fill_detection_unobservable_witness :
  AlignedVectorSet false 4 false (Ptr 1 0) (elements four_bools)
  = inr (AlignedVectorSet_generic 4 false (Ptr 1 0) (elements four_bools))
  ∧ (is_trivial bool = true → is_long_double bool = false →
     to_bytes false = zero (T:=bool) →
     detect_trivial_element false = true
     ∧ ∀ b e c,
         AlignedVectorSet_apply_to_subrange false false (Ptr 1 0)
           (detect_trivial_element false) b e c
         = memset_zero (off (Ptr 1 0) + b) (e - b) c)
  ∧ (is_long_double bool = true → detect_trivial_element false = false).
Proof.
  apply (zero_fill_detection_unobservable false false 4 (Ptr 1 0)
           (elements four_bools)).
  intros _. split; [discriminate|reflexivity].
Defined.

(** A value that is not all zero goes through the generic path, a zero
    value through the zero-fill; for [long double] the detection never
    fires. *)
Example set_four_bools :
  AlignedVectorSet false 4 false (Ptr 1 0) (elements four_bools)
  = inr (Some (Block 1 4 (<[0 := false]> (<[1 := false]> (<[2 := false]>
                            (<[3 := false]> ∅))))))
  ∧ detect_trivial_element false = true
  ∧ detect_trivial_element true = false
  ∧ detect_trivial_element long_double_zero = false.
Proof. repeat split; vm_compute; reflexivity. Qed.

Lemma Extended_padding : padding_byte (T:=Extended) 10.
Proof.
  split; [vm_compute; lia|]. intros l x.
  do 11 (destruct l as [|? l]; [reflexivity|]). reflexivity.
Qed.

(** C9 as the spec states it does not hold in its last clause.  The
    class [Extended] has the storage of a [long double], so its bytes 10
    to 15 are padding and its zero pattern does not span the storage
    width; it is trivial and it is not [long double], so the detection
    applies to it: an all-zero value is detected and the destination is
    filled by the raw zero-fill. *)
Lemma zero_fill_detection_on_padded_type :
  is_trivial Extended = true
  ∧ padding_byte (T:=Extended) 10
  ∧ detect_trivial_element (mkExtended long_double_zero) = true
  ∧ (∀ b e c,
       AlignedVectorSet_apply_to_subrange false (mkExtended long_double_zero)
         (Ptr 1 0) (detect_trivial_element (mkExtended long_double_zero)) b e c
       = memset_zero (off (Ptr 1 0) + b) (e - b) c)
  ∧ AlignedVectorSet false 2 (mkExtended long_double_zero) (Ptr 1 0)
      (elements two_extended)
    = inr (with_cells (elements two_extended)
             (memset_zero 0 2 (cells_of (elements two_extended)))).
Proof.
  split; [reflexivity|]. split; [apply Extended_padding|].
  split; [vm_compute; reflexivity|].
  split; [intros b e c; reflexivity|].
  vm_compute. reflexivity.
Qed.

(** No validation in [load]: 900 elements are reserved for an archive
    that holds one. *)
Example load_one_slot_declared_900 :
  ∃ c,
    load [ISize 900; ISlot (Some true)] (mkMachine small_allocator three_bools)
    = Throw archive_exception
        (mkMachine (mkAllocator 2 1000 [(64, 4); (64, 900)])
           (owning (Block 2 900 c) 3)).
Proof. eexists. vm_compute. reflexivity. Qed.

(** C1 as the spec states it does not hold: whatever bound is proposed,
    the count 2^64 - 1 in an archive that holds nothing else goes to the
    allocator. *)
Lemma load_does_not_validate_count : ¬ load_validates_count (T:=bool).
Proof.
  intros (bound & Hbound & Hload).
  specialize (Hload (fresh_allocator 0) AlignedVector_default (2 ^ 64 - 1) []
                wf_null (Hbound []) ltac:(lia)).
  vm_compute in Hload. discriminate.
Qed.

Lemma run_program_reachable {T} `{ElementType T} (p : list (op T)) :
  ∀ w, reachable w → reachable (run_program p w).
Proof.
  induction p as [|o p IH]; intros w Hw; simpl; [done|].
  destruct (exec o w) as [[] w'|ex w'|f] eqn:Hrun; try done.
  apply IH. by eapply reachable_return.
Qed.

(** C3, where the code departs from it.  [insert_back] keeps the size in
    an [unsigned int]: on a full container of 2^32 [bool]s it reserves for
    [0 + 1] elements, that is nothing, and then stores one element past
    the end of the block; with an empty range it reserves for 0 elements,
    which releases the block and with it all 2^32 elements.  The container
    is the one [resize_fast(4294967296)] produces. *)
Theorem insert_back_truncates_size :
  run_fresh (2 ^ 32) (resize_fast (2 ^ 32))
  = Ok tt (mkMachine allocator_4Gi bools_4Gi)
  ∧ size bools_4Gi = 2 ^ 32
  ∧ capacity bools_4Gi = 2 ^ 32
  ∧ insert_back [true] (mkMachine allocator_4Gi bools_4Gi)
    = Abort UndefinedBehaviour
  ∧ insert_back [] (mkMachine allocator_4Gi bools_4Gi)
    = Ok tt (mkMachine allocator_4Gi AlignedVector_default).
Proof.
  split; [vm_compute; reflexivity|].
  split; [vm_compute; reflexivity|].
  split; [vm_compute; reflexivity|].
  split; vm_compute; reflexivity.
Qed.

(** C5, where the code departs from it.  The same [unsigned int] of
    [insert_back] breaks the invariant of the pointer triple.  The
    program that default-constructs an [AlignedVector<bool>] and calls
    [resize_fast(4294967296)] reaches a full container of 2^32 elements
    that satisfies the invariant.  [insert_back] of one element then
    reserves for [0 + 1] elements, which changes nothing, and its loop
    stores the element at [used_elements_end], which is
    [allocated_elements_end], one past the block, before it increments
    [used_elements_end] beyond [allocated_elements_end]: the store is
    outside the block, which is where the run ends here. *)
Theorem insert_back_breaks_pointer_triple :
  let w := mkWorld allocator_4Gi (<[1 := bools_4Gi]> ∅) in
  let s := mkMachine allocator_4Gi bools_4Gi in
  run_program [OpDefault 1; OpResizeFast 1 (2 ^ 32)]
    (mkWorld (fresh_allocator (2 ^ 32)) ∅) = w
  ∧ reachable w
  ∧ pointer_triple bools_4Gi
  ∧ reserve (wrap64 (wrap32 (size bools_4Gi) + N.of_nat (length [true]))) s
    = Ok tt s
  ∧ used_elements_end bools_4Gi = allocated_elements_end bools_4Gi
  ∧ store (used_elements_end bools_4Gi) true s = Abort UndefinedBehaviour
  ∧ exec (OpInsertBack 1 [true]) w = Abort UndefinedBehaviour.
Proof.
  intros w s.
  assert (run_program [OpDefault 1; OpResizeFast 1 (2 ^ 32)]
            (mkWorld (fresh_allocator (2 ^ 32)) ∅) = w) as Hrun
    by (vm_compute; reflexivity).
  split; [exact Hrun|].
  split; [rewrite <-Hrun; apply run_program_reachable, reachable_start|].
  split; [repeat split; vm_compute; congruence|].
  split; [vm_compute; reflexivity|].
  split; [reflexivity|].
  split; vm_compute; reflexivity.
Qed.

Lemma pointer_triple_invariant_witness :
  let w := run_program sample_program (mkWorld (fresh_allocator 1000) ∅) in
  (∀ x v, objs w !! x = Some v → pointer_triple v)
  ∧ (∀ x w', exec (OpDefault x) w = Ok tt w' →
       ∃ v, objs w' !! x = Some v ∧ all_equal v)
  ∧ (∀ x, is_Some (objs w !! x) →
       ∃ w' v, exec (OpClear x) w = Ok tt w'
               ∧ objs w' !! x = Some v ∧ all_equal v).
Proof.
  apply (pointer_triple_invariant
           (run_program sample_program (mkWorld (fresh_allocator 1000) ∅))).
  apply run_program_reachable, reachable_start.
Defined.

(** The sample program runs to its end: the first container is cleared,
    the second holds five elements and the capacity asked for. *)
Example sample_program_result :
  let w := run_program sample_program (mkWorld (fresh_allocator 1000) ∅) in
  (size <$> objs w !! 1, capacity <$> objs w !! 1) = (Some 0, Some 0)
  ∧ (size <$> objs w !! 2, capacity <$> objs w !! 2) = (Some 5, Some 100)
  ∧ requests (mem w) = [(64, 4); (64, 16); (64, 5); (64, 100)].
Proof. vm_compute. done. Qed.

(** The five lines tests/base/aligned_vector_03.cc prints: after the
    constructor, the insertion, the shrinking, the reserve and the
    assignment. *)
Example aligned_vector_03_output :
  contents <$> aligned_vector_03_a 1
    = Some [Some false; Some false; Some false; Some false]
  ∧ contents <$> aligned_vector_03_a 7
    = Some (Some <$> [false; false; true; false; true; false;
                      false; false; true; false; true; false; true])
  ∧ contents <$> aligned_vector_03_a 8
    = Some (Some <$> [false; false; true; false])
  ∧ contents <$> aligned_vector_03_a 9
    = Some (Some <$> [false; false; true; false])
  ∧ contents <$> aligned_vector_03_a 10
    = Some (Some <$> [false; false; true; false; true; false; true]).
Proof.
  split; [vm_compute; reflexivity|].
  split; [vm_compute; reflexivity|].
  split; [vm_compute; reflexivity|].
  split; vm_compute; reflexivity.
Qed.

(** The two checks of tests/base/aligned_vector_03.cc on large vectors,
    whose ranges are long enough for the parallel path: after
    [resize(0)], [resize(100000, true)], [resize(200000, false)] and
    [resize(400000, true)] the three stretches hold [true], [false] and
    [true]. *)
Example aligned_vector_03_large a v :
  wf v → 400000 ≤ limit a →
  ∃ a' v',
    (resize 0 ;;; resize_init 100000 true ;;; resize_init 200000 false ;;;
     resize_init 400000 true) (mkMachine a v)
    = Ok tt (mkMachine a' v')
    ∧ size v' = 400000
    ∧ (∀ i, i < 100000 → index v' i = inr (Some true))
    ∧ (∀ i, 100000 ≤ i < 200000 → index v' i = inr (Some false))
    ∧ (∀ i, 200000 ≤ i < 400000 → index v' i = inr (Some true)).
Proof.
  intros (e & u & -> & Hok & Hu & He)%wf_holding Hlim.
  assert (∀ a0 k, limit a0 = limit a → k ≤ 400000 → grantable (T:=bool) a0 k)
    as Hgrant.
  { intros a0 k Ha0 Hk. unfold grantable. rewrite Ha0.
    change (sizeof bool) with 1. lia. }
  rewrite (bind_ok _ _ _ _ _ (resize_zero a e u Hok Hu He)).
  rewrite holding_default.
  destruct (resize_init_holding a None 0 100000 true)
    as (a1 & e1 & Hrun1 & Hlim1 & Hok1 & Hext1 & He1 & Hn1 & _ & Hnew1);
    [done|done|done|lia|intros _; by apply Hgrant|].
  change (reserve_capacity (extent_of None) 100000) with 100000 in Hext1.
  rewrite (bind_ok _ _ _ _ _ Hrun1).
  destruct (resize_init_holding a1 e1 100000 200000 false)
    as (a2 & e2 & Hrun2 & Hlim2 & Hok2 & Hext2 & He2 & Hn2 & Hold2 & Hnew2);
    [done|lia|done|lia|intros _; apply Hgrant; [done|lia]|].
  rewrite Hext1 in Hext2.
  change (reserve_capacity 100000 200000) with 200000 in Hext2.
  rewrite (bind_ok _ _ _ _ _ Hrun2).
  destruct (resize_init_holding a2 e2 200000 400000 true)
    as (a3 & e3 & Hrun3 & Hlim3 & Hok3 & Hext3 & He3 & Hn3 & Hold3 & Hnew3);
    [done|lia|done|lia|intros _; apply Hgrant; [congruence|lia]|].
  rewrite Hext2 in Hext3.
  change (reserve_capacity 200000 400000) with 400000 in Hext3.
  exists a3, (holding e3 400000). split; [done|].
  rewrite size_holding by lia. split; [done|].
  assert (∀ i, i < 400000 → index (holding e3 400000) i = inr (cells_of e3 !! i))
    as Hindex.
  { intros i Hi. rewrite index_holding by lia.
    by rewrite (proj2 (N.ltb_lt i 400000)). }
  repeat split; intros i Hi; rewrite Hindex by lia.
  - rewrite Hold3, Hold2 by lia. f_equal. apply Hnew1. lia.
  - rewrite Hold3 by lia. f_equal. apply Hnew2. lia.
  - f_equal. apply Hnew3. lia.
Qed.

(** * Further properties of the container *)

(** ** Element access and the pointers to the data *)

Section Access.
Context {T : Type} `{ET : ElementType T}.
Implicit Types (b : block T) (e : option (block T)) (v : AlignedVector T).
Implicit Types (a : allocator) (c : gmap N T).

Local Arguments to_size_t : simpl never.
Local Arguments ptr_diff : simpl never.
Local Arguments N.ltb : simpl never.
Local Arguments N.leb : simpl never.
Local Arguments N.eqb : simpl never.
Local Arguments N.sub : simpl never.
Local Arguments ptr_add : simpl never.
Local Arguments get : simpl never.
Local Arguments extent_of : simpl never.

Lemma not_none_of_extent e k : k < extent_of e → e ≠ None.
Proof. destruct e; [done|]. unfold extent_of. lia. Qed.

(** X1. In a well-formed container [empty()] holds exactly when
    [size()] is 0, which is exactly when [begin()] and [end()] coincide;
    [data()] is [begin()], [end()] is not before [begin()], and the
    distance between the two is [size()]. *)
Theorem empty_iff_size_zero v :
  wf v →
  (empty v = true ↔ size v = 0)
  ∧ (begin v = end_ v ↔ size v = 0)
  ∧ data v = begin v
  ∧ ptr_le (begin v) (end_ v) = true
  ∧ ptr_diff (end_ v) (begin v) = Z.of_N (size v).
Proof.
  intros (e & u & -> & Hok & Hu & He)%wf_holding.
  unfold empty, begin, end_, data. simpl.
  rewrite size_holding by lia.
  assert (Ptr (blk (get e)) u = get e ↔ u = 0) as Hiff.
  { rewrite (get_blk e) at 2. split; [by intros [=]|by intros ->]. }
  split; [|split; [|split; [done|split]]].
  - by rewrite bool_decide_eq_true.
  - rewrite <- Hiff. split; by intros ->.
  - apply ptr_le_holding.
  - unfold ptr_diff. simpl. rewrite off_get. lia.
Qed.

(** X2. [back()] on a well-formed container: an empty container fails
    the index assertion, and otherwise [back()] is the element at index
    [size() - 1]. *)
Theorem back_is_last_element v :
  wf v →
  (size v = 0 → back v = inl ExcIndexRange)
  ∧ (0 < size v → back v = index v (size v - 1)).
Proof.
  intros (e & u & -> & Hok & Hu & He)%wf_holding.
  rewrite size_holding by lia. split.
  - intros ->. unfold back. by rewrite size_holding.
  - intros Hpos. rewrite back_holding, index_holding by done.
    by rewrite (proj2 (N.ltb_lt (u - 1) u)) by lia.
Qed.

Lemma set_index_holding a e u i x :
  u ≤ extent_of e → extent_of e < 2 ^ 64 → i < u →
  set_index i x (mkMachine a (holding e u))
  = Ok tt (mkMachine a (holding (with_cells e (<[i := x]> (cells_of e))) u)).
Proof.
  intros Hu He Hi. unfold set_index, bind, get_this. simpl.
  rewrite size_holding, (proj2 (N.ltb_lt i u)) by lia.
  rewrite ptr_add_get by lia. simpl.
  apply store_holding; [apply (not_none_of_extent e i)|]; lia.
Qed.

(** X3. [operator[]] on a well-formed container of size [s]: an index
    [i >= s] fails the index assertion, for reading and for writing,
    also when [i] is below the capacity; for [i < s], after [v[i] = x]
    reading [v[i]] gives [x], every other element reads as before, and
    size, capacity and the allocator are as they were. *)
Theorem index_after_assignment a v i x :
  wf v →
  (size v ≤ i →
   index v i = inl ExcIndexRange
   ∧ set_index i x (mkMachine a v) = Abort ExcIndexRange)
  ∧ (i < size v →
     ∃ v', set_index i x (mkMachine a v) = Ok tt (mkMachine a v')
           ∧ size v' = size v ∧ capacity v' = capacity v
           ∧ index v' i = inr (Some x)
           ∧ ∀ j, j ≠ i → index v' j = index v j).
Proof.
  intros (e & u & -> & Hok & Hu & He)%wf_holding.
  rewrite size_holding by lia. split.
  - intros Hi. rewrite index_holding by done.
    unfold set_index, bind, get_this. simpl. rewrite size_holding by lia.
    by rewrite (proj2 (N.ltb_ge i u)) by lia.
  - intros Hi. rewrite set_index_holding by done.
    assert (e ≠ None) by (apply (not_none_of_extent e i); lia).
    eexists. split; [done|].
    rewrite size_holding, !capacity_holding
      by (rewrite ?extent_of_with_cells; lia).
    rewrite extent_of_with_cells.
    split; [done|split; [done|split]].
    + rewrite index_holding by (rewrite ?extent_of_with_cells; lia).
      rewrite (proj2 (N.ltb_lt i u)), cells_of_with_cells by done.
      by rewrite lookup_insert_eq.
    + intros j Hj.
      rewrite !index_holding by (rewrite ?extent_of_with_cells; lia).
      rewrite cells_of_with_cells by done.
      by rewrite lookup_insert_ne.
Qed.

End Access.

(** ** Filling and the sized constructor *)

Section Fill.
Context {T : Type} `{ET : ElementType T}.
Implicit Types (b : block T) (e : option (block T)) (v : AlignedVector T).
Implicit Types (a : allocator) (c : gmap N T).

Local Arguments to_size_t : simpl never.
Local Arguments ptr_diff : simpl never.
Local Arguments N.ltb : simpl never.
Local Arguments N.leb : simpl never.
Local Arguments N.eqb : simpl never.
Local Arguments N.sub : simpl never.
Local Arguments N.max : simpl never.
Local Arguments N.mul : simpl never.
Local Arguments ptr_add : simpl never.
Local Arguments get : simpl never.
Local Arguments extent_of : simpl never.
Local Arguments AlignedVectorSet : simpl never.
Local Arguments AlignedVectorDefaultInitialize : simpl never.
Local Arguments resize_init : simpl never.

Lemma set_elements_holding a e u c :
  set_elements (with_cells e c) (mkMachine a (holding e u))
  = Ok tt (mkMachine a (holding (with_cells e c) u)).
Proof.
  unfold set_elements, bind, get_this, set_this. simpl.
  by rewrite holding_with_cells.
Qed.

(** What a bulk primitive that stores [x] in the first [u] slots makes
    of a container with [u] elements. *)
Lemma filled_holding e u x c' :
  u ≤ extent_of e → extent_of e < 2 ^ 64 →
  (∀ j, c' !! j = if decide (0 ≤ j < 0 + u) then Some x else cells_of e !! j) →
  let v' := holding (with_cells e c') u in
  size v' = u ∧ capacity v' = extent_of e
  ∧ (∀ i, i < u → index v' i = inr (Some x))
  ∧ (∀ j, u ≤ j → cells_of (elements v') !! j = cells_of e !! j).
Proof.
  intros Hu He Hc'. simpl.
  rewrite !size_holding, !capacity_holding
    by (rewrite ?extent_of_with_cells; lia).
  rewrite extent_of_with_cells.
  split; [done|split; [done|split]].
  - intros i Hi.
    rewrite index_holding by (rewrite ?extent_of_with_cells; lia).
    rewrite (proj2 (N.ltb_lt i u)) by done.
    rewrite cells_of_with_cells by (apply (not_none_of_extent e i); lia).
    rewrite Hc', decide_True by lia. done.
  - intros j Hj. destruct e as [b|]; [|done].
    rewrite cells_of_with_cells by done.
    rewrite Hc', decide_False by lia. done.
Qed.

(** X4. [fill(value)] on a well-formed container stores [value] in
    every element and nothing else: size and capacity, the slots beyond
    the size and the allocator are as before.  On an empty container,
    with or without a block, it does nothing. *)
Theorem fill_value_spec a v x :
  wf v →
  ∃ v',
    fill_value x (mkMachine a v) = Ok tt (mkMachine a v')
    ∧ size v' = size v ∧ capacity v' = capacity v
    ∧ (∀ i, i < size v → index v' i = inr (Some x))
    ∧ (∀ j, size v ≤ j →
         cells_of (elements v') !! j = cells_of (elements v) !! j).
Proof.
  intros (e & u & -> & Hok & Hu & He)%wf_holding.
  rewrite size_holding, capacity_holding by lia.
  unfold fill_value. unfold bind at 1, get_this at 1. simpl.
  rewrite size_holding by lia. rewrite (get_blk e).
  destruct (AlignedVectorSet_holding false u x e 0) as (c' & -> & Hc').
  { destruct (N.eq_dec u 0) as [->|Hu0]; [by left|right].
    split; [apply (not_none_of_extent e 0); lia|split; [done|lia]]. }
  simpl. unfold bind at 1, ret at 1. rewrite set_elements_holding.
  eexists. split; [done|]. by apply filled_holding.
Qed.

(** X5. [fill()] on a well-formed container stores in every element
    the value of [T()] when [T] is not trivial and zero bytes when it
    is, and nothing else: size and capacity, the slots beyond the size
    and the allocator are as before. *)
Theorem fill_default_spec a v :
  wf v →
  ∃ v',
    fill (mkMachine a v) = Ok tt (mkMachine a v')
    ∧ size v' = size v ∧ capacity v' = capacity v
    ∧ (∀ i, i < size v →
         index v' i
         = inr (Some (if is_trivial T then zero_value else default_value T)))
    ∧ (∀ j, size v ≤ j →
         cells_of (elements v') !! j = cells_of (elements v) !! j).
Proof.
  intros (e & u & -> & Hok & Hu & He)%wf_holding.
  rewrite size_holding, capacity_holding by lia.
  unfold fill. unfold bind at 1, get_this at 1. simpl.
  rewrite size_holding by lia. rewrite (get_blk e).
  destruct (AlignedVectorDefaultInitialize_holding false u e 0)
    as (c' & -> & Hc').
  { destruct (N.eq_dec u 0) as [->|Hu0]; [by left|right].
    split; [apply (not_none_of_extent e 0); lia|split; [done|lia]]. }
  simpl. unfold bind at 1, ret at 1. rewrite set_elements_holding.
  eexists. split; [done|]. by apply filled_holding.
Qed.

(** X6. The constructor [AlignedVector(size, init)]: when the
    allocator can grant [size] elements the new container has exactly
    that size and that capacity and every element is [init]; with size
    0 it asks for no memory and the container is as default
    constructed. *)
Theorem sized_constructor_spec a v0 n x :
  n < 2 ^ 64 → (0 < n → grantable a n) →
  ∃ a' v',
    AlignedVector_sized n x (mkMachine a v0) = Ok tt (mkMachine a' v')
    ∧ wf v' ∧ size v' = n ∧ capacity v' = n
    ∧ (∀ i, i < n → index v' i = inr (Some x))
    ∧ (n = 0 → a' = a ∧ v' = AlignedVector_default).
Proof.
  intros Hn Hgrant. unfold AlignedVector_sized.
  unfold bind, set_this at 1. simpl.
  destruct (N.ltb_spec 0 n) as [Hpos|Hzero]; simpl.
  - fold (AlignedVector_default (T:=T)). rewrite holding_default.
    destruct (resize_init_holding a None 0 n x)
      as (a' & e' & Hrun & _ & Hok' & Hext & He' & Hn' & _ & Hfresh);
      [done..| |].
    { intros _. change (extent_of None) with 0.
      replace (N.max n (2 * 0)) with n by lia. auto. }
    change (extent_of None) with 0 in Hext.
    assert (extent_of e' = n) as Hext'.
    { rewrite Hext. unfold reserve_capacity.
      rewrite (proj2 (N.ltb_lt 0 n)) by done. lia. }
    exists a', (holding e' n). rewrite Hrun.
    split; [done|]. split; [apply wf_holding_intro; (done || lia)|].
    rewrite size_holding, capacity_holding by lia.
    split; [done|split; [done|split]].
    + intros i Hi. rewrite index_holding by lia.
      rewrite (proj2 (N.ltb_lt i n)) by done.
      by rewrite Hfresh by lia.
    + lia.
  - assert (n = 0) as -> by lia.
    exists a, AlignedVector_default. unfold ret.
    split; [done|]. split; [apply wf_null|].
    split; [done|split; [done|split; [intros; lia|done]]].
Qed.

End Fill.

(** ** Shrinking, and [resize_fast] on trivial types *)

Section Shrink.
Context {T : Type} `{ET : ElementType T}.
Implicit Types (b : block T) (e : option (block T)) (v : AlignedVector T).
Implicit Types (a : allocator) (c : gmap N T).

Local Arguments to_size_t : simpl never.
Local Arguments ptr_diff : simpl never.
Local Arguments wrap64 : simpl never.
Local Arguments N.mul : simpl never.
Local Arguments N.max : simpl never.
Local Arguments N.sub : simpl never.
Local Arguments N.ltb : simpl never.
Local Arguments N.leb : simpl never.
Local Arguments N.eqb : simpl never.
Local Arguments ptr_add : simpl never.
Local Arguments get : simpl never.
Local Arguments extent_of : simpl never.
Local Arguments reserve : simpl never.
Local Arguments AlignedVectorSet : simpl never.
Local Arguments AlignedVectorDefaultInitialize : simpl never.

(** The slots after the elements from [n] on have been released: a
    type that is not trivial has them destroyed, a trivial one keeps
    what was there. *)
Lemma shrink_prefix a e u n (k : M (machine T) unit) :
  handle_ok e → u ≤ extent_of e → extent_of e < 2 ^ 64 → 0 < n → n ≤ u →
  ∃ c1,
    (destroy_released n u ;;; reserve n ;;; set_used_to n ;;; k)
      (mkMachine a (holding e u))
    = k (mkMachine a (holding (with_cells e c1) n))
    ∧ ∀ j, c1 !! j = if decide (n ≤ j < u)
                     then (if is_trivial T then cells_of e !! j else None)
                     else cells_of e !! j.
Proof.
  intros Hok Hu He Hn Hnu.
  assert (e ≠ None) by (apply (not_none_of_extent e 0); lia).
  assert (∃ c1 u1,
    destroy_released n u (mkMachine a (holding e u))
    = Ok tt (mkMachine a (holding (with_cells e c1) u1))
    ∧ u1 ≤ u
    ∧ ∀ j, c1 !! j = if decide (n ≤ j < u)
                     then (if is_trivial T then cells_of e !! j else None)
                     else cells_of e !! j) as (c1 & u1 & Hrun1 & Hu1 & Hc1).
  { unfold destroy_released.
    destruct (negb (is_trivial T) && (n <? u)) eqn:Hcond; simpl.
    - apply andb_true_iff in Hcond as [Htriv%negb_true_iff Hlt%N.ltb_lt].
      unfold bind, get_this. simpl. rewrite ptr_add_get by lia. simpl.
      unfold destroy_down_to, bind, get_this. simpl.
      destruct (destroy_back_holding (N.to_nat u) e u n)
        as (c' & Hrun & Hc'); [lia..|].
      rewrite Hrun. simpl. exists c', n. rewrite Htriv. done.
    - exists (cells_of e), u. rewrite with_cells_cells_of.
      split; [done|split; [done|]].
      intros j. case_decide as Hj; [|done].
      destruct (is_trivial T); [done|]. simpl in Hcond.
      apply N.ltb_ge in Hcond. lia. }
  rewrite (bind_ok _ _ _ _ _ Hrun1).
  rewrite (bind_ok _ _ _ _ _
             (reserve_noop a (with_cells e c1) u1 n
                ltac:(by rewrite extent_of_with_cells) Hn
                ltac:(rewrite extent_of_with_cells; lia))).
  rewrite (bind_ok _ _ _ _ _
             (set_used_to_holding a (with_cells e c1) u1 n
                ltac:(rewrite extent_of_with_cells; lia))).
  by exists c1.
Qed.

(** X7. Shrinking a well-formed container to a size [n] with
    [0 < n <= size()]: [resize(n)], [resize_fast(n)] and
    [resize(n, init)] all lead to the same state.  The block and the
    capacity stay, the allocator is not asked, the first [n] elements
    are as before; the elements from [n] on are destroyed when [T] is
    not trivial and stay in their slots, outside of the size, when it
    is.  With [n = 0] all three release the block. *)
Theorem resize_shrinks_in_place a v n x :
  wf v → n ≤ size v →
  (n = 0 →
   resize n (mkMachine a v) = Ok tt (mkMachine a AlignedVector_default)
   ∧ resize_fast n (mkMachine a v) = Ok tt (mkMachine a AlignedVector_default)
   ∧ resize_init n x (mkMachine a v)
     = Ok tt (mkMachine a AlignedVector_default))
  ∧ (0 < n →
     ∃ v',
       resize n (mkMachine a v) = Ok tt (mkMachine a v')
       ∧ resize_fast n (mkMachine a v) = Ok tt (mkMachine a v')
       ∧ resize_init n x (mkMachine a v) = Ok tt (mkMachine a v')
       ∧ size v' = n ∧ capacity v' = capacity v ∧ owned v' = owned v
       ∧ (∀ i, i < n → index v' i = index v i)
       ∧ (∀ j, n ≤ j →
            cells_of (elements v') !! j
            = if decide (j < size v)
              then (if is_trivial T then cells_of (elements v) !! j else None)
              else cells_of (elements v) !! j)).
Proof.
  intros (e & u & -> & Hok & Hu & He)%wf_holding.
  rewrite size_holding, capacity_holding by lia. intros Hnu. split.
  - intros ->.
    destruct (destroy_released_holding a e u 0 Hok Hu)
      as (e1 & u1 & Hrun1 & Hok1 & Hext1 & Hu1 & _ & _).
    pose proof (reserve_zero a e1 u1 ltac:(lia) ltac:(lia)) as Hrun2.
    pose proof (set_used_to_holding (T:=T) a None 0 0 ltac:(done)) as Hrun3.
    rewrite <- holding_default in Hrun3.
    assert (∀ k : M (machine T) unit,
      (destroy_released 0 u ;;; reserve 0 ;;; set_used_to 0 ;;; k)
        (mkMachine a (holding e u))
      = k (mkMachine a AlignedVector_default)) as Hzero.
    { intros k. rewrite (bind_ok _ _ _ _ _ Hrun1), (bind_ok _ _ _ _ _ Hrun2).
      by rewrite (bind_ok _ _ _ _ _ Hrun3). }
    split; [|split].
    + unfold resize. unfold bind at 1, get_this at 1. simpl.
      rewrite size_holding by lia. rewrite Hzero.
      by rewrite (proj2 (N.ltb_ge u 0)) by lia.
    + unfold resize_fast. unfold bind at 1, get_this at 1. simpl.
      rewrite size_holding by lia. rewrite Hzero.
      by rewrite (proj2 (N.ltb_ge u 0)), andb_false_r by lia.
    + unfold resize_init. unfold bind at 1, get_this at 1. simpl.
      rewrite size_holding by lia. rewrite Hzero.
      by rewrite (proj2 (N.ltb_ge u 0)) by lia.
  - intros Hn.
    assert (e ≠ None) by (apply (not_none_of_extent e 0); lia).
    destruct (shrink_prefix a e u n (ret tt)) as (c1 & _ & Hc1); [done..|].
    assert (∀ k : M (machine T) unit,
      (destroy_released n u ;;; reserve n ;;; set_used_to n ;;; k)
        (mkMachine a (holding e u))
      = k (mkMachine a (holding (with_cells e c1) n))) as Hprefix.
    { intros k.
      destruct (shrink_prefix a e u n k) as (c2 & -> & Hc2); [done..|].
      assert (c2 = c1) as ->; [|done].
      apply map_eq. intros j. by rewrite Hc1, Hc2. }
    exists (holding (with_cells e c1) n).
    split; [|split; [|split]].
    + unfold resize. unfold bind at 1, get_this at 1. simpl.
      rewrite size_holding by lia. rewrite Hprefix.
      by rewrite (proj2 (N.ltb_ge u n)) by lia.
    + unfold resize_fast. unfold bind at 1, get_this at 1. simpl.
      rewrite size_holding by lia. rewrite Hprefix.
      by rewrite (proj2 (N.ltb_ge u n)), andb_false_r by lia.
    + unfold resize_init. unfold bind at 1, get_this at 1. simpl.
      rewrite size_holding by lia. rewrite Hprefix.
      by rewrite (proj2 (N.ltb_ge u n)) by lia.
    + rewrite size_holding, capacity_holding
        by (rewrite ?extent_of_with_cells; lia).
      rewrite extent_of_with_cells.
      split; [done|split; [done|split; [|split]]].
      * unfold owned. simpl. by rewrite get_with_cells.
      * intros i Hi.
        rewrite !index_holding by (rewrite ?extent_of_with_cells; lia).
        rewrite (proj2 (N.ltb_lt i n)), (proj2 (N.ltb_lt i u)) by lia.
        rewrite cells_of_with_cells by done.
        by rewrite Hc1, decide_False by lia.
      * intros j Hj. simpl. rewrite cells_of_with_cells by done.
        rewrite Hc1. repeat case_decide; (done || lia).
Qed.

(** X8. [resize_fast(n)] on a trivial element type, with
    [0 < n <= capacity()], moves the end of the used range and does
    nothing else: no slot is written and the allocator is not asked.
    So after [resize_fast(n)] a second [resize_fast] back to the former
    size restores the container, the former values included. *)
Theorem resize_fast_trivial_keeps_slots a v n :
  wf v → is_trivial T = true → 0 < n → n ≤ capacity v →
  resize_fast n (mkMachine a v)
  = Ok tt (mkMachine a
             (mkAlignedVector (elements v) (Ptr (blk (get (elements v))) n)
                (allocated_elements_end v)))
  ∧ (0 < size v →
     (resize_fast n ;;; resize_fast (size v)) (mkMachine a v)
     = Ok tt (mkMachine a v)).
Proof.
  intros (e & u & -> & Hok & Hu & He)%wf_holding Htriv Hn.
  rewrite size_holding, capacity_holding by lia. intros Hcap.
  assert (∀ u' m, u' ≤ extent_of e → 0 < m → m ≤ extent_of e →
    resize_fast m (mkMachine a (holding e u'))
    = Ok tt (mkMachine a (holding e m))) as Hstep.
  { intros u' m Hu' Hm Hm'. unfold resize_fast.
    unfold bind at 1, get_this at 1. simpl.
    unfold destroy_released. rewrite Htriv. simpl.
    unfold bind at 1, ret at 1.
    rewrite (bind_ok _ _ _ _ _ (reserve_noop a e u' m He Hm Hm')).
    by rewrite (bind_ok _ _ _ _ _ (set_used_to_holding a e u' m Hm')). }
  split.
  - by rewrite Hstep.
  - intros Hpos. unfold bind. rewrite Hstep by done. by rewrite Hstep.
Qed.

End Shrink.

(** ** When the allocator refuses *)

Section Allocation.
Context {T : Type} `{ET : ElementType T}.
Implicit Types (b : block T) (e : option (block T)) (v : AlignedVector T).
Implicit Types (a : allocator) (c : gmap N T).

Local Arguments to_size_t : simpl never.
Local Arguments ptr_diff : simpl never.
Local Arguments wrap64 : simpl never.
Local Arguments N.mul : simpl never.
Local Arguments N.max : simpl never.
Local Arguments N.div : simpl never.
Local Arguments N.sub : simpl never.
Local Arguments N.ltb : simpl never.
Local Arguments N.leb : simpl never.
Local Arguments N.eqb : simpl never.
Local Arguments ptr_add : simpl never.
Local Arguments get : simpl never.
Local Arguments extent_of : simpl never.
Local Arguments AlignedVectorMove : simpl never.

(** [reserve] has asked for [bytes] bytes and the allocator has
    refused. *)
Lemma reserve_refused a e u n :
  u ≤ extent_of e → extent_of e < 2 ^ 64 → extent_of e < n →
  let bytes := wrap64 (N.max n (wrap64 (2 * extent_of e)) * sizeof T) in
  limit a < bytes →
  reserve n (mkMachine a (holding e u))
  = Throw (ExcOutOfMemory bytes) (mkMachine (refused a bytes) (holding e u)).
Proof.
  intros Hu He Hn bytes Hlim.
  unfold reserve, bind, get_this. simpl.
  rewrite !ptr_diff_holding by lia.
  rewrite (proj2 (N.ltb_lt _ _)) by lia.
  unfold posix_memalign. simpl. fold bytes.
  by rewrite (proj2 (N.leb_gt _ _)) by done.
Qed.

(** X9. Strong exception guarantee of the growing calls.  When
    [reserve(n)], [resize(n)], [resize_fast(n)] or [resize(n, init)]
    needs more than the capacity and the allocator refuses the
    [max(n, 2 * capacity()) * sizeof(T)] bytes, the call throws and the
    container is exactly as before: same block, same elements, same
    size; the allocator has only recorded the request. *)
Theorem refused_allocation_keeps_container a v n x :
  wf v → capacity v < n →
  let bytes := N.max n (2 * capacity v) * sizeof T in
  bytes < 2 ^ 64 → limit a < bytes →
  let s := mkMachine (refused a bytes) v in
  reserve n (mkMachine a v) = Throw (ExcOutOfMemory bytes) s
  ∧ resize n (mkMachine a v) = Throw (ExcOutOfMemory bytes) s
  ∧ resize_fast n (mkMachine a v) = Throw (ExcOutOfMemory bytes) s
  ∧ resize_init n x (mkMachine a v) = Throw (ExcOutOfMemory bytes) s.
Proof.
  intros (e & u & -> & Hok & Hu & He)%wf_holding.
  rewrite capacity_holding by lia. intros Hn bytes Hfit Hlim s.
  pose proof sizeof_pos as Hs.
  assert (wrap64 (N.max n (wrap64 (2 * extent_of e)) * sizeof T) = bytes)
    as Hbytes.
  { unfold bytes in *. rewrite (wrap64_small (2 * extent_of e)) by nia.
    by apply wrap64_small. }
  pose proof (reserve_refused a e u n Hu He Hn) as Hrun. simpl in Hrun.
  rewrite Hbytes in Hrun. specialize (Hrun Hlim). fold s in Hrun.
  assert (destroy_released n u (mkMachine a (holding e u))
          = Ok tt (mkMachine a (holding e u))) as Hkeep.
  { unfold destroy_released.
    by rewrite (proj2 (N.ltb_ge n u)), andb_false_r by lia. }
  split; [done|].
  split; [|split].
  - unfold resize. unfold bind at 1, get_this at 1. simpl.
    rewrite size_holding by lia.
    rewrite (bind_ok _ _ _ _ _ Hkeep). unfold bind at 1. by rewrite Hrun.
  - unfold resize_fast. unfold bind at 1, get_this at 1. simpl.
    rewrite size_holding by lia.
    rewrite (bind_ok _ _ _ _ _ Hkeep). unfold bind at 1. by rewrite Hrun.
  - unfold resize_init. unfold bind at 1, get_this at 1. simpl.
    rewrite size_holding by lia.
    rewrite (bind_ok _ _ _ _ _ Hkeep). unfold bind at 1. by rewrite Hrun.
Qed.

(** X10. The same for [push_back] on a full container: when the
    allocator refuses the [max(2 * capacity(), 16) * sizeof(T)] bytes,
    [push_back] throws, nothing is appended and the container is
    exactly as before. *)
Theorem push_back_refused_keeps_container a v x :
  wf v → size v = capacity v →
  let bytes := N.max (2 * capacity v) 16 * sizeof T in
  bytes < 2 ^ 64 → limit a < bytes →
  push_back x (mkMachine a v)
  = Throw (ExcOutOfMemory bytes) (mkMachine (refused a bytes) v).
Proof.
  intros (e & u & -> & Hok & Hu & He)%wf_holding.
  rewrite size_holding, capacity_holding by lia.
  intros -> bytes Hfit Hlim. pose proof sizeof_pos as Hs.
  assert (wrap64 (2 * extent_of e) = 2 * extent_of e) as Hw
    by (apply wrap64_small; unfold bytes in *; nia).
  pose proof (reserve_refused a e (extent_of e)
                (N.max (wrap64 (2 * extent_of e)) 16) Hu He) as Hrun.
  simpl in Hrun. rewrite Hw in Hrun.
  replace (N.max (N.max (2 * extent_of e) 16) (2 * extent_of e))
    with (N.max (2 * extent_of e) 16) in Hrun by lia.
  fold bytes in Hrun. rewrite (wrap64_small bytes) in Hrun by done.
  specialize (Hrun ltac:(lia) Hlim).
  unfold push_back. unfold bind at 1, get_this at 1. simpl.
  unfold ptr_le. simpl. rewrite N.eqb_refl, (proj2 (N.leb_le _ _)) by done.
  simpl. unfold bind at 1. simpl.
  rewrite capacity_holding by done. rewrite Hw.
  rewrite bool_decide_eq_true_2 by done. simpl.
  unfold bind at 1. by rewrite Hrun.
Qed.

End Allocation.

(** ** Copies, move assignment and swap *)

Section Copies.
Context {T : Type} `{ET : ElementType T}.
Implicit Types (b : block T) (e : option (block T)) (v : AlignedVector T).
Implicit Types (a : allocator) (c : gmap N T) (w : world T).

Local Arguments to_size_t : simpl never.
Local Arguments ptr_diff : simpl never.
Local Arguments wrap64 : simpl never.
Local Arguments N.mul : simpl never.
Local Arguments N.max : simpl never.
Local Arguments N.sub : simpl never.
Local Arguments N.ltb : simpl never.
Local Arguments N.leb : simpl never.
Local Arguments N.eqb : simpl never.
Local Arguments ptr_add : simpl never.
Local Arguments get : simpl never.
Local Arguments extent_of : simpl never.
Local Arguments reserve : simpl never.
Local Arguments resize : simpl never.
Local Arguments resize_fast : simpl never.
Local Arguments AlignedVectorCopy : simpl never.

Lemma copy_of_observed e e' u :
  u ≤ extent_of e → extent_of e < 2 ^ 64 → copy_of e e' u →
  wf (holding e' u)
  ∧ size (holding e' u) = u
  ∧ capacity (holding e' u) = u
  ∧ ∀ i, i < u → index (holding e' u) i = index (holding e u) i.
Proof.
  intros Hu He (Hok' & Hext & Hc').
  rewrite !size_holding, capacity_holding by lia.
  split; [apply wf_holding_intro; (done || lia)|].
  split; [done|split; [done|]].
  intros i Hi. rewrite !index_holding by lia.
  rewrite (proj2 (N.ltb_lt i u)) by done. by rewrite Hc'.
Qed.

Lemma AlignedVector_copy_holding a v0 e u :
  handle_ok e → u ≤ extent_of e → extent_of e < 2 ^ 64 →
  (0 < u → grantable a u) →
  ∃ a' e',
    AlignedVector_copy (holding e u) (mkMachine a v0)
    = Ok tt (mkMachine a' (holding e' u))
    ∧ copy_of e e' u
    ∧ (u = 0 → a' = a ∧ e' = None)
    ∧ (0 < u → a' = granted a u ∧ blk (get e') = N.succ (allocated a)).
Proof.
  intros Hok Hu He Hgrant. unfold AlignedVector_copy.
  unfold bind at 1, set_this at 1. simpl.
  rewrite size_holding by lia.
  fold (AlignedVector_default (T:=T)). rewrite holding_default.
  destruct (N.eq_dec u 0) as [->|Hu0].
  - rewrite (bind_ok _ _ _ _ _
               (reserve_zero a None 0 ltac:(done) ltac:(done))).
    unfold bind at 1, get_this at 1. simpl.
    unfold bind at 1, set_used_elements_end, bind, get_this, set_this. simpl.
    change nullptr with (get (T:=T) None).
    destruct (AlignedVectorCopy_holding e 0 None) as (c' & Hrun & _);
      [lia|lia|by left|].
    rewrite Hrun. simpl.
    exists a, None. split; [done|].
    split; [|split; [done|lia]].
    split; [done|split; [done|intros; lia]].
  - destruct (reserve_grow a None 0 u) as (c1 & Hrun & Hc1);
      [lia|done|change (extent_of None) with 0; lia| |].
    { change (extent_of None) with 0.
      replace (N.max u (2 * 0)) with u by lia. apply Hgrant. lia. }
    change (extent_of None) with 0 in Hrun.
    replace (N.max u (2 * 0)) with u in Hrun by lia.
    rewrite (bind_ok _ _ _ _ _ Hrun).
    set (d := Block (N.succ (allocated a)) u c1).
    unfold bind at 1, get_this at 1. simpl.
    unfold bind at 1, set_used_elements_end, bind, get_this, set_this. simpl.
    change (extent_of (Some d)) with u.
    change (Ptr (bid d) 0) with (get (Some d)).
    destruct (AlignedVectorCopy_holding e u (Some d)) as (c' & Hcopy & Hc');
      [lia|lia|right; split; [done|split; [simpl; lia|done]]|].
    simpl in Hcopy. simpl. rewrite Hcopy. simpl.
    exists (granted a u), (Some (Block (N.succ (allocated a)) u c')).
    split; [done|].
    split; [|split; [lia|done]].
    split; [simpl; lia|split; [done|]].
    intros j Hj. simpl. by rewrite Hc', decide_True.
Qed.

(** X12. The copy constructor makes a deep copy in a block of its
    own: the new container has the size and the elements of the source
    and a capacity equal to that size, whatever the capacity of the
    source; the source and every other object are untouched.  Copying
    an empty container asks for no memory. *)
Theorem copy_construct_spec w A B v :
  objs w !! A = Some v → objs w !! B = None → wf v →
  (0 < size v → grantable (mem w) (size v)) →
  ∃ w' vB,
    exec (OpCopyConstruct B A) w = Ok tt w'
    ∧ objs w' = <[B := vB]> (objs w)
    ∧ wf vB ∧ size vB = size v ∧ capacity vB = size v
    ∧ (∀ i, i < size v → index vB i = index v i)
    ∧ (size v = 0 → mem w' = mem w ∧ vB = AlignedVector_default)
    ∧ (0 < size v →
       mem w' = granted (mem w) (size v)
       ∧ owned vB = N.succ (allocated (mem w))).
Proof.
  intros HA HB (e & u & -> & Hok & Hu & He)%wf_holding.
  rewrite size_holding by lia. intros Hgrant.
  unfold exec, bind, deref, construct. rewrite HA, HB.
  destruct (AlignedVector_copy_holding (mem w)
              (mkAlignedVector None nullptr nullptr) e u)
    as (a' & e' & -> & Hcopy & Hzero & Hpos); [done..|].
  destruct (copy_of_observed e e' u Hu He Hcopy) as (Hwf & Hsize & Hcap & Hidx).
  exists (mkWorld a' (<[B := holding e' u]> (objs w))), (holding e' u).
  simpl. split; [done|split; [done|]].
  split; [done|split; [done|split; [done|split; [done|split]]]].
  - intros ->. destruct (Hzero eq_refl) as [-> ->]. done.
  - intros Hu0. by destruct (Hpos Hu0) as [-> Hblk].
Qed.

(** X13. Copy assignment between two different objects releases the
    block of the target and copies into a new one: afterwards the
    target has the size and the elements of the source and a capacity
    equal to that size; the source and every other object are
    untouched.  Assigning an empty container leaves the target without
    a block. *)
Theorem copy_assign_spec w A B vA vB :
  A ≠ B → objs w !! A = Some vA → objs w !! B = Some vB → wf vA → wf vB →
  (0 < size vB → grantable (mem w) (size vB)) →
  ∃ w' vA',
    copy_assign A B w = Ok tt w'
    ∧ objs w' = <[A := vA']> (objs w)
    ∧ wf vA' ∧ size vA' = size vB ∧ capacity vA' = size vB
    ∧ (∀ i, i < size vB → index vA' i = index vB i)
    ∧ (size vB = 0 → vA' = AlignedVector_default).
Proof.
  intros Hne HA HB (eA & uA & -> & HokA & HuA & HeA)%wf_holding
    (e & u & -> & Hok & Hu & He)%wf_holding.
  rewrite size_holding by lia. intros Hgrant.
  unfold copy_assign.
  unfold bind at 1, call at 1. rewrite HA. simpl.
  rewrite resize_zero by done. simpl.
  unfold bind at 1, deref at 1. simpl.
  rewrite lookup_insert_ne, HB by done.
  unfold bind at 1, call at 1. simpl. rewrite lookup_insert_eq.
  rewrite ptr_diff_holding by lia.
  rewrite holding_default.
  destruct (resize_fast_holding (mem w) None 0 u)
    as (a' & e1 & Hrun & _ & Hok1 & Hext1 & He1 & Hu1 & _ & _);
    [done..|lia| |].
  { change (extent_of None) with 0.
    replace (N.max u (2 * 0)) with u by lia. intros. apply Hgrant. lia. }
  rewrite Hrun. simpl.
  unfold bind at 1, deref at 1. simpl.
  rewrite lookup_insert_ne by done. rewrite lookup_insert_ne, HB by done.
  unfold call. simpl. rewrite lookup_insert_eq.
  unfold bind at 1, get_this at 1. simpl.
  change (extent_of None) with 0 in Hext1.
  assert (extent_of e1 = u) as Hext.
  { rewrite Hext1. unfold reserve_capacity.
    destruct (N.ltb_spec 0 u); [lia|]. destruct (N.eqb_spec u 0); lia. }
  destruct (AlignedVectorCopy_holding e u e1) as (c' & Hcopy & Hc');
    [lia|lia| |].
  { destruct (N.eq_dec u 0) as [->|Hu0]; [by left|right].
    split; [apply (not_none_of_extent e1 0); lia|split; [done|lia]]. }
  rewrite Hcopy. simpl.
  rewrite holding_with_cells, !insert_insert_eq.
  assert (copy_of e (with_cells e1 c') u) as Hcopy_of.
  { split; [by apply handle_ok_with_cells|].
    split; [by rewrite extent_of_with_cells|].
    intros j Hj.
    rewrite cells_of_with_cells by (apply (not_none_of_extent e1 j); lia).
    by rewrite Hc', decide_True. }
  destruct (copy_of_observed e _ u Hu He Hcopy_of) as (Hwf & Hsize & Hcap & Hidx).
  eexists _, (holding (with_cells e1 c') u).
  split; [done|]. simpl.
  split; [done|split; [done|split; [done|split; [done|split; [done|]]]]].
  intros ->. destruct e1 as [b1|]; [|done].
  unfold extent_of in Hext. simpl in Hext.
  exfalso. clear -Hrun Hext.
  (* with nothing to reserve, [resize_fast(0)] leaves no block *)
  rewrite <- holding_default, resize_fast_zero_default in Hrun.
  by injection Hrun.
Qed.

(** X14. Move assignment hands the block of the source over: the
    elements of the target are destroyed and its block released, the
    target takes the three pointers of the source, and the source is
    left as default constructed; no allocation takes place and the
    other objects are untouched.  Moving a container into itself
    leaves it empty. *)
Theorem move_assign_spec w A B vA vB :
  objs w !! A = Some vA → objs w !! B = Some vB → wf vA →
  ∃ w',
    move_assign A B w = Ok tt w'
    ∧ mem w' = mem w
    ∧ objs w' !! B = Some AlignedVector_default
    ∧ (A ≠ B → objs w' !! A = Some vB)
    ∧ ∀ C, C ≠ A → C ≠ B → objs w' !! C = objs w !! C.
Proof.
  intros HA HB (e & u & -> & Hok & Hu & He)%wf_holding.
  unfold move_assign. unfold bind at 1, call at 1. rewrite HA.
  rewrite clear_holding by done. simpl.
  destruct (decide (A = B)) as [->|Hne].
  - unfold bind, deref, assign. simpl.
    repeat (rewrite lookup_insert_eq; simpl).
    eexists. split; [done|]. simpl.
    split; [done|split; [by rewrite lookup_insert_eq|split; [done|]]].
    intros C HC _. rewrite !lookup_insert_ne by done. done.
  - unfold bind at 1, deref at 1. simpl.
    rewrite lookup_insert_ne, HB by done.
    unfold bind, deref, assign. simpl.
    repeat (rewrite ?lookup_insert_eq;
            rewrite ?(lookup_insert_ne _ B A) by done;
            rewrite ?(lookup_insert_ne _ A B) by done; simpl).
    eexists. split; [done|]. simpl.
    split; [done|split; [by rewrite lookup_insert_eq|split]].
    + intros _. rewrite !(lookup_insert_ne _ B A) by done.
      rewrite lookup_insert_eq. by destruct vB.
    + intros C HCA HCB. rewrite !lookup_insert_ne by done. done.
Qed.

(** X15. [swap] exchanges the two containers, block and pointers, in
    whatever state they are; it touches neither the elements nor the
    allocator nor any other object.  Swapping a container with itself
    changes nothing, and swapping twice restores the store. *)
Theorem swap_spec w A B vA vB :
  objs w !! A = Some vA → objs w !! B = Some vB →
  (∃ w',
     swap A B w = Ok tt w'
     ∧ mem w' = mem w
     ∧ objs w' !! A = Some vB ∧ objs w' !! B = Some vA
     ∧ ∀ C, C ≠ A → C ≠ B → objs w' !! C = objs w !! C)
  ∧ (A = B → swap A B w = Ok tt w)
  ∧ (swap A B ;;; swap A B) w = Ok tt w.
Proof.
  intros HA HB.
  assert (∀ w0 v1 v2, objs w0 !! A = Some v1 → objs w0 !! B = Some v2 →
    ∃ w', swap A B w0 = Ok tt w'
          ∧ mem w' = mem w0
          ∧ objs w' !! A = Some v2 ∧ objs w' !! B = Some v1
          ∧ ∀ C, C ≠ A → C ≠ B → objs w' !! C = objs w0 !! C) as Hswap.
  { clear. intros w A' B' HA HB. rename A' into vA, B' into vB.
    unfold swap. unfold bind at 1, deref at 1. rewrite HA.
    destruct (decide (A = B)) as [->|Hne].
    - assert (vB = vA) as -> by congruence.
      unfold bind, deref, assign. simpl.
      repeat (rewrite lookup_insert_eq; simpl).
      eexists. split; [done|]. simpl. rewrite lookup_insert_eq.
      split; [done|split; [by destruct vA|split; [by destruct vA|]]].
      intros C HC _. rewrite !lookup_insert_ne by done. done.
    - unfold bind at 1, assign at 1. simpl.
      unfold bind at 1, deref at 1. simpl.
      rewrite lookup_insert_ne, HB by done.
      unfold bind, deref, assign. simpl.
      repeat (rewrite ?lookup_insert_eq;
              rewrite ?(lookup_insert_ne _ B A) by done;
              rewrite ?(lookup_insert_ne _ A B) by done; simpl).
      eexists. split; [done|]. simpl.
      rewrite lookup_insert_eq.
      rewrite !(lookup_insert_ne _ B A) by done. rewrite lookup_insert_eq.
      split; [done|split; [by destruct vB|split; [by destruct vA|]]].
      intros C HCA HCB. rewrite !lookup_insert_ne by done. done. }
  assert (∀ w0 w1, mem w1 = mem w0 → (∀ C, objs w1 !! C = objs w0 !! C) →
                   w1 = w0) as Hext.
  { intros [a0 o0] [a1 o1]. simpl. intros -> Hobjs. f_equal.
    by apply map_eq. }
  destruct (Hswap w vA vB HA HB) as (w' & Hrun & Hmem & HA' & HB' & Hrest).
  split; [by exists w'|]. split.
  - intros ->. rewrite Hrun. f_equal. apply Hext; [done|]. intros C.
    destruct (decide (C = B)) as [->|HC]; [congruence|by apply Hrest].
  - unfold bind. rewrite Hrun.
    destruct (Hswap w' vB vA HA' HB')
      as (w'' & Hrun' & Hmem' & HA'' & HB'' & Hrest').
    rewrite Hrun'. f_equal. apply Hext; [congruence|]. intros C.
    destruct (decide (C = A)) as [->|HCA]; [congruence|].
    destruct (decide (C = B)) as [->|HCB]; [congruence|].
    rewrite Hrest' by done. by apply Hrest.
Qed.

End Copies.

(** ** Comparison *)

Section Comparison.
Context {T : Type} `{ET : ElementType T} `{CT : Comparable T}.
Implicit Types (b : block T) (e : option (block T)) (v : AlignedVector T).
Implicit Types (a : allocator) (c : gmap N T) (w : world T).

Local Arguments to_size_t : simpl never.
Local Arguments ptr_diff : simpl never.
Local Arguments N.ltb : simpl never.
Local Arguments N.leb : simpl never.
Local Arguments N.eqb : simpl never.
Local Arguments N.sub : simpl never.
Local Arguments N.mul : simpl never.
Local Arguments N.max : simpl never.
Local Arguments ptr_add : simpl never.
Local Arguments get : simpl never.
Local Arguments extent_of : simpl never.
Local Arguments accessible : simpl never.

Lemma equal_loop_holding e1 e2 u :
  u ≤ extent_of e1 → u ≤ extent_of e2 →
  (∀ i, i < u → is_Some (cells_of e1 !! i)) →
  (∀ i, i < u → is_Some (cells_of e2 !! i)) →
  ∀ rounds i, i ≤ u → (N.to_nat (u - i) < rounds)%nat →
    ∃ r,
      equal_loop rounds (Ptr (blk (get e1)) i) (Ptr (blk (get e2)) i)
        (holding e1 u) (holding e2 u) = inr r
      ∧ (r = true ↔
         ∀ j x y, i ≤ j < u →
           cells_of e1 !! j = Some x → cells_of e2 !! j = Some y →
           ne x y = false).
Proof.
  intros Hu1 Hu2 Hinit1 Hinit2.
  induction rounds as [|rounds IH]; intros i Hi Hrounds; [lia|].
  simpl. unfold end_. simpl.
  case_bool_decide as Hend.
  - injection Hend as ->. exists true. split; [done|].
    split; [|done]. intros _ j x y Hj. lia.
  - assert (i < u) as Hlt by (apply N.le_neq; split; [done|by intros ->]).
    rewrite !accessible_holding
      by (apply (not_none_of_extent _ 0); lia).
    rewrite !bool_decide_eq_true_2 by lia. simpl.
    destruct (Hinit1 i Hlt) as [x Hx]. destruct (Hinit2 i Hlt) as [y Hy].
    rewrite Hx, Hy.
    destruct (ne x y) eqn:Hne.
    + exists false. split; [done|]. split; [done|].
      intros Hall. specialize (Hall i x y ltac:(lia) Hx Hy). congruence.
    + destruct (IH (i + 1)) as (r & -> & Hr); [lia..|].
      exists r. split; [done|]. rewrite Hr. split.
      * intros Hall j x' y' Hj Hx' Hy'.
        destruct (N.eq_dec j i) as [->|Hji]; [congruence|].
        apply (Hall j); (done || lia).
      * intros Hall j x' y' Hj. apply Hall. lia.
Qed.

Lemma operator_eq_holding e1 e2 u :
  u ≤ extent_of e1 → extent_of e1 < 2 ^ 64 →
  u ≤ extent_of e2 → extent_of e2 < 2 ^ 64 →
  (∀ i, i < u → is_Some (cells_of e1 !! i)) →
  (∀ i, i < u → is_Some (cells_of e2 !! i)) →
  ∃ r,
    operator_eq (holding e1 u) (holding e2 u) = inr r
    ∧ (r = true ↔
       ∀ j x y, j < u →
         cells_of e1 !! j = Some x → cells_of e2 !! j = Some y →
         ne x y = false).
Proof.
  intros Hu1 He1 Hu2 He2 Hinit1 Hinit2. unfold operator_eq.
  rewrite !size_holding by lia. rewrite N.eqb_refl. cbn [negb].
  unfold begin.
  change (elements (holding e1 u)) with e1.
  change (elements (holding e2 u)) with e2.
  destruct (equal_loop_holding e1 e2 u Hu1 Hu2 Hinit1 Hinit2
              (S (N.to_nat (extent_of e1))) 0) as (r & Hrun & Hr); [lia..|].
  rewrite <- !get_blk in Hrun.
  exists r. split; [done|]. rewrite Hr. split.
  - intros Hall j x y Hj. apply Hall. lia.
  - intros Hall j x y Hj. apply Hall. lia.
Qed.

Lemma index_holding_some e u i x :
  u ≤ extent_of e → extent_of e < 2 ^ 64 →
  index (holding e u) i = inr (Some x) ↔ i < u ∧ cells_of e !! i = Some x.
Proof.
  intros Hu He. rewrite index_holding by done.
  destruct (N.ltb_spec i u); split.
  - by intros [= ->].
  - by intros [_ ->].
  - done.
  - lia.
Qed.

(** X16. [operator==] on two well-formed containers.  With different
    sizes the answer is no, and no element is read.  With equal sizes
    and every element holding a value, the answer is yes exactly when
    [operator!=] of the element type says no for every pair of
    elements at the same index; the capacities play no part.
    [operator!=] on containers gives the opposite answer. *)
Theorem operator_eq_spec lhs rhs :
  wf lhs → wf rhs →
  (size lhs ≠ size rhs →
   operator_eq lhs rhs = inr false ∧ operator_ne lhs rhs = inr true)
  ∧ (size lhs = size rhs → initialized lhs → initialized rhs →
     ∃ r,
       operator_eq lhs rhs = inr r ∧ operator_ne lhs rhs = inr (negb r)
       ∧ (r = true ↔
          ∀ i x y, index lhs i = inr (Some x) → index rhs i = inr (Some y) →
                   ne x y = false)).
Proof.
  intros (e1 & u1 & -> & Hok1 & Hu1 & He1)%wf_holding
    (e2 & u2 & -> & Hok2 & Hu2 & He2)%wf_holding.
  unfold initialized. rewrite !size_holding by lia. simpl. split.
  - intros Hne. unfold operator_ne, operator_eq.
    rewrite !size_holding by lia.
    by rewrite (proj2 (N.eqb_neq u1 u2)) by done.
  - intros <- Hinit1 Hinit2.
    destruct (operator_eq_holding e1 e2 u1) as (r & Hrun & Hr); [done..|].
    exists r. unfold operator_ne. rewrite Hrun.
    split; [done|split; [done|]]. rewrite Hr. split.
    + intros Hall i x y [Hi Hx]%index_holding_some [_ Hy]%index_holding_some;
        [|done..].
      by apply (Hall i).
    + intros Hall j x y Hj Hx Hy.
      apply (Hall j); by apply index_holding_some.
Qed.

(** X17. A copy compares equal to its source: when every element of
    a well-formed container holds a value and no value of the element
    type differs from itself, the container made by the copy
    constructor and the source are equal by [operator==], whatever the
    capacity of the source. *)
Theorem copy_equals_original w A B v :
  (∀ x : T, ne x x = false) →
  objs w !! A = Some v → objs w !! B = None → wf v → initialized v →
  (0 < size v → grantable (mem w) (size v)) →
  ∃ w' vB,
    exec (OpCopyConstruct B A) w = Ok tt w'
    ∧ objs w' !! B = Some vB ∧ objs w' !! A = Some v
    ∧ operator_eq vB v = inr true ∧ operator_ne vB v = inr false.
Proof.
  intros Hrefl HA HB (e & u & -> & Hok & Hu & He)%wf_holding.
  unfold initialized. rewrite size_holding by lia. simpl.
  intros Hinit Hgrant.
  assert (A ≠ B) as Hne by (intros ->; congruence).
  unfold exec, bind, deref, construct. rewrite HA, HB.
  destruct (AlignedVector_copy_holding (mem w)
              (mkAlignedVector None nullptr nullptr) e u)
    as (a' & e' & -> & (Hok' & Hext & Hc') & _); [done..|].
  eexists _, (holding e' u). split; [done|]. simpl.
  rewrite lookup_insert_eq, lookup_insert_ne by done.
  split; [done|split; [done|]].
  destruct (operator_eq_holding e' e u) as (r & Hrun & Hr);
    [lia|lia|done|done| |done|].
  { intros i Hi. rewrite Hc' by done. by apply Hinit. }
  assert (r = true) as ->.
  { apply Hr. intros j x y Hj Hx Hy. rewrite Hc' in Hx by done.
    assert (x = y) as -> by congruence. apply Hrefl. }
  unfold operator_ne. by rewrite Hrun.
Qed.

End Comparison.

(** ** Memory consumption *)

Section Consumption.
Context {T : Type} `{ET : ElementType T} `{MT : Measured T}.
Implicit Types (b : block T) (e : option (block T)) (v : AlignedVector T).
Implicit Types (a : allocator) (c : gmap N T).

Local Arguments to_size_t : simpl never.
Local Arguments ptr_diff : simpl never.
Local Arguments wrap64 : simpl never.
Local Arguments N.ltb : simpl never.
Local Arguments N.leb : simpl never.
Local Arguments N.eqb : simpl never.
Local Arguments N.sub : simpl never.
Local Arguments N.mul : simpl never.
Local Arguments N.add : simpl never.
Local Arguments N.max : simpl never.
Local Arguments ptr_add : simpl never.
Local Arguments get : simpl never.
Local Arguments extent_of : simpl never.
Local Arguments accessible : simpl never.

Lemma slots_S c lo k : slots c lo (S k) = c !! lo :: slots c (lo + 1) k.
Proof.
  unfold slots. simpl. f_equal; [f_equal; lia|].
  rewrite <- fmap_S_seq, <- list_fmap_compose.
  apply list_fmap_ext. intros _ j _. simpl. f_equal. lia.
Qed.

Lemma wrap64_add_l x y : wrap64 (wrap64 x + y) = wrap64 (x + y).
Proof. unfold wrap64. by rewrite N.Div0.add_mod_idemp_l. Qed.

Lemma wrap64_add_r x y : wrap64 (x + wrap64 y) = wrap64 (x + y).
Proof. unfold wrap64. by rewrite N.Div0.add_mod_idemp_r. Qed.

Lemma wrap64_congr_add x x' y :
  wrap64 x = wrap64 x' → wrap64 (x + y) = wrap64 (x' + y).
Proof.
  intros Heq. by rewrite <- (wrap64_add_l x), <- (wrap64_add_l x'), Heq.
Qed.

Lemma to_size_t_sub x u :
  u ≤ x → x < 2 ^ 64 → to_size_t (Z.of_N x - Z.of_N u) = x - u.
Proof.
  intros Hu Hx. unfold to_size_t.
  rewrite Z.mod_small by lia. lia.
Qed.

Lemma consumption_loop_holding e u :
  u ≤ extent_of e →
  ∀ rounds i memory, i ≤ u → (N.to_nat (u - i) < rounds)%nat →
    ∃ r,
      consumption_loop rounds (Ptr (blk (get e)) i) (holding e u) memory
      = inr r
      ∧ wrap64 r
        = wrap64 (memory
                  + foldr N.add 0
                      (element_memory_consumption
                         <$> slots (cells_of e) i (N.to_nat (u - i)))).
Proof.
  intros Hu. induction rounds as [|rounds IH]; intros i memory Hi Hrounds;
    [lia|].
  simpl. case_bool_decide as Hend.
  - injection Hend as ->. exists memory. split; [done|].
    replace (u - u) with 0 by lia. simpl. f_equal. lia.
  - assert (i < u) as Hlt by (apply N.le_neq; split; [done|by intros ->]).
    rewrite accessible_holding by (apply (not_none_of_extent _ 0); lia).
    rewrite bool_decide_eq_true_2 by lia.
    destruct (IH (i + 1)
                (wrap64 (memory + element_memory_consumption (cells_of e !! i))))
      as (r & -> & Hr); [lia..|].
    exists r. split; [done|]. rewrite Hr.
    replace (N.to_nat (u - i)) with (S (N.to_nat (u - (i + 1)))) by lia.
    rewrite slots_S, fmap_cons. cbn [foldr]. rewrite wrap64_add_l. f_equal. lia.
Qed.

(** X18. [memory_consumption()] of a well-formed container is, in
    [std::size_t] arithmetic, the size of the object itself plus what
    the elements consume by the measure of the element type plus
    [sizeof(T)] for every reserved slot beyond the size.  For an
    element type that consumes [sizeof(T)], as the fundamental types
    do, this is the size of the object plus [sizeof(T)] times the
    capacity. *)
Theorem memory_consumption_spec v :
  wf v →
  memory_consumption v
  = inr (wrap64 (sizeof_this T + elements_consumption v
                 + sizeof T * (capacity v - size v)))
  ∧ ((∀ o, element_memory_consumption o = sizeof T) →
     memory_consumption v
     = inr (wrap64 (sizeof_this T + sizeof T * capacity v))).
Proof.
  intros (e & u & -> & Hok & Hu & He)%wf_holding.
  assert (memory_consumption (holding e u)
          = inr (wrap64 (sizeof_this T + elements_consumption (holding e u)
                         + sizeof T * (extent_of e - u)))) as Hrun.
  { unfold memory_consumption, elements_consumption.
    rewrite size_holding by lia.
    change (elements (holding e u)) with e.
    change (used_elements_end (holding e u)) with (Ptr (blk (get e)) u).
    change (allocated_elements_end (holding e u))
      with (Ptr (blk (get e)) (extent_of e)).
    destruct (consumption_loop_holding e u Hu
                (S (N.to_nat (extent_of e))) 0 (sizeof_this T))
      as (r & Hloop & Hr); [lia..|].
    rewrite <- get_blk in Hloop. rewrite Hloop.
    replace (u - 0) with u in Hr by lia.
    unfold ptr_diff. simpl. rewrite to_size_t_sub by lia.
    f_equal. rewrite wrap64_add_r. by apply wrap64_congr_add. }
  rewrite capacity_holding, size_holding by lia.
  split; [done|]. intros Hconst. rewrite Hrun. do 2 f_equal.
  unfold elements_consumption. rewrite size_holding by lia.
  change (elements (holding e u)) with e.
  assert (∀ k lo,
    foldr N.add 0 (element_memory_consumption <$> slots (cells_of e) lo k)
    = sizeof T * N.of_nat k) as Hsum.
  { induction k as [|k IH]; intros lo; [simpl; lia|].
    rewrite slots_S, fmap_cons. cbn [foldr]. rewrite IH, Hconst. lia. }
  rewrite Hsum. rewrite N2Nat.id.
  rewrite <- N.add_assoc, <- N.mul_add_distr_l. do 2 f_equal. lia.
Qed.

End Consumption.

(** ** Loading into a container that is in use *)

Section Loading.
Context {T : Type} `{ET : ElementType T}.
Implicit Types (b : block T) (e : option (block T)) (v : AlignedVector T).
Implicit Types (a : allocator) (c : gmap N T) (ar : list (item T)).
Implicit Types (payload : list (option T)).

(** Reading [n] slots from an archive that starts with the slots of
    [payload]: all of them when [n] is their number, and as many as
    there are when the archive ends before the [n] slots are read. *)
Lemma read_array_payload payload : ∀ rest q c0,
  ∃ c1,
    read_array ((ISlot <$> payload) ++ rest) q (N.of_nat (length payload)) c0
    = (c1, Some rest)
    ∧ (∀ j, q ≤ j < q + N.of_nat (length payload) →
         payload !! N.to_nat (j - q) = Some (c1 !! j))
    ∧ (∀ j, ¬ (q ≤ j < q + N.of_nat (length payload)) → c1 !! j = c0 !! j).
Proof.
  induction payload as [|o payload IH]; intros rest q c0.
  - simpl. rewrite read_array_zero. exists c0.
    split; [done|split; [intros j; lia|done]].
  - cbn [fmap list_fmap app length read_array].
    rewrite (proj2 (N.eqb_neq (N.of_nat (S (length payload))) 0)) by lia.
    replace (N.of_nat (S (length payload)) - 1)
      with (N.of_nat (length payload)) by lia.
    destruct (IH rest (q + 1) (put_slot q o c0)) as (c1 & Hrun & Hin & Hout).
    exists c1. split; [done|split].
    + intros j Hj. destruct (N.eq_dec j q) as [->|Hjq].
      * replace (q - q) with 0 by lia. simpl.
        rewrite Hout by lia. rewrite lookup_put_slot. by rewrite decide_True.
      * replace (N.to_nat (j - q)) with (S (N.to_nat (j - (q + 1)))) by lia.
        simpl. apply Hin. lia.
    + intros j Hj. rewrite Hout by lia. rewrite lookup_put_slot.
      by rewrite decide_False by lia.
Qed.

Lemma read_array_truncated payload : ∀ q n c0,
  N.of_nat (length payload) < n →
  ∃ c1,
    read_array (ISlot <$> payload) q n c0 = (c1, None)
    ∧ (∀ j, q ≤ j < q + N.of_nat (length payload) →
         payload !! N.to_nat (j - q) = Some (c1 !! j))
    ∧ (∀ j, ¬ (q ≤ j < q + N.of_nat (length payload)) → c1 !! j = c0 !! j).
Proof.
  induction payload as [|o payload IH]; intros q n c0 Hn.
  - cbn [fmap list_fmap read_array].
    rewrite (proj2 (N.eqb_neq n 0)) by lia. exists c0.
    split; [done|split; [intros j; simpl; lia|done]].
  - cbn [fmap list_fmap length read_array].
    rewrite (proj2 (N.eqb_neq n 0)) by lia.
    destruct (IH (q + 1) (n - 1) (put_slot q o c0)) as (c1 & Hrun & Hin & Hout).
    { simpl in Hn. lia. }
    exists c1. split; [done|split].
    + intros j Hj. destruct (N.eq_dec j q) as [->|Hjq].
      * replace (q - q) with 0 by lia. simpl.
        rewrite Hout by lia. rewrite lookup_put_slot. by rewrite decide_True.
      * replace (N.to_nat (j - q)) with (S (N.to_nat (j - (q + 1)))) by lia.
        simpl. apply Hin. simpl in Hj. lia.
    + intros j Hj. rewrite Hout by (simpl in Hj; lia).
      rewrite lookup_put_slot. by rewrite decide_False by (simpl in Hj; lia).
Qed.

Local Arguments to_size_t : simpl never.
Local Arguments ptr_diff : simpl never.
Local Arguments wrap64 : simpl never.
Local Arguments N.mul : simpl never.
Local Arguments N.add : simpl never.
Local Arguments N.max : simpl never.
Local Arguments N.sub : simpl never.
Local Arguments N.ltb : simpl never.
Local Arguments N.leb : simpl never.
Local Arguments N.eqb : simpl never.
Local Arguments ptr_add : simpl never.
Local Arguments accessible : simpl never.
Local Arguments get : simpl never.
Local Arguments extent_of : simpl never.
Local Arguments reserve : simpl never.
Local Arguments read_array : simpl never.

(** [load] on a count within the capacity: nothing is reserved, the
    payload is read over the slots of the block, and
    [used_elements_end] moves only if the payload was complete. *)
Lemma load_fits a e u count rest :
  u ≤ extent_of e → extent_of e < 2 ^ 64 → 0 < count → count ≤ extent_of e →
  load (ISize count :: rest) (mkMachine a (holding e u))
  = let r := read_array rest 0 count (cells_of e) in
    match r.2 with
    | Some ar' => Ok ar' (mkMachine a (holding (with_cells e r.1) count))
    | None =>
        Throw archive_exception (mkMachine a (holding (with_cells e r.1) u))
    end.
Proof.
  intros Hu He Hpos Hcount.
  assert (e ≠ None) by (apply (not_none_of_extent e 0); lia).
  unfold load. rewrite (proj2 (N.ltb_lt 0 count)) by lia.
  rewrite (bind_ok _ _ _ _ _ (reserve_noop a e u count He Hpos Hcount)).
  unfold bind at 1, get_this at 1. simpl.
  rewrite accessible_get by done.
  rewrite bool_decide_eq_true_2 by lia. rewrite off_get.
  destruct (read_array rest 0 count (cells_of e)) as [c1 [ar'|]] eqn:Hread;
    simpl.
  - unfold bind at 1. rewrite set_elements_holding.
    erewrite bind_ok;
      [|exact (set_used_to_holding a (with_cells e c1) u count
                 ltac:(by rewrite extent_of_with_cells))].
    done.
  - unfold bind at 1. by rewrite set_elements_holding.
Qed.

Local Arguments load : simpl never.

(** X19. [load] into a well-formed container whose capacity covers
    the count read: no memory is asked for, block and capacity stay,
    the slots of the payload become the first [count] elements and the
    size becomes [count].  What the container held from [count] on
    stays in its slots: [load] runs no destructor, also when [T] is not
    trivial and the size goes down. *)
Theorem load_within_capacity a v payload rest :
  let count := N.of_nat (length payload) in
  wf v → 0 < count → count ≤ capacity v →
  ∃ v',
    load (ISize count :: (ISlot <$> payload) ++ rest) (mkMachine a v)
    = Ok rest (mkMachine a v')
    ∧ size v' = count ∧ capacity v' = capacity v ∧ owned v' = owned v
    ∧ (∀ i o, payload !! N.to_nat i = Some o → index v' i = inr o)
    ∧ (∀ j, count ≤ j →
         cells_of (elements v') !! j = cells_of (elements v) !! j).
Proof.
  intros count (e & u & -> & Hok & Hu & He)%wf_holding.
  rewrite capacity_holding by lia. intros Hpos Hcount.
  assert (e ≠ None) by (apply (not_none_of_extent e 0); lia).
  rewrite load_fits by done.
  destruct (read_array_payload payload rest 0 (cells_of e))
    as (c1 & Hread & Hin & Hout).
  fold count in Hread, Hin, Hout. rewrite Hread. simpl.
  eexists. split; [done|].
  rewrite size_holding, capacity_holding
    by (rewrite ?extent_of_with_cells; lia).
  rewrite extent_of_with_cells.
  split; [done|split; [done|split; [|split]]].
  - unfold owned. simpl. by rewrite get_with_cells.
  - intros i o Hi.
    assert (i < count).
    { apply lookup_lt_Some in Hi. unfold count. lia. }
    rewrite index_holding by (rewrite ?extent_of_with_cells; lia).
    rewrite (proj2 (N.ltb_lt i count)) by done.
    rewrite cells_of_with_cells by done.
    specialize (Hin i ltac:(lia)). replace (i - 0) with i in Hin by lia.
    congruence.
  - intros j Hj. simpl. rewrite cells_of_with_cells by done.
    apply Hout. lia.
Qed.

(** X20. [load] gives the basic guarantee only.  When the archive
    ends before the [count] slots it announces, with [count] within
    the capacity, [load] throws with the size and the capacity as
    before, but the slots it has read are already stored over the
    first elements of the container. *)
Theorem load_truncated_overwrites a v payload count :
  wf v → N.of_nat (length payload) < count → count ≤ capacity v →
  ∃ v',
    load (ISize count :: (ISlot <$> payload)) (mkMachine a v)
    = Throw archive_exception (mkMachine a v')
    ∧ size v' = size v ∧ capacity v' = capacity v ∧ owned v' = owned v
    ∧ (∀ j o, payload !! N.to_nat j = Some o →
         cells_of (elements v') !! j = o)
    ∧ (∀ j, N.of_nat (length payload) ≤ j →
         cells_of (elements v') !! j = cells_of (elements v) !! j).
Proof.
  intros (e & u & -> & Hok & Hu & He)%wf_holding.
  rewrite size_holding, capacity_holding by lia. intros Hshort Hcount.
  assert (e ≠ None) by (apply (not_none_of_extent e 0); lia).
  rewrite load_fits by (done || lia).
  destruct (read_array_truncated payload 0 count (cells_of e) Hshort)
    as (c1 & Hread & Hin & Hout).
  rewrite Hread. simpl.
  eexists. split; [done|].
  rewrite size_holding, capacity_holding
    by (rewrite ?extent_of_with_cells; lia).
  rewrite extent_of_with_cells.
  split; [done|split; [done|split; [|split]]].
  - unfold owned. simpl. by rewrite get_with_cells.
  - intros j o Hj. simpl. rewrite cells_of_with_cells by done.
    assert (j < N.of_nat (length payload)).
    { apply lookup_lt_Some in Hj. lia. }
    specialize (Hin j ltac:(lia)). replace (j - 0) with j in Hin by lia.
    congruence.
  - intros j Hj. simpl. rewrite cells_of_with_cells by done.
    apply Hout. lia.
Qed.

(** X21. An empty container does not survive the round trip into a
    container in use: [save] writes the count 0 and nothing else, and
    [load] on a count of 0 does nothing at all, so the target keeps its
    block, its size and its elements. *)
Theorem load_of_empty_changes_nothing a (vA vB : AlignedVector T) rest :
  wf vA → size vA = 0 →
  save [] vA = inr [ISize 0]
  ∧ load ([ISize 0] ++ rest) (mkMachine a vB) = Ok rest (mkMachine a vB).
Proof.
  intros (e & u & -> & Hok & Hu & He)%wf_holding.
  rewrite size_holding by lia. intros ->.
  unfold save. by rewrite size_holding by lia.
Qed.

(** X22. Round trip through an archive into any target, for a
    trivial element type: the archive that [save] writes for a
    non-empty well-formed container [A], loaded into a well-formed
    container [B] in any state, gives [B] the size and the elements of
    [A] (when the allocator can grant the block that [B] may need); what
    follows in the archive is left unread. *)
Theorem save_load_any_target a (vA vB : AlignedVector T) rest :
  is_trivial T = true → wf vA → wf vB → 0 < size vA →
  (capacity vB < size vA →
   grantable a (N.max (size vA) (2 * capacity vB))) →
  ∃ ar a' vB',
    save [] vA = inr ar
    ∧ load (ar ++ rest) (mkMachine a vB) = Ok rest (mkMachine a' vB')
    ∧ size vB' = size vA
    ∧ ∀ i, i < size vA → index vB' i = index vA i.
Proof.
  intros _ (e & u & -> & Hok & Hu & He)%wf_holding
    (eB & uB & -> & HokB & HuB & HeB)%wf_holding.
  rewrite size_holding, capacity_holding by lia. intros Hpos Hgrant.
  assert (e ≠ None) by (apply (not_none_of_extent e 0); lia).
  unfold save. rewrite size_holding by lia.
  rewrite (proj2 (N.ltb_lt 0 u)) by done.
  change (elements (holding e u)) with e.
  rewrite accessible_get by done.
  rewrite bool_decide_eq_true_2 by lia. rewrite off_get.
  cbn [app].
  exists (ISize u :: write_array (cells_of e) 0 u).
  assert (∀ c0, ∃ c1,
    read_array (write_array (cells_of e) 0 u ++ rest) 0 u c0 = (c1, Some rest)
    ∧ ∀ j, j < u → c1 !! j = cells_of e !! j) as Hread.
  { intros c0.
    destruct (read_written (write_array (cells_of e) 0 u ++ rest)
                (cells_of e) 0 u 0 c0 rest eq_refl) as (c1 & Hread & Hc1).
    exists c1. split; [done|]. intros j Hj.
    rewrite Hc1, decide_True by lia. f_equal. lia. }
  cbn [app].
  destruct (N.lt_ge_cases (extent_of eB) u) as [Hgrow|Hfit].
  - destruct (load_grow a eB uB u (write_array (cells_of e) 0 u ++ rest))
      as (c' & Hc' & Hrun); [done..|by apply Hgrant|].
    destruct (Hread c') as (c1 & Hread1 & Hc1).
    rewrite Hread1 in Hrun. simpl in Hrun.
    pose proof sizeof_pos. destruct (Hgrant Hgrow) as [Hfits _].
    set (k := N.max u (2 * extent_of eB)) in *.
    assert (u ≤ k) by (unfold k; lia).
    assert (k < 2 ^ 64) by nia.
    eexists _, _. split; [done|]. split; [exact Hrun|].
    rewrite size_holding by lia. split; [done|].
    intros i Hi. rewrite (index_holding e) by done.
    rewrite index_holding by (unfold extent_of; simpl; lia).
    rewrite (proj2 (N.ltb_lt i u)) by done. simpl. by rewrite Hc1.
  - assert (eB ≠ None) by (apply (not_none_of_extent eB 0); lia).
    destruct (Hread (cells_of eB)) as (c1 & Hread1 & Hc1).
    eexists _, _. split; [done|].
    rewrite load_fits by done. rewrite Hread1. simpl.
    split; [done|].
    rewrite size_holding by lia. split; [done|].
    intros i Hi. rewrite (index_holding e) by done.
    rewrite index_holding by (rewrite ?extent_of_with_cells; lia).
    rewrite (proj2 (N.ltb_lt i u)) by done.
    rewrite cells_of_with_cells by done. by rewrite Hc1.
Qed.

(** C1, as the code has it.  [load] does not validate the count it
    reads.  A count above the capacity [c] makes it ask the allocator
    for [max(count, 2c) * sizeof(T)] bytes at once, the product taken
    in [std::size_t], whatever follows in the archive: when the
    allocator refuses, [load] throws and the container is unchanged.
    When the product fits and the block is granted, the capacity is
    [max(count, 2c)] before any of the payload is read: an archive that
    holds the [count] elements makes [load] return with size [count]
    and these elements, and an archive that ends before them makes it
    throw with that capacity in place, the old size, and the elements
    it has read stored over the first slots. *)
Theorem load_reserves_declared_count a v count rest :
  wf v → capacity v < count →
  (let bytes := wrap64 (N.max count (wrap64 (2 * capacity v)) * sizeof T) in
   limit a < bytes →
   load (ISize count :: rest) (mkMachine a v)
   = Throw (ExcOutOfMemory bytes) (mkMachine (refused a bytes) v))
  ∧ (let k := N.max count (2 * capacity v) in
     grantable a k →
     (∀ payload rest',
        rest = (ISlot <$> payload) ++ rest' →
        N.of_nat (length payload) = count →
        ∃ v',
          load (ISize count :: rest) (mkMachine a v)
          = Ok rest' (mkMachine (granted a k) v')
          ∧ size v' = count ∧ capacity v' = k
          ∧ ∀ i o, payload !! N.to_nat i = Some o → index v' i = inr o)
     ∧ (∀ payload,
          rest = ISlot <$> payload → N.of_nat (length payload) < count →
          ∃ v',
            load (ISize count :: rest) (mkMachine a v)
            = Throw archive_exception (mkMachine (granted a k) v')
            ∧ size v' = size v ∧ capacity v' = k
            ∧ (∀ j o, payload !! N.to_nat j = Some o →
                 cells_of (elements v') !! j = o)
            ∧ (∀ i, N.of_nat (length payload) ≤ i → i < size v →
                 index v' i = index v i))).
Proof.
  intros (e & u & -> & Hok & Hu & He)%wf_holding.
  rewrite capacity_holding, size_holding by lia. intros Hcount.
  pose proof sizeof_pos as Hs. split.
  - intros bytes Hlim. unfold load.
    rewrite (proj2 (N.ltb_lt 0 count)) by lia. unfold bind at 1.
    by rewrite (reserve_refused a e u count Hu He Hcount Hlim).
  - intros k Hgrant.
    destruct (load_grow a e u count rest Hu He Hcount Hgrant)
      as (c' & Hc' & Hrun). fold k in Hrun.
    assert (count ≤ k) by (unfold k; lia).
    assert (k < 2 ^ 64) by (destruct Hgrant; nia).
    split.
    + intros payload rest' -> Hlen.
      destruct (read_array_payload payload rest' 0 c')
        as (c1 & Hread & Hin & _).
      rewrite Hlen in Hread, Hin. rewrite Hrun, Hread. simpl.
      eexists. split; [done|].
      rewrite size_holding, capacity_holding
        by (unfold extent_of; simpl; lia).
      split; [done|split; [done|]].
      intros i o Hi.
      assert (i < count).
      { apply lookup_lt_Some in Hi. lia. }
      rewrite index_holding by (unfold extent_of; simpl; lia).
      rewrite (proj2 (N.ltb_lt i count)) by done. simpl.
      specialize (Hin i ltac:(lia)). replace (i - 0) with i in Hin by lia.
      congruence.
    + intros payload -> Hshort.
      destruct (read_array_truncated payload 0 count c' Hshort)
        as (c1 & Hread & Hin & Hout).
      rewrite Hrun, Hread. simpl.
      eexists. split; [done|].
      rewrite size_holding, capacity_holding
        by (unfold extent_of; simpl; lia).
      split; [done|split; [done|split]].
      * intros j o Hj. simpl.
        assert (j < N.of_nat (length payload)).
        { apply lookup_lt_Some in Hj. lia. }
        specialize (Hin j ltac:(lia)). replace (j - 0) with j in Hin by lia.
        congruence.
      * intros i Hi Hiu.
        rewrite index_holding by (unfold extent_of; simpl; lia).
        rewrite (index_holding e) by done.
        rewrite (proj2 (N.ltb_lt i u)) by done. simpl.
        rewrite Hout by lia. rewrite Hc'. by rewrite decide_True.
Qed.

End Loading.

(** ** Sequences of [push_back], and [insert_back] below 2^32 elements *)

Section Appending.
Context {T : Type} `{ET : ElementType T}.
Implicit Types (b : block T) (e : option (block T)) (v : AlignedVector T).
Implicit Types (a : allocator) (c : gmap N T) (l range : list T).

Local Arguments to_size_t : simpl never.
Local Arguments ptr_diff : simpl never.
Local Arguments wrap64 : simpl never.
Local Arguments N.mul : simpl never.
Local Arguments N.add : simpl never.
Local Arguments N.max : simpl never.
Local Arguments N.sub : simpl never.
Local Arguments N.ltb : simpl never.
Local Arguments N.leb : simpl never.
Local Arguments N.eqb : simpl never.
Local Arguments N.of_nat : simpl never.
Local Arguments ptr_add : simpl never.
Local Arguments accessible : simpl never.
Local Arguments get : simpl never.
Local Arguments extent_of : simpl never.
Local Arguments reserve : simpl never.
Local Arguments wrap32 : simpl never.
Local Arguments store : simpl never.
Local Arguments advance_used_elements_end : simpl never.

Lemma grantable_le a k k' : k ≤ k' → grantable a k' → grantable a k.
Proof. unfold grantable. pose proof sizeof_pos. intros Hk [Hfit Hlim]. nia. Qed.

Lemma push_back_holding a e u x :
  handle_ok e → u ≤ extent_of e → extent_of e < 2 ^ 64 →
  (u = extent_of e → grantable a (N.max (2 * extent_of e) 16)) →
  ∃ a' e',
    push_back x (mkMachine a (holding e u))
    = Ok tt (mkMachine a' (holding e' (u + 1)))
    ∧ limit a' = limit a
    ∧ handle_ok e' ∧ u + 1 ≤ extent_of e' ∧ extent_of e' < 2 ^ 64
    ∧ extent_of e' = (if decide (u = extent_of e)
                      then N.max (2 * extent_of e) 16 else extent_of e)
    ∧ cells_of e' !! u = Some x
    ∧ ∀ j, j < u → cells_of e' !! j = cells_of e !! j.
Proof.
  intros Hok Hu He Hgrant.
  set (n := N.max (wrap64 (2 * extent_of e)) 16).
  assert (∃ a' e',
    when (bool_decide (Ptr (blk (get e)) u = Ptr (blk (get e)) (extent_of e)))
      (reserve n) (mkMachine a (holding e u))
    = Ok tt (mkMachine a' (holding e' u))
    ∧ limit a' = limit a
    ∧ handle_ok e' ∧ u < extent_of e' ∧ extent_of e' < 2 ^ 64
    ∧ extent_of e' = (if decide (u = extent_of e)
                      then N.max (2 * extent_of e) 16 else extent_of e)
    ∧ ∀ j, j < u → cells_of e' !! j = cells_of e !! j)
    as (a' & e' & Hrun & Hlim' & Hok' & Hu' & He' & Hext' & Hc').
  { case_bool_decide as Hfull.
    - injection Hfull as Hfull. rewrite decide_True by done.
      destruct (Hgrant Hfull) as [Hfit Hlim]. pose proof sizeof_pos.
      assert (2 * extent_of e < 2 ^ 64) by nia.
      assert (n = N.max (2 * extent_of e) 16) as Hn
        by (unfold n; by rewrite wrap64_small).
      destruct (reserve_holding a e u n)
        as (a' & e' & Hrun & Hlim' & Hok' & Hext' & He' & Hc'); [done..| |].
      { intros _. rewrite Hn.
        replace (N.max (N.max (2 * extent_of e) 16) (2 * extent_of e))
          with (N.max (2 * extent_of e) 16) by lia.
        by apply Hgrant. }
      assert (extent_of e' = N.max (2 * extent_of e) 16) as Hext.
      { rewrite Hext'. unfold reserve_capacity.
        destruct (N.ltb_spec (extent_of e) n); lia. }
      rewrite (proj2 (N.eqb_neq n 0)) in Hrun by lia.
      exists a', e'. simpl.
      split; [done|split; [done|split; [done|split; [lia|]]]].
      split; [lia|split; [done|]]. apply Hc'. lia.
    - rewrite decide_False by (by intros ->).
      assert (u ≠ extent_of e) by (by intros ->).
      exists a, e. simpl.
      split; [done|split; [done|split; [done|split; [lia|]]]]. done. }
  assert (e' ≠ None) by (apply (not_none_of_extent e' u); lia).
  unfold push_back. unfold bind at 1, get_this at 1. simpl.
  unfold ptr_le. simpl. rewrite N.eqb_refl, (proj2 (N.leb_le u _)) by done.
  simpl. unfold bind at 1. simpl.
  rewrite capacity_holding by done. fold n.
  rewrite (bind_ok _ _ _ _ _ Hrun).
  unfold bind at 1, get_this at 1. simpl.
  assert ((if negb (is_trivial T)
           then store (Ptr (blk (get e')) u) x
           else store (Ptr (blk (get e')) u) x)
          = store (Ptr (blk (get e')) u) x) as -> by (by destruct (is_trivial T)).
  rewrite (bind_ok _ _ _ _ _ (store_holding _ _ _ _ _ H Hu')).
  rewrite advance_holding by (by rewrite extent_of_with_cells; lia).
  eexists _, _. split; [done|].
  rewrite extent_of_with_cells, cells_of_with_cells by done.
  split; [done|split; [by apply handle_ok_with_cells|]].
  split; [lia|split; [done|split; [done|split]]].
  - by rewrite lookup_insert_eq.
  - intros j Hj. rewrite lookup_insert_ne by lia. by apply Hc'.
Qed.

Lemma push_back_all_holding l : ∀ a e u,
  handle_ok e → u ≤ extent_of e → extent_of e < 2 ^ 64 →
  doubling_range u (extent_of e) →
  grantable a (N.max 16 (2 * (u + N.of_nat (length l) - 1))) →
  ∃ a' e',
    push_back_all l (mkMachine a (holding e u))
    = Ok tt (mkMachine a' (holding e' (u + N.of_nat (length l))))
    ∧ handle_ok e'
    ∧ u + N.of_nat (length l) ≤ extent_of e' ∧ extent_of e' < 2 ^ 64
    ∧ doubling_range (u + N.of_nat (length l)) (extent_of e')
    ∧ (∀ j, j < u → cells_of e' !! j = cells_of e !! j)
    ∧ ∀ k x, l !! k = Some x → cells_of e' !! (u + N.of_nat k) = Some x.
Proof.
  induction l as [|x l IH]; intros a e u Hok Hu He Hrange Hgrant.
  - exists a, e. cbn [push_back_all length]. unfold ret.
    replace (u + N.of_nat 0) with u by lia.
    split; [done|split; [done|split; [done|split; [done|split; [done|]]]]].
    split; [done|]. intros k x Hk. done.
  - cbn [push_back_all length] in *.
    replace (u + N.of_nat (S (length l)))
      with (u + 1 + N.of_nat (length l)) in * by lia.
    destruct (push_back_holding a e u x)
      as (a1 & e1 & Hrun1 & Hlim1 & Hok1 & Hu1 & He1 & Hext1 & Hx & Hc1);
      [done..| |].
    { intros Hfull. eapply grantable_le; [|done].
      rewrite <- Hfull. lia. }
    assert (doubling_range (u + 1) (extent_of e1)) as Hrange1.
    { right. rewrite Hext1. unfold doubling_range in Hrange.
      case_decide; lia. }
    destruct (IH a1 e1 (u + 1)) as (a' & e' & Hrun & Hok' & Hu' & He' & Hrange'
                                     & Hc' & Hl); [done..| |].
    { by eapply grantable_limit. }
    exists a', e'. rewrite (bind_ok _ _ _ _ _ Hrun1).
    split; [done|split; [done|split; [done|split; [done|split; [done|]]]]].
    split.
    + intros j Hj. rewrite Hc' by lia. by apply Hc1.
    + intros [|k] y Hk; simpl in Hk.
      * injection Hk as <-. replace (u + N.of_nat 0) with u by lia.
        by rewrite Hc' by lia.
      * replace (u + N.of_nat (S k)) with (u + 1 + N.of_nat k) by lia.
        by apply Hl.
Qed.

(** X23. Filling a default-constructed container by [push_back]
    alone: after the elements of a list have been pushed one by one the
    container holds exactly these, in order.  The capacity has grown by
    doubling from 16: once there is an element it is at least 16 and at
    most twice the number of elements, so no more than half of the
    block is unused beyond the first 16 slots. *)
Theorem push_back_all_spec a l :
  let n := N.of_nat (length l) in
  grantable a (N.max 16 (2 * (n - 1))) →
  ∃ a' v',
    push_back_all l (mkMachine a AlignedVector_default)
    = Ok tt (mkMachine a' v')
    ∧ wf v' ∧ size v' = n ∧ n ≤ capacity v'
    ∧ doubling_range n (capacity v')
    ∧ ∀ i x, l !! N.to_nat i = Some x → index v' i = inr (Some x).
Proof.
  intros n Hgrant. rewrite holding_default.
  destruct (push_back_all_holding l a None 0)
    as (a' & e' & Hrun & Hok' & Hu' & He' & Hrange' & _ & Hl); [done..| | |].
  { by left. }
  { by replace (0 + N.of_nat (length l) - 1) with (n - 1) by (unfold n; lia). }
  replace (0 + N.of_nat (length l)) with n in * by (unfold n; lia).
  exists a', (holding e' n). split; [done|].
  rewrite size_holding, capacity_holding by lia.
  split; [apply wf_holding_intro; [exact Hok'|exact Hu'|exact He']|].
  split; [done|split; [done|split; [done|]]].
  intros i x Hi.
  assert (i < n) by (apply lookup_lt_Some in Hi; unfold n; lia).
  rewrite index_holding by done. rewrite (proj2 (N.ltb_lt i n)) by done.
  specialize (Hl _ _ Hi). rewrite N2Nat.id in Hl.
  replace (0 + i) with i in Hl by lia. by rewrite Hl.
Qed.

(** X24. [insert_back] on a well-formed container of fewer than 2^32
    elements appends the range: the size grows by the length of the
    range, the former elements are unchanged and the new ones are those
    of the range, in order.  The capacity is what [reserve] of the new
    size leaves: unchanged when it suffices, the larger of the new size
    and twice the old capacity otherwise (when the allocator can grant
    it), and 0 when the new size is 0, so that an empty range on an
    empty container releases the block. *)
Theorem insert_back_appends a v range :
  wf v → size v < 2 ^ 32 →
  (capacity v < size v + N.of_nat (length range) →
   grantable a (N.max (size v + N.of_nat (length range)) (2 * capacity v))) →
  ∃ a' v',
    insert_back range (mkMachine a v) = Ok tt (mkMachine a' v')
    ∧ size v' = size v + N.of_nat (length range)
    ∧ capacity v'
      = reserve_capacity (capacity v) (size v + N.of_nat (length range))
    ∧ (∀ i, i < size v → index v' i = index v i)
    ∧ (∀ i, i < N.of_nat (length range) →
         index v' (size v + i) = inr (range !! N.to_nat i)).
Proof.
  intros (e & u & -> & Hok & Hu & He)%wf_holding.
  rewrite size_holding, capacity_holding by lia.
  set (L := N.of_nat (length range)). intros Hsmall Hgrant.
  assert (wrap32 u = u) as Hw32 by (unfold wrap32; by apply N.mod_small).
  assert (u + L < 2 ^ 64) as Hsum.
  { destruct (N.le_gt_cases (u + L) (extent_of e)); [lia|].
    destruct Hgrant as [Hfit _]; [done|]. pose proof sizeof_pos. nia. }
  unfold insert_back. unfold bind at 1, get_this at 1. simpl.
  rewrite size_holding, Hw32 by lia. fold L.
  rewrite (wrap64_small (u + L)) by done.
  destruct (reserve_holding a e u (u + L))
    as (a' & e' & Hrun & _ & Hok' & Hext' & He' & Hc'); [done..|].
  rewrite (bind_ok _ _ _ _ _ Hrun).
  assert (u + L ≤ extent_of e') as Hfits.
  { rewrite Hext'. unfold reserve_capacity.
    destruct (N.ltb_spec (extent_of e) (u + L)); [lia|].
    destruct (N.eqb_spec (u + L) 0); lia. }
  destruct (N.eqb_spec (u + L) 0) as [Hz|Hnz].
  - assert (u = 0 ∧ L = 0) as [-> HL] by lia.
    assert (range = []) as -> by (destruct range; [done|unfold L in *; simpl in *; lia]).
    simpl. exists a', (holding e' 0). split; [done|].
    rewrite size_holding, capacity_holding by lia.
    split; [lia|split; [done|split; intros i Hi; lia]].
  - assert (e' ≠ None) by (apply (not_none_of_extent e' 0); lia).
    destruct (insert_back_loop_holding a' range e' u) as (c' & Hloop & Hcells);
      [done|done|].
    rewrite Hloop. fold L.
    exists a', (holding (with_cells e' c') (u + L)). split; [done|].
    rewrite size_holding, capacity_holding
      by (rewrite ?extent_of_with_cells; lia).
    rewrite extent_of_with_cells.
    split; [done|split; [done|split]].
    + intros i Hi.
      rewrite !index_holding by (rewrite ?extent_of_with_cells; lia).
      rewrite (proj2 (N.ltb_lt i u)), (proj2 (N.ltb_lt i (u + L))) by lia.
      rewrite cells_of_with_cells, Hcells, decide_False by (done || lia).
      rewrite Hc' by done. done.
    + intros i Hi.
      rewrite !index_holding by (rewrite ?extent_of_with_cells; lia).
      rewrite (proj2 (N.ltb_lt (u + i) (u + L))) by lia.
      rewrite cells_of_with_cells, Hcells, decide_True by (done || lia).
      by replace (u + i - u) with i by lia.
Qed.

End Appending.

(** ** The bulk primitives on pieces of a range *)

Section Pieces.
Context {T : Type} `{ET : ElementType T}.
Implicit Types (c : gmap N T) (m : gmap N T * gmap N T).

Lemma fills_piecewise (f : N → N → gmap N T → gmap N T) d g :
  fills f d g → piecewise f.
Proof.
  intros Hf b m e c Hbm Hme. split; apply map_eq; intros j.
  - rewrite !Hf by lia. repeat case_decide; (done || lia).
  - rewrite !Hf by lia. repeat case_decide; (done || lia).
Qed.

(** The source slots after the loop of AlignedVectorMove: destroyed on
    the generic path. *)
Lemma lookup_move_loop_source (s d : N) k i m j :
  (for_loop k i
     (λ i m, (delete (s + i) m.1, put_slot (d + i) (m.1 !! (s + i)) m.2))
     m).1 !! j
  = if decide (s + i ≤ j < s + i + N.of_nat k) then None else m.1 !! j.
Proof.
  revert i m. induction k as [|k IH]; intros i m; simpl.
  - case_decide; [lia|done].
  - rewrite IH. simpl.
    repeat case_decide; try lia; try done.
    + assert (j = s + i) as -> by lia. apply lookup_delete_eq.
    + apply lookup_delete_ne. lia.
Qed.

Lemma AlignedVectorMove_apply_to_subrange_source source_ destination_ b e m j :
  b ≤ e →
  (AlignedVectorMove_apply_to_subrange source_ destination_ b e m).1 !! j
  = if decide (off source_ + b ≤ j < off source_ + e)
    then (if is_trivial T then m.1 !! j else None)
    else m.1 !! j.
Proof.
  intros Hbe. unfold AlignedVectorMove_apply_to_subrange.
  destruct (e =? b) eqn:E.
  - apply N.eqb_eq in E as ->. case_decide; [lia|done].
  - destruct (is_trivial T); simpl.
    + by case_decide.
    + unfold for_range. rewrite lookup_move_loop_source.
      rewrite N2Nat.id. repeat case_decide; (done || lia).
Qed.

Lemma pair_ext {A B} (p q : A * B) : p.1 = q.1 → p.2 = q.2 → p = q.
Proof. destruct p, q. simpl. by intros -> ->. Qed.

Lemma AlignedVectorMove_apply_to_subrange_piecewise source_ destination_ :
  piecewise (AlignedVectorMove_apply_to_subrange source_ destination_).
Proof.
  intros b m e st Hbm Hme.
  pose proof (AlignedVectorMove_apply_to_subrange_moves source_ destination_)
    as Hmoves.
  split; apply pair_ext; apply map_eq; intros j.
  - rewrite !AlignedVectorMove_apply_to_subrange_source by lia.
    repeat case_decide; try lia; try done; by destruct (is_trivial T).
  - rewrite !(λ b e m H, proj2 (Hmoves b e m j H)) by lia.
    repeat case_decide; try lia; try done.
    rewrite AlignedVectorMove_apply_to_subrange_source by lia.
    rewrite decide_False by lia. done.
  - rewrite !AlignedVectorMove_apply_to_subrange_source by lia.
    repeat case_decide; try lia; try done; by destruct (is_trivial T).
  - rewrite !(λ b e m H, proj2 (Hmoves b e m j H)) by lia.
    repeat case_decide; try lia; try done.
    rewrite AlignedVectorMove_apply_to_subrange_source by lia.
    rewrite decide_False by lia. done.
Qed.

(** X25. Each of the four bulk primitives may process its range in
    pieces: running [apply_to_subrange] on [begin, mid) and on
    [mid, end), in either order, gives what one run on [begin, end)
    gives, for the slots of the destination and, for the move, for those
    of the source as well.  So how a range is cut into subranges is not
    observable. *)
Theorem apply_to_subrange_piecewise
    source_ destination_ (src : gmap N T) initialize_memory element
    trivial_element :
  piecewise (AlignedVectorCopy_apply_to_subrange source_ destination_ src)
  ∧ piecewise (AlignedVectorMove_apply_to_subrange source_ destination_)
  ∧ piecewise (AlignedVectorSet_apply_to_subrange initialize_memory element
                 destination_ trivial_element)
  ∧ piecewise (AlignedVectorDefaultInitialize_apply_to_subrange
                 initialize_memory destination_).
Proof.
  split; [|split; [|split]].
  - eapply fills_piecewise, AlignedVectorCopy_apply_to_subrange_fills.
  - apply AlignedVectorMove_apply_to_subrange_piecewise.
  - eapply fills_piecewise, AlignedVectorSet_apply_to_subrange_fills.
  - eapply fills_piecewise,
      AlignedVectorDefaultInitialize_apply_to_subrange_fills.
Qed.

Lemma apply_parallel_from_piecewise {S} (f : N → N → S → S) grain e :
  piecewise f → (∀ b s, f b b s = s) → 0 < grain →
  ∀ pieces b s, b ≤ e → (N.to_nat (e - b) ≤ pieces)%nat →
    apply_parallel_from pieces b e grain f s = f b e s.
Proof.
  intros Hf Hid Hgrain. induction pieces as [|pieces IH]; intros b s Hbe Hp.
  - assert (e = b) as -> by lia. simpl. by rewrite Hid.
  - simpl. destruct (N.leb_spec e b) as [Hle|Hlt].
    + assert (e = b) as -> by lia. by rewrite Hid.
    + rewrite IH by lia. apply Hf; lia.
Qed.

Lemma dispatch_piecewise {S} (f : N → N → S → S) size_ s :
  piecewise f → (∀ b s, f b b s = s) → dispatch size_ f s = f 0 size_ s.
Proof.
  intros Hf Hid. unfold dispatch. case_match; [done|].
  unfold apply_parallel.
  apply apply_parallel_from_piecewise; [done|done|apply grain_pos|lia|lia].
Qed.

Lemma fills_empty_range (f : N → N → gmap N T → gmap N T) d g b c :
  fills f d g → f b b c = c.
Proof.
  intros Hf. apply map_eq. intros j. rewrite Hf by lia.
  case_decide; [lia|done].
Qed.

(** X26. The constructors of the four primitives run the range in
    one call below the grain size and through [apply_parallel] from the
    grain size on; the result is in both cases that of one call of
    [apply_to_subrange] on the whole range. *)
Theorem parallel_path_is_serial_path
    source_ destination_ (src : gmap N T) initialize_memory element
    trivial_element size_ c m :
  dispatch size_
    (AlignedVectorCopy_apply_to_subrange source_ destination_ src) c
  = AlignedVectorCopy_apply_to_subrange source_ destination_ src 0 size_ c
  ∧ dispatch size_
      (AlignedVectorMove_apply_to_subrange source_ destination_) m
    = AlignedVectorMove_apply_to_subrange source_ destination_ 0 size_ m
  ∧ dispatch size_
      (AlignedVectorSet_apply_to_subrange initialize_memory element
         destination_ trivial_element) c
    = AlignedVectorSet_apply_to_subrange initialize_memory element
        destination_ trivial_element 0 size_ c
  ∧ dispatch size_
      (AlignedVectorDefaultInitialize_apply_to_subrange initialize_memory
         destination_) c
    = AlignedVectorDefaultInitialize_apply_to_subrange initialize_memory
        destination_ 0 size_ c.
Proof.
  split; [|split; [|split]].
  - apply dispatch_piecewise.
    + eapply fills_piecewise, AlignedVectorCopy_apply_to_subrange_fills.
    + intros b s.
      eapply fills_empty_range, AlignedVectorCopy_apply_to_subrange_fills.
  - apply dispatch_piecewise.
    + apply AlignedVectorMove_apply_to_subrange_piecewise.
    + intros b st. unfold AlignedVectorMove_apply_to_subrange.
      by rewrite N.eqb_refl.
  - apply dispatch_piecewise.
    + eapply fills_piecewise, AlignedVectorSet_apply_to_subrange_fills.
    + intros b s.
      eapply fills_empty_range, AlignedVectorSet_apply_to_subrange_fills.
  - apply dispatch_piecewise.
    + eapply fills_piecewise,
        AlignedVectorDefaultInitialize_apply_to_subrange_fills.
    + intros b s.
      eapply fills_empty_range,
        AlignedVectorDefaultInitialize_apply_to_subrange_fills.
Qed.

End Pieces.

(** ** Exclusive ownership of blocks *)

Section Ownership.
Context {T : Type} `{ET : ElementType T}.
Implicit Types (b : block T) (e : option (block T)) (v : AlignedVector T).
Implicit Types (a : allocator) (c : gmap N T) (s : machine T) (w : world T).

Local Arguments to_size_t : simpl never.
Local Arguments ptr_diff : simpl never.
Local Arguments wrap64 : simpl never.
Local Arguments N.mul : simpl never.
Local Arguments N.max : simpl never.
Local Arguments N.div : simpl never.
Local Arguments N.sub : simpl never.
Local Arguments N.ltb : simpl never.
Local Arguments N.leb : simpl never.
Local Arguments N.eqb : simpl never.
Local Arguments N.succ : simpl never.
Local Arguments ptr_add : simpl never.
Local Arguments accessible : simpl never.
Local Arguments get : simpl never.
Local Arguments AlignedVectorMove : simpl never.
Local Arguments AlignedVectorCopy : simpl never.
Local Arguments AlignedVectorSet : simpl never.
Local Arguments AlignedVectorDefaultInitialize : simpl never.
Local Arguments read_array : simpl never.

Lemma hands_over_refl s : hands_over s s.
Proof. split; [done|]. by right; left. Qed.

Lemma hands_over_trans s1 s2 s3 :
  hands_over s1 s2 → hands_over s2 s3 → hands_over s1 s3.
Proof. unfold hands_over. intros [H1 H1'] [H2 H2']. split; lia. Qed.

(** A state with the same allocator count and the same block. *)
Lemma hands_over_same s s' :
  allocated (heap s') = allocated (heap s) → owned (this s') = owned (this s) →
  hands_over s s'.
Proof. intros Ha Ho. split; [lia|]. by right; left. Qed.

Lemma tracks_ret {A} (x : A) : tracks_blocks (T:=T) (ret x).
Proof. intros s. apply hands_over_refl. Qed.

Lemma tracks_bind {A B} (m : M (machine T) A) (k : A → M (machine T) B) :
  tracks_blocks m → (∀ x, tracks_blocks (k x)) → tracks_blocks (bind m k).
Proof.
  intros Hm Hk s. unfold bind. specialize (Hm s).
  destruct (m s) as [x s'|ex s'|f]; try done.
  specialize (Hk x s').
  destruct (k x s') as [y s''|ex s''|f]; try done;
    by eapply hands_over_trans.
Qed.

Lemma tracks_get_this {B} (k : AlignedVector T → M (machine T) B) :
  (∀ v, tracks_blocks (k v)) → tracks_blocks (bind get_this k).
Proof.
  intros Hk. apply tracks_bind; [|done]. intros s. apply hands_over_refl.
Qed.

Lemma tracks_lift {A} (r : fault + A) : tracks_blocks (T:=T) (lift r).
Proof. intros s. destruct r; [done|]. apply hands_over_refl. Qed.

Lemma tracks_when (cond : bool) (m : M (machine T) unit) :
  tracks_blocks m → tracks_blocks (when cond m).
Proof. intros Hm. destruct cond; [done|apply tracks_ret]. Qed.

Lemma tracks_Assert (cond : bool) : tracks_blocks (T:=T) (Assert cond).
Proof. intros s. destruct cond; [|done]. apply hands_over_refl. Qed.

Lemma tracks_throw {A} ex : tracks_blocks (T:=T) (A:=A) (throw ex).
Proof. intros s. apply hands_over_refl. Qed.

Lemma tracks_abort {A} f : tracks_blocks (T:=T) (A:=A) (abort f).
Proof. by intros s. Qed.

Lemma tracks_set_default :
  tracks_blocks (T:=T) (set_this (mkAlignedVector None nullptr nullptr)).
Proof. intros s. split; [done|]. by left. Qed.

Lemma owned_with_cells v c p q :
  owned (mkAlignedVector (with_cells (elements v) c) p q) = owned v.
Proof. unfold owned. simpl. by rewrite get_with_cells. Qed.

Lemma tracks_update_cells (f : AlignedVector T → fault + option (block T)) :
  (∀ v e', f v = inr e' → ∃ c, e' = with_cells (elements v) c) →
  tracks_blocks (v <- get_this ;; e <- lift (f v) ;; set_elements e).
Proof.
  intros Hf s. unfold bind, get_this, set_elements. simpl.
  destruct (f (this s)) as [?|e'] eqn:Hfv; simpl; [done|].
  apply Hf in Hfv as [c ->].
  apply hands_over_same; [done|]. simpl. apply owned_with_cells.
Qed.

Lemma tracks_store p (x : T) : tracks_blocks (store p x).
Proof.
  intros s. unfold store, bind, get_this, set_elements. simpl.
  destruct (accessible _ _ _); simpl; [|done].
  apply hands_over_same; [done|]. simpl. apply owned_with_cells.
Qed.

Lemma tracks_advance : tracks_blocks (T:=T) advance_used_elements_end.
Proof.
  intros s.
  unfold advance_used_elements_end, set_used_elements_end, bind, get_this.
  simpl. destruct (ptr_add _ _ _) as [?|p]; simpl; [done|].
  by apply hands_over_same.
Qed.

Lemma tracks_set_used_to n : tracks_blocks (T:=T) (set_used_to n).
Proof.
  intros s. unfold set_used_to, set_used_elements_end, bind, get_this. simpl.
  destruct (ptr_add _ _ _) as [?|p]; simpl; [done|].
  by apply hands_over_same.
Qed.

Lemma destroy_back_owned rounds target : ∀ v v',
  destroy_back rounds target v = inr v' → owned v' = owned v.
Proof.
  induction rounds as [|rounds IH]; intros v v'; simpl.
  - case_bool_decide; [|done]. by intros [= <-].
  - case_bool_decide; [by intros [= <-]|].
    destruct (_ && _); [|done].
    intros Hrun%IH. rewrite Hrun. apply owned_with_cells.
Qed.

Lemma tracks_destroy_down_to target :
  tracks_blocks (T:=T) (destroy_down_to target).
Proof.
  intros s. unfold destroy_down_to, bind, get_this. simpl.
  destruct (destroy_back _ _ _) as [?|v'] eqn:Hd; simpl; [done|].
  apply hands_over_same; [done|]. simpl. by eapply destroy_back_owned.
Qed.

Lemma tracks_clear : tracks_blocks (T:=T) clear.
Proof.
  unfold clear. apply tracks_get_this. intros v.
  apply tracks_bind.
  - destruct (elements v); [|apply tracks_ret].
    apply tracks_when, tracks_destroy_down_to.
  - intros _. apply tracks_set_default.
Qed.

(** [reserve] is the one place where a block changes hands: the new
    block is the one the allocator has just handed out. *)
Lemma tracks_reserve n : tracks_blocks (T:=T) (reserve n).
Proof.
  intros s. unfold reserve. unfold bind at 1, get_this at 1.
  destruct (_ <? n).
  - unfold bind at 1, posix_memalign at 1.
    destruct (_ <=? limit (heap s)); [|by apply hands_over_same].
    set (d := Block (N.succ (allocated (heap s))) _ ∅).
    set (s1 := mkMachine _ (this s)).
    assert (∀ c2 p q,
      hands_over s
        (mkMachine (heap s1) (mkAlignedVector (with_cells (Some d) c2) p q)))
      as Hnew.
    { intros c2 p q. split; [simpl; lia|].
      right; right. unfold owned. simpl. lia. }
    unfold bind at 1.
    destruct (0 <? n).
    + unfold bind at 1.
      destruct (lift (ptr_add _ _ _) s1) as [source_end s2|?|?] eqn:Hadd;
        try done.
      { unfold lift in Hadd. destruct (ptr_add _ _ _); [done|].
        injection Hadd as <- <-.
        destruct (AlignedVectorMove _ _ _ _ _) as [?|[e1 e2]] eqn:Hmove;
          simpl; [done|].
        apply AlignedVectorMove_shape in Hmove as (c1 & c2 & -> & ->).
        unfold bind, lift. simpl.
        destruct (ptr_add _ _ _) as [?|used]; simpl; [done|].
        destruct (ptr_add _ _ _) as [?|alloc]; simpl; [done|].
        apply Hnew. }
      { unfold lift in Hadd. by destruct (ptr_add _ _ _). }
    + unfold ret at 1. simpl.
      unfold bind, lift. simpl.
      destruct (ptr_add _ _ _) as [?|used]; simpl; [done|].
      destruct (ptr_add _ _ _) as [?|alloc]; simpl; [done|].
      rewrite <- (with_cells_cells_of (Some d)). apply Hnew.
  - destruct (n =? 0); [apply tracks_clear|apply hands_over_refl].
Qed.

Lemma tracks_destroy_released n old_size :
  tracks_blocks (T:=T) (destroy_released n old_size).
Proof.
  unfold destroy_released. apply tracks_when, tracks_get_this.
  intros v. apply tracks_bind; [apply tracks_lift|].
  intros target. apply tracks_destroy_down_to.
Qed.

Lemma tracks_grow (prim : ptr → option (block T) → fault + option (block T))
    old_size :
  (∀ p dst e', prim p dst = inr e' → ∃ c, e' = with_cells dst c) →
  tracks_blocks
    (v <- get_this ;;
     dest <- lift (ptr_add (elements v) (get (elements v)) old_size) ;;
     e <- lift (prim dest (elements v)) ;;
     set_elements e).
Proof.
  intros Hprim s. unfold bind, get_this, set_elements. simpl.
  destruct (ptr_add _ _ _) as [?|dest]; simpl; [done|].
  destruct (prim dest (elements (this s))) as [?|e'] eqn:Hp; simpl; [done|].
  apply Hprim in Hp as [c ->].
  apply hands_over_same; [done|]. simpl. apply owned_with_cells.
Qed.

Lemma tracks_resize n : tracks_blocks (T:=T) (resize n).
Proof.
  unfold resize. apply tracks_get_this. intros v.
  apply tracks_bind; [apply tracks_destroy_released|intros _].
  apply tracks_bind; [apply tracks_reserve|intros _].
  apply tracks_bind; [apply tracks_set_used_to|intros _].
  apply tracks_when.
  apply (tracks_grow (AlignedVectorDefaultInitialize true _)).
  intros p dst e'. apply AlignedVectorDefaultInitialize_shape.
Qed.

Lemma tracks_resize_fast n : tracks_blocks (T:=T) (resize_fast n).
Proof.
  unfold resize_fast. apply tracks_get_this. intros v.
  apply tracks_bind; [apply tracks_destroy_released|intros _].
  apply tracks_bind; [apply tracks_reserve|intros _].
  apply tracks_bind; [apply tracks_set_used_to|intros _].
  apply tracks_when.
  apply (tracks_grow (AlignedVectorDefaultInitialize true _)).
  intros p dst e'. apply AlignedVectorDefaultInitialize_shape.
Qed.

Lemma tracks_resize_init n init : tracks_blocks (T:=T) (resize_init n init).
Proof.
  unfold resize_init. apply tracks_get_this. intros v.
  apply tracks_bind; [apply tracks_destroy_released|intros _].
  apply tracks_bind; [apply tracks_reserve|intros _].
  apply tracks_bind; [apply tracks_set_used_to|intros _].
  apply tracks_when.
  apply (tracks_grow (AlignedVectorSet true _ init)).
  intros p dst e'. apply AlignedVectorSet_shape.
Qed.

Lemma tracks_push_back x : tracks_blocks (T:=T) (push_back x).
Proof.
  unfold push_back. apply tracks_get_this. intros v.
  apply tracks_bind; [apply tracks_Assert|intros _].
  apply tracks_bind; [apply tracks_when, tracks_reserve|intros _].
  apply tracks_get_this. intros v'.
  apply tracks_bind; [|intros _; apply tracks_advance].
  destruct (negb _); apply tracks_store.
Qed.

Lemma tracks_insert_back_loop range :
  tracks_blocks (T:=T) (insert_back_loop range).
Proof.
  induction range as [|x range IH]; simpl; [apply tracks_ret|].
  apply tracks_get_this. intros v.
  apply tracks_bind; [apply tracks_when, tracks_store|intros _].
  apply tracks_bind; [apply tracks_store|intros _].
  apply tracks_bind; [apply tracks_advance|intros _]. done.
Qed.

Lemma tracks_insert_back range : tracks_blocks (T:=T) (insert_back range).
Proof.
  unfold insert_back. apply tracks_get_this. intros v.
  apply tracks_bind; [apply tracks_reserve|intros _].
  apply tracks_insert_back_loop.
Qed.

Lemma tracks_fill : tracks_blocks (T:=T) fill.
Proof.
  apply (tracks_update_cells
           (λ v, AlignedVectorDefaultInitialize false (size v)
                   (get (elements v)) (elements v))).
  intros v e'. apply AlignedVectorDefaultInitialize_shape.
Qed.

Lemma tracks_fill_value x : tracks_blocks (T:=T) (fill_value x).
Proof.
  apply (tracks_update_cells
           (λ v, AlignedVectorSet false (size v) x
                   (get (elements v)) (elements v))).
  intros v e'. apply AlignedVectorSet_shape.
Qed.

Lemma tracks_set_index i x : tracks_blocks (T:=T) (set_index i x).
Proof.
  unfold set_index. apply tracks_get_this. intros v.
  destruct (_ <? _); [|apply tracks_abort].
  apply tracks_bind; [apply tracks_lift|intros p]. apply tracks_store.
Qed.

Lemma tracks_load ar : tracks_blocks (T:=T) (load ar).
Proof.
  unfold load. destruct ar as [|[count|x] ar]; try apply tracks_throw.
  destruct (_ <? _); [|apply tracks_ret].
  apply tracks_bind; [apply tracks_reserve|intros _].
  intros s. unfold bind at 1, get_this at 1. simpl.
  destruct (accessible _ _ _); [|done].
  set (r := read_array _ _ _ _).
  unfold set_elements. unfold bind at 1 2, get_this at 1. simpl.
  set (s1 := mkMachine (heap s) _).
  assert (hands_over s s1) as Hs1.
  { apply hands_over_same; [done|]. simpl. apply owned_with_cells. }
  destruct r.2 as [ar'|]; [|done].
  pose proof (tracks_bind (set_used_to count) (λ _, ret ar')
                (tracks_set_used_to count) (λ _, tracks_ret ar') s1) as Hrest.
  destruct (bind _ _ s1) as [y s2|ex s2|f]; try done;
    by eapply hands_over_trans.
Qed.

Lemma tracks_sized n init : tracks_blocks (T:=T) (AlignedVector_sized n init).
Proof.
  unfold AlignedVector_sized.
  apply tracks_bind; [apply tracks_set_default|intros _].
  apply tracks_when, tracks_resize_init.
Qed.

Lemma tracks_copy vec : tracks_blocks (T:=T) (AlignedVector_copy vec).
Proof.
  unfold AlignedVector_copy.
  apply tracks_bind; [apply tracks_set_default|intros _].
  apply tracks_bind; [apply tracks_reserve|intros _].
  intros s.
  unfold bind, get_this, set_used_elements_end, set_elements, set_this.
  simpl.
  destruct (AlignedVectorCopy _ _ _ _ _) as [?|e'] eqn:Hcopy; simpl; [done|].
  apply AlignedVectorCopy_shape in Hcopy as [c ->].
  apply hands_over_same; [done|]. simpl. apply owned_with_cells.
Qed.

(** *** Stores *)

Lemma owned_at_insert a (m : gmap N (AlignedVector T)) x v y :
  owned_at (mkWorld a (<[x := v]> m)) y
  = if decide (x = y) then owned v else owned_at (mkWorld a m) y.
Proof. unfold owned_at. simpl. rewrite lookup_insert. by case_decide. Qed.

Lemma owned_at_mem a w y : owned_at (mkWorld a (objs w)) y = owned_at w y.
Proof. done. Qed.

(** The objects of [w'] own nothing or what the object [π x] of [w]
    owned, for a renaming [π] of the objects. *)
Lemma exclusive_permuted w w' (π : N → N) :
  (∀ x y, π x = π y → x = y) → allocated (mem w) ≤ allocated (mem w') →
  (∀ x, owned_at w' x = 0 ∨ owned_at w' x = owned_at w (π x)) →
  exclusive w → exclusive w'.
Proof.
  intros Hinj Ha Hperm [Hb Hd]. split.
  - intros x. destruct (Hperm x) as [->| ->]; [lia|].
    specialize (Hb (π x)). lia.
  - intros x y Hxy Hx.
    destruct (Hperm x) as [H0|Hx']; [congruence|].
    destruct (Hperm y) as [Hy0|Hy']; [by rewrite Hy0|].
    rewrite Hx', Hy'. apply Hd; [|by rewrite <- Hx'].
    intros Heq. by apply Hxy, Hinj.
Qed.

(** Object [x] now owns nothing, what it owned, or a block handed out
    since. *)
Lemma exclusive_insert w a' x v' :
  exclusive w → allocated (mem w) ≤ allocated a' →
  (owned v' = 0 ∨ owned v' = owned_at w x
   ∨ allocated (mem w) < owned v' ≤ allocated a') →
  exclusive (mkWorld a' (<[x := v']> (objs w))).
Proof.
  intros [Hb Hd] Ha Ho. split.
  - intros y. rewrite owned_at_insert, owned_at_mem. simpl.
    destruct (decide (x = y)) as [<-|Hxy];
      [specialize (Hb x)|specialize (Hb y)]; lia.
  - intros y z Hyz. rewrite !owned_at_insert, !owned_at_mem.
    destruct (decide (x = y)) as [<-|Hxy], (decide (x = z)) as [<-|Hxz];
      try done.
    + pose proof (Hb z). pose proof (Hd x z). lia.
    + pose proof (Hb y). pose proof (Hd y x). lia.
    + by apply Hd.
Qed.

Lemma exclusive_mem w a' :
  exclusive w → allocated (mem w) ≤ allocated a' →
  exclusive (mkWorld a' (objs w)).
Proof.
  intros [Hb Hd] Ha. split.
  - intros y. rewrite owned_at_mem. simpl. specialize (Hb y). lia.
  - intros y z. rewrite !owned_at_mem. apply Hd.
Qed.

Lemma keeps_exclusive_ret {A} (x : A) : keeps_exclusive (T:=T) (ret x).
Proof. by intros w Hw. Qed.

Lemma keeps_exclusive_bind {A B} (m : M (world T) A) (k : A → M (world T) B) :
  keeps_exclusive m → (∀ x, keeps_exclusive (k x)) →
  keeps_exclusive (bind m k).
Proof.
  intros Hm Hk w Hw. unfold bind. specialize (Hm w Hw).
  destruct (m w) as [x w'|ex w'|f]; try done. by apply Hk.
Qed.

Lemma keeps_exclusive_deref {B} x (k : AlignedVector T → M (world T) B) :
  (∀ v, keeps_exclusive (k v)) → keeps_exclusive (bind (deref x) k).
Proof.
  intros Hk w Hw. unfold bind, deref.
  destruct (objs w !! x) as [v|]; [|done]. by apply Hk.
Qed.

Lemma keeps_exclusive_call {A} x (m : M (machine T) A) :
  tracks_blocks m → keeps_exclusive (call x m).
Proof.
  intros Hm w Hw. unfold call.
  destruct (objs w !! x) as [v|] eqn:Hx; [|done].
  specialize (Hm (mkMachine (mem w) v)).
  assert (owned_at w x = owned v) as Hat by (unfold owned_at; by rewrite Hx).
  destruct (m _) as [r s|ex s|f]; try done;
    destruct Hm as [Ha Ho]; simpl in *;
    (apply exclusive_insert; [done|done|by rewrite Hat]).
Qed.

Lemma keeps_exclusive_construct x (m : M (machine T) unit) :
  tracks_blocks m → keeps_exclusive (construct x m).
Proof.
  intros Hm w Hw. unfold construct.
  destruct (objs w !! x) as [v|] eqn:Hx; [done|].
  specialize (Hm (mkMachine (mem w) (mkAlignedVector None nullptr nullptr))).
  assert (owned_at w x = 0) as Hat by (unfold owned_at; by rewrite Hx).
  destruct (m _) as [r s|ex s|f]; try done;
    destruct Hm as [Ha Ho]; simpl in *.
  - apply exclusive_insert; [done|done|by rewrite Hat].
  - by apply exclusive_mem.
Qed.

Lemma keeps_exclusive_copy_assign x vec :
  keeps_exclusive (T:=T) (copy_assign x vec).
Proof.
  unfold copy_assign.
  apply keeps_exclusive_bind;
    [apply keeps_exclusive_call, tracks_resize|intros _].
  apply keeps_exclusive_deref. intros v.
  apply keeps_exclusive_bind;
    [apply keeps_exclusive_call, tracks_resize_fast|intros _].
  apply keeps_exclusive_deref. intros v'.
  apply keeps_exclusive_call.
  apply (tracks_update_cells
           (λ t, AlignedVectorCopy (get (elements v'))
                   (used_elements_end v') (get (elements t))
                   (elements v') (elements t))).
  intros t e'. apply AlignedVectorCopy_shape.
Qed.

(** The renaming that exchanges two objects. *)
Lemma exchange_injective (A B : N) x y :
  (if decide (x = A) then B else if decide (x = B) then A else x)
  = (if decide (y = A) then B else if decide (y = B) then A else y) →
  x = y.
Proof. repeat case_decide; congruence. Qed.

Lemma keeps_exclusive_move_construct x vec :
  keeps_exclusive (T:=T) (exec (OpMoveConstruct x vec)).
Proof.
  intros w Hw. unfold exec, bind, deref, construct, assign, ret.
  destruct (objs w !! vec) as [v|] eqn:Hvec; [|done].
  destruct (objs w !! x) as [?|] eqn:Hx; [done|]. simpl.
  assert (x ≠ vec) as Hne by (intros ->; congruence).
  apply (exclusive_permuted w _
           (λ y, if decide (y = x) then vec
                 else if decide (y = vec) then x else y));
    [apply exchange_injective|done| |done].
  intros y. simpl. rewrite !owned_at_insert.
  destruct (decide (vec = y)) as [<-|Hy1]; [by left|].
  destruct (decide (x = y)) as [<-|Hy2].
  - right. rewrite decide_True by done.
    unfold owned_at. simpl. by rewrite Hvec.
  - right. by rewrite !decide_False by done.
Qed.

Lemma clear_outcome s :
  match clear s with
  | Ok _ s' => s' = mkMachine (heap s) (AlignedVector_default (T:=T))
  | Throw _ _ => False
  | Abort _ => True
  end.
Proof.
  unfold clear, bind, get_this. simpl.
  destruct (elements (this s)); simpl; [|done].
  destruct (is_trivial T); simpl; [done|].
  unfold destroy_down_to, bind, get_this. simpl.
  by destruct (destroy_back _ _ _).
Qed.

(** Move assignment and swap pass blocks from one object to another;
    they are followed to their end. *)
Lemma keeps_exclusive_move_assign x vec :
  keeps_exclusive (T:=T) (move_assign x vec).
Proof.
  intros w Hw. unfold move_assign. unfold bind at 1, call at 1.
  destruct (objs w !! x) as [t|] eqn:Hx; [|done].
  pose proof (clear_outcome (mkMachine (mem w) t)) as Hclear.
  destruct (clear _) as [[] s1|?|?]; try done. subst s1. simpl.
  destruct (decide (x = vec)) as [<-|Hne].
  - unfold bind, deref, assign. simpl.
    repeat (rewrite lookup_insert_eq; simpl).
    apply (exclusive_permuted w _ (λ y, y)); [done|done| |done].
    intros y. simpl. rewrite !owned_at_insert.
    destruct (decide (x = y)) as [<-|Hy]; [by left|by right].
  - unfold bind at 1, deref at 1. simpl.
    rewrite lookup_insert_ne by done.
    destruct (objs w !! vec) as [v|] eqn:Hvec; [|done].
    unfold bind, deref, assign. simpl.
    repeat (rewrite ?lookup_insert_eq;
            rewrite ?(lookup_insert_ne _ vec x) by done;
            rewrite ?(lookup_insert_ne _ x vec) by done; simpl).
    apply (exclusive_permuted w _
             (λ y, if decide (y = x) then vec
                   else if decide (y = vec) then x else y));
      [apply exchange_injective|done| |done].
    intros y. simpl. rewrite !owned_at_insert.
    destruct (decide (vec = y)) as [<-|Hy1]; [by left|].
    destruct (decide (x = y)) as [<-|Hy2].
    + right. rewrite decide_True by done.
      unfold owned_at. simpl. by rewrite Hvec.
    + right. by rewrite !decide_False by done.
Qed.

Lemma keeps_exclusive_swap x vec : keeps_exclusive (T:=T) (swap x vec).
Proof.
  intros w Hw. unfold swap. unfold bind at 1, deref at 1.
  destruct (objs w !! x) as [t|] eqn:Hx; [|done].
  destruct (decide (x = vec)) as [<-|Hne].
  - unfold bind, deref, assign. simpl.
    repeat (rewrite lookup_insert_eq; simpl).
    apply (exclusive_permuted w _ (λ y, y)); [done|done| |done].
    intros y. simpl. rewrite !owned_at_insert.
    destruct (decide (x = y)) as [<-|Hy]; [|by right].
    right. unfold owned_at. by rewrite Hx.
  - unfold bind at 1, assign at 1. simpl.
    unfold bind at 1, deref at 1. simpl.
    rewrite lookup_insert_ne by done.
    destruct (objs w !! vec) as [v|] eqn:Hvec; [|done].
    unfold bind, deref, assign. simpl.
    repeat (rewrite ?lookup_insert_eq;
            rewrite ?(lookup_insert_ne _ vec x) by done;
            rewrite ?(lookup_insert_ne _ x vec) by done; simpl).
    apply (exclusive_permuted w _
             (λ y, if decide (y = x) then vec
                   else if decide (y = vec) then x else y));
      [apply exchange_injective|done| |done].
    intros y. simpl. rewrite !owned_at_insert.
    destruct (decide (vec = y)) as [<-|Hy1].
    + right. rewrite decide_False, decide_True by done.
      unfold owned_at. simpl. by rewrite Hx.
    + destruct (decide (x = y)) as [<-|Hy2].
      * right. rewrite decide_True by done.
        unfold owned_at. simpl. by rewrite Hvec.
      * right. by rewrite !decide_False by done.
Qed.

Lemma keeps_exclusive_exec o : keeps_exclusive (T:=T) (exec o).
Proof.
  destruct o; try apply keeps_exclusive_move_construct; unfold exec.
  - apply keeps_exclusive_construct, tracks_ret.
  - apply keeps_exclusive_construct, tracks_sized.
  - apply keeps_exclusive_deref. intros v.
    apply keeps_exclusive_construct, tracks_copy.
  - apply keeps_exclusive_copy_assign.
  - apply keeps_exclusive_move_assign.
  - apply keeps_exclusive_call, tracks_resize_fast.
  - apply keeps_exclusive_call, tracks_resize.
  - apply keeps_exclusive_call, tracks_resize_init.
  - apply keeps_exclusive_call, tracks_reserve.
  - apply keeps_exclusive_call, tracks_clear.
  - apply keeps_exclusive_call, tracks_push_back.
  - apply keeps_exclusive_call, tracks_insert_back.
  - apply keeps_exclusive_call, tracks_fill.
  - apply keeps_exclusive_call, tracks_fill_value.
  - apply keeps_exclusive_call, tracks_set_index.
  - apply keeps_exclusive_swap.
  - apply keeps_exclusive_bind; [apply keeps_exclusive_call, tracks_load|].
    intros _. apply keeps_exclusive_ret.
Qed.

(** X27. Exclusive ownership.  In every state that a sequence of
    public operations leaves, by returning or by throwing, each block
    owned by a container is one the allocator has handed out and no two
    containers own the same block: copies get a block of their own,
    moves and swaps pass blocks on without duplicating them, and a
    reallocation gives the container a block no other container
    has. *)
Theorem exclusive_ownership w :
  reachable w →
  (∀ x v, objs w !! x = Some v → owned v ≤ allocated (mem w))
  ∧ (∀ x y vx vy,
       x ≠ y → objs w !! x = Some vx → objs w !! y = Some vy →
       owned vx ≠ 0 → owned vx ≠ owned vy).
Proof.
  intros Hw.
  assert (exclusive w) as [Hb Hd].
  { induction Hw as [a|w o w' _ IH Hrun|w o e w' _ IH Hrun].
    - split; [intros x; unfold owned_at; simpl; rewrite lookup_empty; lia|].
      intros x y _. unfold owned_at. simpl. by rewrite lookup_empty.
    - pose proof (keeps_exclusive_exec o w IH) as Hk. by rewrite Hrun in Hk.
    - pose proof (keeps_exclusive_exec o w IH) as Hk. by rewrite Hrun in Hk. }
  split.
  - intros x v Hx. specialize (Hb x). unfold owned_at in Hb.
    by rewrite Hx in Hb.
  - intros x y vx vy Hxy Hx Hy Hne. specialize (Hd x y Hxy).
    unfold owned_at in Hd. rewrite Hx, Hy in Hd. by apply Hd.
Qed.

End Ownership.

(** ** No reallocation while the capacity suffices *)

Section Stability.
Context {T : Type} `{ET : ElementType T}.
Implicit Types (b : block T) (e : option (block T)) (v : AlignedVector T).
Implicit Types (a : allocator) (c : gmap N T) (range : list T).

Local Arguments to_size_t : simpl never.
Local Arguments ptr_diff : simpl never.
Local Arguments wrap64 : simpl never.
Local Arguments wrap32 : simpl never.
Local Arguments N.mul : simpl never.
Local Arguments N.add : simpl never.
Local Arguments N.max : simpl never.
Local Arguments N.sub : simpl never.
Local Arguments N.ltb : simpl never.
Local Arguments N.leb : simpl never.
Local Arguments N.eqb : simpl never.
Local Arguments N.of_nat : simpl never.
Local Arguments ptr_add : simpl never.
Local Arguments accessible : simpl never.
Local Arguments get : simpl never.
Local Arguments extent_of : simpl never.
Local Arguments reserve : simpl never.
Local Arguments AlignedVectorSet : simpl never.
Local Arguments AlignedVectorDefaultInitialize : simpl never.

(** The container after a call that has kept the block and the
    allocator: the data pointer and the capacity are the same. *)
Lemma same_block_observed e c u u' :
  u ≤ extent_of e → extent_of e < 2 ^ 64 → u' ≤ extent_of e →
  let v' := holding (with_cells e c) u' in
  data v' = data (holding e u) ∧ size v' = u'
  ∧ capacity v' = extent_of e.
Proof.
  intros Hu He Hu'. simpl. unfold data. simpl.
  rewrite get_with_cells, size_holding, capacity_holding
    by (rewrite ?extent_of_with_cells; lia).
  by rewrite extent_of_with_cells.
Qed.

Lemma within_capacity_prefix a e u n (k : M (machine T) unit) :
  handle_ok e → u ≤ extent_of e → extent_of e < 2 ^ 64 →
  0 < n → n ≤ extent_of e →
  ∃ c1,
    (destroy_released n u ;;; reserve n ;;; set_used_to n ;;; k)
      (mkMachine a (holding e u))
    = k (mkMachine a (holding (with_cells e c1) n)).
Proof.
  intros Hok Hu He Hn Hcap.
  destruct (N.le_gt_cases n u) as [Hnu|Hun].
  - destruct (shrink_prefix a e u n k) as (c1 & Hrun & _); [done..|].
    by exists c1.
  - exists (cells_of e). rewrite with_cells_cells_of.
    assert (destroy_released n u (mkMachine a (holding e u))
            = Ok tt (mkMachine a (holding e u))) as Hkeep.
    { unfold destroy_released.
      by rewrite (proj2 (N.ltb_ge n u)), andb_false_r by lia. }
    rewrite (bind_ok _ _ _ _ _ Hkeep).
    rewrite (bind_ok _ _ _ _ _ (reserve_noop a e u n He Hn Hcap)).
    by rewrite (bind_ok _ _ _ _ _ (set_used_to_holding a e u n Hcap)).
Qed.

(** The grow step of the resize functions on a block that has room. *)
Lemma grow_in_place a e u n
    (prim : ptr → option (block T) → fault + option (block T)) :
  u ≤ n → n ≤ extent_of e →
  (∃ c', prim (Ptr (blk (get e)) u) e = inr (with_cells e c')) →
  ∃ c',
    (v <- get_this ;;
     dest <- lift (ptr_add (elements v) (get (elements v)) u) ;;
     e0 <- lift (prim dest (elements v)) ;;
     set_elements e0) (mkMachine a (holding e n))
    = Ok tt (mkMachine a (holding (with_cells e c') n)).
Proof.
  intros Hun Hn [c' Hprim]. exists c'.
  unfold bind at 1, get_this at 1. simpl.
  rewrite ptr_add_get by lia. unfold lift at 1, bind at 1, ret at 1.
  rewrite Hprim. unfold lift at 1, bind at 1, ret at 1.
  apply set_elements_holding.
Qed.

(** X28. While the capacity suffices nothing is reallocated, so
    pointers and iterators into the container stay valid: on a
    well-formed container, [push_back] below the capacity, [resize],
    [resize_fast] and [resize(n, init)] to a non-zero size within the
    capacity, and [insert_back] of a range that fits, on a size below
    2^32 and with a new size that is not 0, all return with the same
    data pointer, the same capacity and the allocator untouched.  A new
    size of 0 is excluded because [reserve(0)] releases the block:
    [resize(0)], and [insert_back] of an empty range on an empty
    container. *)
Theorem no_reallocation_within_capacity a v x n range :
  wf v →
  (size v < capacity v →
   ∃ v', push_back x (mkMachine a v) = Ok tt (mkMachine a v')
         ∧ data v' = data v ∧ size v' = size v + 1
         ∧ capacity v' = capacity v)
  ∧ (0 < n → n ≤ capacity v →
     ∃ v1 v2 v3,
       resize n (mkMachine a v) = Ok tt (mkMachine a v1)
       ∧ resize_fast n (mkMachine a v) = Ok tt (mkMachine a v2)
       ∧ resize_init n x (mkMachine a v) = Ok tt (mkMachine a v3)
       ∧ (data v1 = data v ∧ size v1 = n ∧ capacity v1 = capacity v)
       ∧ (data v2 = data v ∧ size v2 = n ∧ capacity v2 = capacity v)
       ∧ (data v3 = data v ∧ size v3 = n ∧ capacity v3 = capacity v))
  ∧ (size v < 2 ^ 32 → 0 < size v + N.of_nat (length range) →
     size v + N.of_nat (length range) ≤ capacity v →
     ∃ v', insert_back range (mkMachine a v) = Ok tt (mkMachine a v')
           ∧ data v' = data v
           ∧ size v' = size v + N.of_nat (length range)
           ∧ capacity v' = capacity v).
Proof.
  intros (e & u & -> & Hok & Hu & He)%wf_holding.
  pose proof (same_block_observed e) as Hobs. simpl in Hobs.
  rewrite size_holding, capacity_holding by lia.
  split; [|split].
  - intros Hroom.
    assert (e ≠ None) by (apply (not_none_of_extent e u); lia).
    unfold push_back. unfold bind at 1, get_this at 1. simpl.
    unfold ptr_le. simpl. rewrite N.eqb_refl, (proj2 (N.leb_le u _)) by done.
    simpl. unfold bind at 1. simpl.
    rewrite bool_decide_eq_false_2 by (intros [=]; lia). simpl.
    unfold bind at 1, ret at 1. unfold bind at 1, get_this at 1. simpl.
    assert ((if negb (is_trivial T)
             then store (Ptr (blk (get e)) u) x
             else store (Ptr (blk (get e)) u) x)
            = store (Ptr (blk (get e)) u) x) as ->
      by (by destruct (is_trivial T)).
    rewrite (bind_ok _ _ _ _ _ (store_holding _ _ _ _ _ H Hroom)).
    rewrite advance_holding by (rewrite extent_of_with_cells; lia).
    eexists. split; [done|].
    apply (Hobs _ u (u + 1)); lia.
  - intros Hn Hcap.
    assert (e ≠ None) by (apply (not_none_of_extent e 0); lia).
    assert (∀ k : M (machine T) unit, ∃ c1,
      (destroy_released n u ;;; reserve n ;;; set_used_to n ;;; k)
        (mkMachine a (holding e u))
      = k (mkMachine a (holding (with_cells e c1) n))) as Hprefix
      by (intros k; by apply within_capacity_prefix).
    assert (∀ (prim : ptr → option (block T) → fault + option (block T))
              (cond : bool),
      (u < n → ∀ e1, e1 ≠ None → handle_ok e1 → extent_of e1 = extent_of e →
         ∃ c', prim (Ptr (blk (get e1)) u) e1 = inr (with_cells e1 c')) →
      ∃ v',
        (destroy_released n u ;;; reserve n ;;; set_used_to n ;;;
         when (cond && (u <? n))
           (v <- get_this ;;
            dest <- lift (ptr_add (elements v) (get (elements v)) u) ;;
            e0 <- lift (prim dest (elements v)) ;;
            set_elements e0)) (mkMachine a (holding e u))
        = Ok tt (mkMachine a v')
        ∧ data v' = data (holding e u) ∧ size v' = n
        ∧ capacity v' = extent_of e) as Hvariant.
    { intros prim cond Hprim.
      destruct (Hprefix (when (cond && (u <? n))
           (v <- get_this ;;
            dest <- lift (ptr_add (elements v) (get (elements v)) u) ;;
            e0 <- lift (prim dest (elements v)) ;;
            set_elements e0))) as (c1 & ->).
      destruct (cond && (u <? n)) eqn:Hcond; simpl.
      - apply andb_true_iff in Hcond as [_ Hlt%N.ltb_lt].
        destruct (grow_in_place a (with_cells e c1) u n prim) as (c' & ->);
          [lia|by rewrite extent_of_with_cells| |].
        { apply Hprim; [done| |by apply handle_ok_with_cells
                              |by rewrite extent_of_with_cells].
          by destruct e. }
        eexists. split; [done|].
        assert (with_cells (with_cells e c1) c' = with_cells e c') as ->
          by (by destruct e).
        apply (Hobs _ u n); lia.
      - eexists. split; [done|]. apply (Hobs _ u n); lia. }
    destruct (Hvariant (AlignedVectorDefaultInitialize true (wrap64 (n - u)))
                true) as (v1 & Hrun1 & Hv1).
    { intros Hlt e1 Hne1 Hok1 Hext1. rewrite wrap64_small by lia.
      destruct (AlignedVectorDefaultInitialize_holding true (n - u) e1 u)
        as (c' & Hrun & _); [right; repeat split; [done..|lia]|].
      by exists c'. }
    destruct (Hvariant (AlignedVectorDefaultInitialize true (wrap64 (n - u)))
                (negb (is_trivial T))) as (v2 & Hrun2 & Hv2).
    { intros Hlt e1 Hne1 Hok1 Hext1. rewrite wrap64_small by lia.
      destruct (AlignedVectorDefaultInitialize_holding true (n - u) e1 u)
        as (c' & Hrun & _); [right; repeat split; [done..|lia]|].
      by exists c'. }
    destruct (Hvariant (AlignedVectorSet true (wrap64 (n - u)) x) true)
      as (v3 & Hrun3 & Hv3).
    { intros Hlt e1 Hne1 Hok1 Hext1. rewrite wrap64_small by lia.
      destruct (AlignedVectorSet_holding true (n - u) x e1 u)
        as (c' & Hrun & _); [right; repeat split; [done..|lia]|].
      by exists c'. }
    exists v1, v2, v3.
    split; [|split; [|split]].
    + unfold resize. unfold bind at 1, get_this at 1. simpl.
      rewrite size_holding by lia. exact Hrun1.
    + unfold resize_fast. unfold bind at 1, get_this at 1. simpl.
      rewrite size_holding by lia. exact Hrun2.
    + unfold resize_init. unfold bind at 1, get_this at 1. simpl.
      rewrite size_holding by lia. exact Hrun3.
    + done.
  - intros Hsmall Hpos Hfits.
    assert (e ≠ None) by (apply (not_none_of_extent e 0); lia).
    assert (wrap32 u = u) as Hw32 by (unfold wrap32; by apply N.mod_small).
    unfold insert_back. unfold bind at 1, get_this at 1. simpl.
    rewrite size_holding, Hw32 by lia.
    rewrite (wrap64_small (u + N.of_nat (length range))) by lia.
    rewrite (bind_ok _ _ _ _ _
               (reserve_noop a e u _ He Hpos Hfits)).
    destruct (insert_back_loop_holding a range e u) as (c' & -> & _);
      [done|done|].
    eexists. split; [done|]. apply (Hobs _ u); lia.
Qed.

End Stability.

(** ** clear, the destructor, and the move primitive *)

Section Release.
Context {T : Type} `{ET : ElementType T}.
Implicit Types (b : block T) (e : option (block T)) (v : AlignedVector T).
Implicit Types (a : allocator) (c : gmap N T).

Local Arguments to_size_t : simpl never.
Local Arguments ptr_diff : simpl never.
Local Arguments N.ltb : simpl never.
Local Arguments N.leb : simpl never.
Local Arguments N.eqb : simpl never.
Local Arguments ptr_add : simpl never.
Local Arguments get : simpl never.

(** X29. [clear()] and the destructor on a well-formed container
    return without a fault: the loop that destroys the elements from
    the last one down stops at the first one.  They leave the container
    as default constructed, without a block, and do not involve the
    allocator; a second [clear()] changes nothing. *)
Theorem clear_releases_block a v :
  wf v →
  clear (mkMachine a v) = Ok tt (mkMachine a AlignedVector_default)
  ∧ AlignedVector_destructor (mkMachine a v)
    = Ok tt (mkMachine a AlignedVector_default)
  ∧ (clear ;;; clear) (mkMachine a v)
    = Ok tt (mkMachine a AlignedVector_default).
Proof.
  intros (e & u & -> & Hok & Hu & He)%wf_holding.
  unfold AlignedVector_destructor, bind.
  rewrite clear_holding by done.
  split; [done|split; [done|]].
  rewrite holding_default. by apply clear_holding.
Qed.

(** X30. AlignedVectorMove between two blocks, as [reserve] calls it:
    the first [u] slots of the destination take what the first [u]
    slots of the source held and the rest of the destination is
    untouched; the source slots that were moved from are destroyed when
    [T] is not trivial and left as they are when it is. *)
Theorem AlignedVectorMove_spec e u (d : block T) :
  u ≤ extent_of e → u < 2 ^ 64 → bid d ≠ 0 → u ≤ extent d →
  ∃ c1 c2,
    AlignedVectorMove (get e) (Ptr (blk (get e)) u) (get (Some d)) e (Some d)
    = inr (with_cells e c1, Some (Block (bid d) (extent d) c2))
    ∧ (∀ j, c2 !! j = if decide (j < u) then cells_of e !! j
                      else cells d !! j)
    ∧ (∀ j, c1 !! j = if decide (j < u)
                      then (if is_trivial T then cells_of e !! j else None)
                      else cells_of e !! j).
Proof.
  intros Hu Hu64 Hd Hud. unfold AlignedVectorMove.
  rewrite ptr_le_holding, ptr_diff_holding by done. simpl.
  rewrite (bool_decide_eq_false_2 (Ptr (bid d) 0 = nullptr)) by (by intros [=]).
  rewrite orb_true_r. simpl.
  assert ((u =? 0)
          || (accessible e (get e) u
              && ((bid d =? bid d) && (0 + u <=? extent d))) = true) as ->.
  { destruct e as [b|]; simpl in *.
    - rewrite !N.eqb_refl. simpl.
      rewrite !(proj2 (N.leb_le _ _)) by lia. by rewrite orb_true_r.
    - assert (u = 0) as -> by lia. done. }
  rewrite (dispatch_piecewise _ u _
             (AlignedVectorMove_apply_to_subrange_piecewise _ _)).
  2: { intros b st. unfold AlignedVectorMove_apply_to_subrange.
       by rewrite N.eqb_refl. }
  eexists _, _. split; [done|]. split; intros j.
  - pose proof (AlignedVectorMove_apply_to_subrange_moves (get e)
                  (get (Some d)) 0 u (cells_of e, cells d) j
                  ltac:(lia)) as [_ Hm].
    rewrite Hm, !off_get. simpl.
    repeat case_decide; try lia; try done. f_equal. lia.
  - rewrite AlignedVectorMove_apply_to_subrange_source by lia.
    rewrite !off_get. simpl. repeat case_decide; (done || lia).
Qed.

End Release.

(** ** The further properties at sample states *)

Lemma empty_iff_size_zero_witness :
  (empty three_bools = true ↔ size three_bools = 0)
  ∧ (begin three_bools = end_ three_bools ↔ size three_bools = 0)
  ∧ data three_bools = begin three_bools
  ∧ ptr_le (begin three_bools) (end_ three_bools) = true
  ∧ ptr_diff (end_ three_bools) (begin three_bools)
    = Z.of_N (size three_bools).
Proof.
  apply (empty_iff_size_zero three_bools). apply wf_block; simpl; lia.
Defined.

Lemma back_is_last_element_witness :
  back three_bools = index three_bools (size three_bools - 1).
Proof.
  apply (back_is_last_element three_bools).
  - apply wf_block; simpl; lia.
  - vm_compute. reflexivity.
Defined.

Lemma index_after_assignment_witness :
  ∃ v',
    set_index 1 true (mkMachine small_allocator three_bools)
    = Ok tt (mkMachine small_allocator v')
    ∧ size v' = size three_bools ∧ capacity v' = capacity three_bools
    ∧ index v' 1 = inr (Some true)
    ∧ ∀ j, j ≠ 1 → index v' j = index three_bools j.
Proof.
  apply (index_after_assignment small_allocator three_bools 1 true).
  - apply wf_block; simpl; lia.
  - vm_compute. reflexivity.
Defined.

Lemma fill_value_spec_witness :
  ∃ v',
    fill_value false (mkMachine small_allocator three_bools)
    = Ok tt (mkMachine small_allocator v')
    ∧ size v' = size three_bools ∧ capacity v' = capacity three_bools
    ∧ (∀ i, i < size three_bools → index v' i = inr (Some false))
    ∧ (∀ j, size three_bools ≤ j →
         cells_of (elements v') !! j = cells_of (elements three_bools) !! j).
Proof.
  apply (fill_value_spec small_allocator three_bools false).
  apply wf_block; simpl; lia.
Defined.

Lemma fill_default_spec_witness :
  ∃ v',
    fill (mkMachine small_allocator two_counters)
    = Ok tt (mkMachine small_allocator v')
    ∧ size v' = size two_counters ∧ capacity v' = capacity two_counters
    ∧ (∀ i, i < size two_counters →
         index v' i
         = inr (Some (if is_trivial Counter then zero_value
                      else default_value Counter)))
    ∧ (∀ j, size two_counters ≤ j →
         cells_of (elements v') !! j = cells_of (elements two_counters) !! j).
Proof.
  apply (fill_default_spec small_allocator two_counters).
  apply wf_block; simpl; lia.
Defined.

Lemma sized_constructor_spec_witness :
  ∃ a' v',
    AlignedVector_sized 4 true (mkMachine small_allocator AlignedVector_default)
    = Ok tt (mkMachine a' v')
    ∧ wf v' ∧ size v' = 4 ∧ capacity v' = 4
    ∧ (∀ i, i < 4 → index v' i = inr (Some true))
    ∧ (4 = 0 → a' = small_allocator ∧ v' = AlignedVector_default).
Proof.
  apply (sized_constructor_spec small_allocator AlignedVector_default 4 true).
  - vm_compute. reflexivity.
  - intros _. vm_compute. split; [reflexivity|discriminate].
Defined.

Lemma resize_shrinks_in_place_witness :
  ∃ v',
    resize 1 (mkMachine small_allocator two_counters)
    = Ok tt (mkMachine small_allocator v')
    ∧ resize_fast 1 (mkMachine small_allocator two_counters)
      = Ok tt (mkMachine small_allocator v')
    ∧ resize_init 1 (mkCounter 9) (mkMachine small_allocator two_counters)
      = Ok tt (mkMachine small_allocator v')
    ∧ size v' = 1 ∧ capacity v' = capacity two_counters
    ∧ owned v' = owned two_counters
    ∧ (∀ i, i < 1 → index v' i = index two_counters i)
    ∧ (∀ j, 1 ≤ j →
         cells_of (elements v') !! j
         = if decide (j < size two_counters)
           then (if is_trivial Counter
                 then cells_of (elements two_counters) !! j else None)
           else cells_of (elements two_counters) !! j).
Proof.
  apply (resize_shrinks_in_place small_allocator two_counters 1 (mkCounter 9)).
  - apply wf_block; simpl; lia.
  - vm_compute. discriminate.
  - lia.
Defined.

Lemma resize_fast_trivial_keeps_slots_witness :
  (resize_fast 2 ;;; resize_fast (size three_bools))
    (mkMachine small_allocator three_bools)
  = Ok tt (mkMachine small_allocator three_bools).
Proof.
  apply (resize_fast_trivial_keeps_slots small_allocator three_bools 2).
  - apply wf_block; simpl; lia.
  - reflexivity.
  - lia.
  - vm_compute. discriminate.
  - vm_compute. reflexivity.
Defined.

Lemma refused_allocation_keeps_container_witness :
  reserve 5 (mkMachine tight_allocator three_bools)
  = Throw (ExcOutOfMemory 8) (mkMachine (refused tight_allocator 8) three_bools)
  ∧ resize 5 (mkMachine tight_allocator three_bools)
    = Throw (ExcOutOfMemory 8)
        (mkMachine (refused tight_allocator 8) three_bools)
  ∧ resize_fast 5 (mkMachine tight_allocator three_bools)
    = Throw (ExcOutOfMemory 8)
        (mkMachine (refused tight_allocator 8) three_bools)
  ∧ resize_init 5 true (mkMachine tight_allocator three_bools)
    = Throw (ExcOutOfMemory 8)
        (mkMachine (refused tight_allocator 8) three_bools).
Proof.
  change 8 with (N.max 5 (2 * capacity three_bools) * sizeof bool).
  apply (refused_allocation_keeps_container tight_allocator three_bools 5 true).
  - apply wf_block; simpl; lia.
  - vm_compute. reflexivity.
  - vm_compute. reflexivity.
  - vm_compute. reflexivity.
Defined.

Lemma push_back_refused_keeps_container_witness :
  push_back true (mkMachine tight_allocator four_bools)
  = Throw (ExcOutOfMemory 16)
      (mkMachine (refused tight_allocator 16) four_bools).
Proof.
  change 16 with (N.max (2 * capacity four_bools) 16 * sizeof bool).
  apply (push_back_refused_keeps_container tight_allocator four_bools true).
  - apply wf_block; simpl; lia.
  - vm_compute. reflexivity.
  - vm_compute. reflexivity.
  - vm_compute. reflexivity.
Defined.

Lemma copy_construct_spec_witness :
  ∃ w' vB,
    exec (OpCopyConstruct 2 1) one_object = Ok tt w'
    ∧ objs w' = <[2 := vB]> (objs one_object)
    ∧ wf vB ∧ size vB = size three_bools ∧ capacity vB = size three_bools
    ∧ (∀ i, i < size three_bools → index vB i = index three_bools i)
    ∧ (size three_bools = 0 →
       mem w' = mem one_object ∧ vB = AlignedVector_default)
    ∧ (0 < size three_bools →
       mem w' = granted (T:=bool) (mem one_object) (size three_bools)
       ∧ owned vB = N.succ (allocated (mem one_object))).
Proof.
  apply (copy_construct_spec one_object 1 2 three_bools).
  - reflexivity.
  - reflexivity.
  - apply wf_block; simpl; lia.
  - intros _. vm_compute. split; [reflexivity|discriminate].
Defined.

Lemma copy_assign_spec_witness :
  ∃ w' vA',
    copy_assign 1 2 two_objects = Ok tt w'
    ∧ objs w' = <[1 := vA']> (objs two_objects)
    ∧ wf vA' ∧ size vA' = size two_bools ∧ capacity vA' = size two_bools
    ∧ (∀ i, i < size two_bools → index vA' i = index two_bools i)
    ∧ (size two_bools = 0 → vA' = AlignedVector_default).
Proof.
  apply (copy_assign_spec two_objects 1 2 three_bools two_bools).
  - discriminate.
  - reflexivity.
  - reflexivity.
  - apply wf_block; simpl; lia.
  - apply wf_block; simpl; lia.
  - intros _. vm_compute. split; [reflexivity|discriminate].
Defined.

Lemma move_assign_spec_witness :
  ∃ w',
    move_assign 1 2 two_objects = Ok tt w'
    ∧ mem w' = mem two_objects
    ∧ objs w' !! 2 = Some AlignedVector_default
    ∧ (1 ≠ 2 → objs w' !! 1 = Some two_bools)
    ∧ ∀ C, C ≠ 1 → C ≠ 2 → objs w' !! C = objs two_objects !! C.
Proof.
  apply (move_assign_spec two_objects 1 2 three_bools two_bools).
  - reflexivity.
  - reflexivity.
  - apply wf_block; simpl; lia.
Defined.

Lemma swap_spec_witness :
  (∃ w',
     swap 1 2 two_objects = Ok tt w'
     ∧ mem w' = mem two_objects
     ∧ objs w' !! 1 = Some two_bools ∧ objs w' !! 2 = Some three_bools
     ∧ ∀ C, C ≠ 1 → C ≠ 2 → objs w' !! C = objs two_objects !! C)
  ∧ (1 = 2 → swap 1 2 two_objects = Ok tt two_objects)
  ∧ (swap 1 2 ;;; swap 1 2) two_objects = Ok tt two_objects.
Proof.
  apply (swap_spec two_objects 1 2 three_bools two_bools); reflexivity.
Defined.

Lemma operator_eq_spec_witness :
  (size three_bools ≠ size four_bools →
   operator_eq three_bools four_bools = inr false
   ∧ operator_ne three_bools four_bools = inr true)
  ∧ (size three_bools = size four_bools →
     initialized three_bools → initialized four_bools →
     ∃ r,
       operator_eq three_bools four_bools = inr r
       ∧ operator_ne three_bools four_bools = inr (negb r)
       ∧ (r = true ↔
          ∀ i x y, index three_bools i = inr (Some x) →
                   index four_bools i = inr (Some y) → ne x y = false)).
Proof.
  apply (operator_eq_spec three_bools four_bools);
    apply wf_block; simpl; lia.
Defined.

(** Every element of the three [bool]s holds a value. *)
Lemma three_bools_initialized : initialized three_bools.
Proof.
  intros i Hi. change (size three_bools) with 3 in Hi.
  assert (i = 0 ∨ i = 1 ∨ i = 2) as Hi3 by lia.
  destruct Hi3 as [Hi3 | [Hi3 | Hi3]]; subst i; vm_compute; eexists;
    reflexivity.
Defined.

Lemma copy_equals_original_witness :
  ∃ w' vB,
    exec (OpCopyConstruct 2 1) one_object = Ok tt w'
    ∧ objs w' !! 2 = Some vB ∧ objs w' !! 1 = Some three_bools
    ∧ operator_eq vB three_bools = inr true
    ∧ operator_ne vB three_bools = inr false.
Proof.
  apply (copy_equals_original one_object 1 2 three_bools).
  - intros []; reflexivity.
  - reflexivity.
  - reflexivity.
  - apply wf_block; simpl; lia.
  - apply three_bools_initialized.
  - intros _. vm_compute. split; [reflexivity|discriminate].
Defined.

Lemma memory_consumption_spec_witness :
  memory_consumption three_bools
  = inr (wrap64 (sizeof_this bool + elements_consumption three_bools
                 + sizeof bool * (capacity three_bools - size three_bools)))
  ∧ ((∀ o : option bool, element_memory_consumption o = sizeof bool) →
     memory_consumption three_bools
     = inr (wrap64 (sizeof_this bool + sizeof bool * capacity three_bools))).
Proof.
  apply (memory_consumption_spec three_bools). apply wf_block; simpl; lia.
Defined.

Lemma load_within_capacity_witness :
  ∃ v',
    load (ISize 2 :: (ISlot <$> [Some false; Some false]) ++ [ISize 7])
      (mkMachine small_allocator three_bools)
    = Ok [ISize 7] (mkMachine small_allocator v')
    ∧ size v' = 2 ∧ capacity v' = capacity three_bools
    ∧ owned v' = owned three_bools
    ∧ (∀ i o, [Some false; Some false] !! N.to_nat i = Some o →
         index v' i = inr o)
    ∧ (∀ j, 2 ≤ j →
         cells_of (elements v') !! j = cells_of (elements three_bools) !! j).
Proof.
  apply (load_within_capacity small_allocator three_bools
           [Some false; Some false] [ISize 7]).
  - apply wf_block; simpl; lia.
  - vm_compute. reflexivity.
  - vm_compute. discriminate.
Defined.

Lemma load_truncated_overwrites_witness :
  ∃ v',
    load (ISize 3 :: (ISlot <$> [Some false]))
      (mkMachine small_allocator three_bools)
    = Throw archive_exception (mkMachine small_allocator v')
    ∧ size v' = size three_bools ∧ capacity v' = capacity three_bools
    ∧ owned v' = owned three_bools
    ∧ (∀ j o, [Some false] !! N.to_nat j = Some o →
         cells_of (elements v') !! j = o)
    ∧ (∀ j, N.of_nat (length [Some false]) ≤ j →
         cells_of (elements v') !! j = cells_of (elements three_bools) !! j).
Proof.
  apply (load_truncated_overwrites small_allocator three_bools [Some false] 3).
  - apply wf_block; simpl; lia.
  - vm_compute. reflexivity.
  - vm_compute. discriminate.
Defined.

Lemma load_of_empty_changes_nothing_witness :
  save [] (AlignedVector_default (T:=bool)) = inr [ISize 0]
  ∧ load ([ISize 0] ++ [ISize 7]) (mkMachine small_allocator three_bools)
    = Ok [ISize 7] (mkMachine small_allocator three_bools).
Proof.
  apply (load_of_empty_changes_nothing small_allocator AlignedVector_default
           three_bools [ISize 7]).
  - apply wf_null.
  - reflexivity.
Defined.

Lemma save_load_any_target_witness :
  ∃ ar a' vB',
    save [] three_bools = inr ar
    ∧ load (ar ++ [ISize 7]) (mkMachine small_allocator two_bools)
      = Ok [ISize 7] (mkMachine a' vB')
    ∧ size vB' = size three_bools
    ∧ ∀ i, i < size three_bools → index vB' i = index three_bools i.
Proof.
  apply (save_load_any_target small_allocator three_bools two_bools [ISize 7]).
  - reflexivity.
  - apply wf_block; simpl; lia.
  - apply wf_block; simpl; lia.
  - vm_compute. reflexivity.
  - intros _. vm_compute. split; [reflexivity|discriminate].
Defined.

Lemma push_back_all_spec_witness :
  ∃ a' v',
    push_back_all [true; false; true]
      (mkMachine small_allocator AlignedVector_default)
    = Ok tt (mkMachine a' v')
    ∧ wf v' ∧ size v' = 3 ∧ 3 ≤ capacity v'
    ∧ doubling_range 3 (capacity v')
    ∧ ∀ i x, [true; false; true] !! N.to_nat i = Some x →
             index v' i = inr (Some x).
Proof.
  apply (push_back_all_spec small_allocator [true; false; true]).
  vm_compute. split; [reflexivity|discriminate].
Defined.

Lemma insert_back_appends_witness :
  ∃ a' v',
    insert_back [true; false] (mkMachine small_allocator three_bools)
    = Ok tt (mkMachine a' v')
    ∧ size v' = size three_bools + N.of_nat (length [true; false])
    ∧ capacity v'
      = reserve_capacity (capacity three_bools)
          (size three_bools + N.of_nat (length [true; false]))
    ∧ (∀ i, i < size three_bools → index v' i = index three_bools i)
    ∧ (∀ i, i < N.of_nat (length [true; false]) →
         index v' (size three_bools + i) = inr ([true; false] !! N.to_nat i)).
Proof.
  apply (insert_back_appends small_allocator three_bools [true; false]).
  - apply wf_block; simpl; lia.
  - vm_compute. reflexivity.
  - intros _. vm_compute. split; [reflexivity|discriminate].
Defined.

Lemma exclusive_ownership_witness :
  let w := run_program sample_program (mkWorld (fresh_allocator 1000) ∅) in
  (∀ x v, objs w !! x = Some v → owned v ≤ allocated (mem w))
  ∧ (∀ x y vx vy,
       x ≠ y → objs w !! x = Some vx → objs w !! y = Some vy →
       owned vx ≠ 0 → owned vx ≠ owned vy).
Proof.
  apply (exclusive_ownership
           (run_program sample_program (mkWorld (fresh_allocator 1000) ∅))).
  apply run_program_reachable, reachable_start.
Defined.

Lemma no_reallocation_within_capacity_witness :
  ∃ v',
    push_back true (mkMachine small_allocator three_bools)
    = Ok tt (mkMachine small_allocator v')
    ∧ data v' = data three_bools ∧ size v' = size three_bools + 1
    ∧ capacity v' = capacity three_bools.
Proof.
  apply (no_reallocation_within_capacity small_allocator three_bools true 4
           [true]).
  - apply wf_block; simpl; lia.
  - vm_compute. reflexivity.
Defined.

Lemma clear_releases_block_witness :
  clear (mkMachine small_allocator three_bools)
  = Ok tt (mkMachine small_allocator AlignedVector_default)
  ∧ AlignedVector_destructor (mkMachine small_allocator three_bools)
    = Ok tt (mkMachine small_allocator AlignedVector_default)
  ∧ (clear ;;; clear) (mkMachine small_allocator three_bools)
    = Ok tt (mkMachine small_allocator AlignedVector_default).
Proof.
  apply (clear_releases_block small_allocator three_bools).
  apply wf_block; simpl; lia.
Defined.

Lemma AlignedVectorMove_spec_witness :
  let e := elements three_bools in
  let d := Block 2 8 (∅ : gmap N bool) in
  ∃ c1 c2,
    AlignedVectorMove (get e) (Ptr (blk (get e)) 3) (get (Some d)) e (Some d)
    = inr (with_cells e c1, Some (Block (bid d) (extent d) c2))
    ∧ (∀ j, c2 !! j = if decide (j < 3) then cells_of e !! j
                      else cells d !! j)
    ∧ (∀ j, c1 !! j = if decide (j < 3)
                      then (if is_trivial bool then cells_of e !! j else None)
                      else cells_of e !! j).
Proof.
  apply (AlignedVectorMove_spec (elements three_bools) 3
           (Block 2 8 (∅ : gmap N bool))); simpl; lia.
Defined.

Lemma load_reserves_declared_count_witness :
  let a := small_allocator in
  let ar := [ISize 900; ISlot (Some true)] in
  (let bytes := wrap64 (N.max 900 (wrap64 (2 * capacity three_bools))
                        * sizeof bool) in
   limit a < bytes →
   load ar (mkMachine a three_bools)
   = Throw (ExcOutOfMemory bytes) (mkMachine (refused a bytes) three_bools))
  ∧ (let k := N.max 900 (2 * capacity three_bools) in
     grantable (T:=bool) a k →
     (∀ payload rest',
        [ISlot (Some true)] = (ISlot <$> payload) ++ rest' →
        N.of_nat (length payload) = 900 →
        ∃ v',
          load ar (mkMachine a three_bools)
          = Ok rest' (mkMachine (granted (T:=bool) a k) v')
          ∧ size v' = 900 ∧ capacity v' = k
          ∧ ∀ i o, payload !! N.to_nat i = Some o → index v' i = inr o)
     ∧ (∀ payload,
          [ISlot (Some true)] = ISlot <$> payload →
          N.of_nat (length payload) < 900 →
          ∃ v',
            load ar (mkMachine a three_bools)
            = Throw archive_exception (mkMachine (granted (T:=bool) a k) v')
            ∧ size v' = size three_bools ∧ capacity v' = k
            ∧ (∀ j o, payload !! N.to_nat j = Some o →
                 cells_of (elements v') !! j = o)
            ∧ (∀ i, N.of_nat (length payload) ≤ i → i < size three_bools →
                 index v' i = index three_bools i))).
Proof.
  apply (load_reserves_declared_count small_allocator three_bools 900
           [ISlot (Some true)]).
  - apply wf_block; simpl; lia.
  - vm_compute. reflexivity.
Defined.

(** A count whose byte size does not fit a [std::size_t]: for
    [long double] the count 2^60 + 1 becomes a request for 16 bytes,
    which is what an allocator that refuses it reports. *)
Example load_count_wraps :
  load [ISize (2 ^ 60 + 1)]
    (mkMachine (fresh_allocator 8) (AlignedVector_default (T:=long_double)))
  = Throw (ExcOutOfMemory 16)
      (mkMachine (mkAllocator 0 8 [(64, 16)]) AlignedVector_default).
Proof. vm_compute. reflexivity. Qed.
